(** * Red Tetris server: a shallow embedding of the authoritative game core

    The development follows the server sources: [Piece] (piece.js),
    [Player] (player.js), [Game] (game.js) and [GameManager] (the registry
    that routes socket commands to games).

    - The [Player] objects are shared between the registry and the games.
      They live in one store keyed by socket id, which is the registry's
      [players] map; a game holds references (socket ids) into it, and a
      write through either side is seen by the other.
    - A function that can raise in the source (a read of a row of [null],
      of a field of [null]) returns an [option]; [None] is the raise.
      Loops that the source leaves by a condition carry fuel, and the
      lemmas below show the fuel given is enough.
    - [Math.random] is not modelled: the outcome of every shuffle is an
      argument of [generatePieceSequence].
    - The database is outside the model but for the [players] table that
      [joinGame] reads back; its calls are taken to succeed.  Events sent
      to sockets are not part of the state; an error sent to the requesting
      socket is the [reply] of the command. *)

From Stdlib Require Import ZArith List Bool Lia Permutation.
From stdpp Require Import gmap strings list fin_maps option.

Local Open Scope Z_scope.

(** ** Cell tags *)

(** The values a piece type or a board cell can take on the server: the seven
    letters of [generatePieceSequence], the penalty tag ['X'], and
    [undefined] (an index past the end of the piece sequence). *)
Inductive tag : Set := KI | KO | KT | KS | KZ | KJ | KL | KX | Kundefined.

(** A board cell is the number [0] or a tag. *)
Inductive cell : Set := Zero | Tag (t : tag).

#[global] Instance tag_eq_dec : EqDecision tag.
Proof. solve_decision. Defined.

#[global] Instance cell_eq_dec : EqDecision cell.
Proof. solve_decision. Defined.

Abbreviation Shape := (list (list nat)).
Abbreviation Board := (list (list cell)).

(** JavaScript truthiness of a shape entry ([0] or [1]). *)
Definition truthy (v : nat) : bool := negb (Nat.eqb v 0).

(** [cell !== 0] *)
Definition nonZero (c : cell) : bool :=
  match c with Zero => false | Tag _ => true end.

(** ** piece.js *)

Module Piece.

Record t : Set := mk { type : tag; x : Z; y : Z; shape : Shape }.

(** The object literal [shapes] of [getShape]; a key that is not in the
    literal reads as [undefined]. *)
Definition shapes (k : tag) : option Shape :=
  match k with
  | KI => Some [[0; 0; 0; 0]; [1; 1; 1; 1]; [0; 0; 0; 0]; [0; 0; 0; 0]]
  | KO => Some [[1; 1]; [1; 1]]
  | KT => Some [[0; 1; 0]; [1; 1; 1]; [0; 0; 0]]
  | KS => Some [[0; 1; 1]; [1; 1; 0]; [0; 0; 0]]
  | KZ => Some [[1; 1; 0]; [0; 1; 1]; [0; 0; 0]]
  | KJ => Some [[1; 0; 0]; [1; 1; 1]; [0; 0; 0]]
  | KL => Some [[0; 0; 1]; [1; 1; 1]; [0; 0; 0]]
  | KX | Kundefined => None
  end%nat.

(** [shapes[type] || shapes['I']] *)
Definition getShape (type : tag) : Shape :=
  match shapes type with
  | Some s => s
  | None => default [] (shapes KI)
  end.

(** [new Piece(type)] *)
Definition new (type : tag) : t :=
  {| type := type; x := 3; y := 0; shape := getShape type |}.

Definition set_x (v : Z) (p : t) : t :=
  {| type := type p; x := v; y := y p; shape := shape p |}.
Definition set_y (v : Z) (p : t) : t :=
  {| type := type p; x := x p; y := v; shape := shape p |}.
Definition set_shape (v : Shape) (p : t) : t :=
  {| type := type p; x := x p; y := y p; shape := v |}.

(** [this.shape[row][col]], [0] standing for a missing entry. *)
Definition at_ (s : Shape) (row col : nat) : nat :=
  default 0%nat (s !! row ≫= fun line => line !! col).

(** The two loops of [rotate]: [newShape[col][rows - 1 - row] =
    shape[row][col]] for [col] from [0] to [cols - 1] and [row] from
    [rows - 1] down to [0]. *)
Definition rotateShape (s : Shape) : Shape :=
  let rows := length s in
  let cols := length (default [] (s !! 0%nat)) in
  map (fun col => map (fun j => at_ s (rows - 1 - j) col) (seq 0 rows))
      (seq 0 cols).

Definition rotate (p : t) : t :=
  let rotated := set_y (y p) (set_x (x p) (new (type p))) in
  match type p with
  | KO => set_shape (shape p) rotated
  | _ => set_shape (rotateShape (shape p)) rotated
  end.

End Piece.

(** ** player.js *)

Module Player.

Record t : Set := mk {
  id : string;
  name : string;
  roomName : string;
  isHost : bool;
  isAlive : bool;
  score : nat;
  linesCleared : nat;
  board : option Board;
  currentPiece : option Piece.t;
  nextPiece : option Piece.t;
  spectrum : list nat
}.

(** [new Player(id, name, roomName, isHost)] *)
Definition new (id name roomName : string) (isHost : bool) : t :=
  {| id := id; name := name; roomName := roomName; isHost := isHost;
     isAlive := true; score := 0; linesCleared := 0; board := None;
     currentPiece := None; nextPiece := None;
     spectrum := replicate 10 0%nat |}.

Definition set_isHost (v : bool) (p : t) : t :=
  mk (id p) (name p) (roomName p) v (isAlive p) (score p) (linesCleared p)
     (board p) (currentPiece p) (nextPiece p) (spectrum p).
Definition set_isAlive (v : bool) (p : t) : t :=
  mk (id p) (name p) (roomName p) (isHost p) v (score p) (linesCleared p)
     (board p) (currentPiece p) (nextPiece p) (spectrum p).
Definition set_score (v : nat) (p : t) : t :=
  mk (id p) (name p) (roomName p) (isHost p) (isAlive p) v (linesCleared p)
     (board p) (currentPiece p) (nextPiece p) (spectrum p).
Definition set_linesCleared (v : nat) (p : t) : t :=
  mk (id p) (name p) (roomName p) (isHost p) (isAlive p) (score p) v
     (board p) (currentPiece p) (nextPiece p) (spectrum p).
Definition set_board (v : option Board) (p : t) : t :=
  mk (id p) (name p) (roomName p) (isHost p) (isAlive p) (score p)
     (linesCleared p) v (currentPiece p) (nextPiece p) (spectrum p).
Definition set_currentPiece (v : option Piece.t) (p : t) : t :=
  mk (id p) (name p) (roomName p) (isHost p) (isAlive p) (score p)
     (linesCleared p) (board p) v (nextPiece p) (spectrum p).
Definition set_nextPiece (v : option Piece.t) (p : t) : t :=
  mk (id p) (name p) (roomName p) (isHost p) (isAlive p) (score p)
     (linesCleared p) (board p) (currentPiece p) v (spectrum p).

(** The object that [toJSON] returns. *)
Module Info.

Record t : Set := mk {
  id : string;
  name : string;
  roomName : string;
  isHost : bool;
  isAlive : bool;
  score : nat;
  linesCleared : nat;
  spectrum : list nat
}.

End Info.

Definition toJSON (p : t) : Info.t :=
  {| Info.id := id p; Info.name := name p; Info.roomName := roomName p;
     Info.isHost := isHost p; Info.isAlive := isAlive p;
     Info.score := score p; Info.linesCleared := linesCleared p;
     Info.spectrum := spectrum p |}.

End Player.

(** ** game.js *)

Inductive Status : Set := waiting | playing | finished.

Inductive direction : Set := left | right | down | otherDirection.

(** The [Player] objects, keyed by socket id. *)
Abbreviation Store := (gmap string Player.t).

(** [Array.prototype.forEach] over references, threading the state; [None]
    stands for a run in which the source raises. *)
Fixpoint forEach {S : Type} (f : S -> string -> option S) (l : list string)
    (s : S) : option S :=
  match l with
  | [] => Some s
  | a :: l' => s' ← f s a; forEach f l' s'
  end.

Module Game.

Record t : Set := mk {
  roomName : string;
  players : list string;
  status : Status;
  pieceSequence : list tag;
  currentPieceIndex : nat;
  gameTimer : bool;
  dropInterval : nat
}.

(** [new Game(roomName, io)]; [gameTimer] records whether an interval
    handle is stored. *)
Definition new (roomName : string) : t :=
  {| roomName := roomName; players := []; status := waiting;
     pieceSequence := []; currentPieceIndex := 0; gameTimer := false;
     dropInterval := 1000 |}.

Definition set_players (v : list string) (g : t) : t :=
  mk (roomName g) v (status g) (pieceSequence g) (currentPieceIndex g)
     (gameTimer g) (dropInterval g).
Definition set_status (v : Status) (g : t) : t :=
  mk (roomName g) (players g) v (pieceSequence g) (currentPieceIndex g)
     (gameTimer g) (dropInterval g).
Definition set_pieceSequence (v : list tag) (g : t) : t :=
  mk (roomName g) (players g) (status g) v (currentPieceIndex g)
     (gameTimer g) (dropInterval g).
Definition set_currentPieceIndex (v : nat) (g : t) : t :=
  mk (roomName g) (players g) (status g) (pieceSequence g) v
     (gameTimer g) (dropInterval g).
Definition set_gameTimer (v : bool) (g : t) : t :=
  mk (roomName g) (players g) (status g) (pieceSequence g)
     (currentPieceIndex g) v (dropInterval g).

Definition addPlayer (pid : string) (g : t) : t :=
  set_players (players g ++ [pid]) g.

(** [findIndex] on the id, then [splice(index, 1)]. *)
Fixpoint removeFirst (pid : string) (l : list string) : list string :=
  match l with
  | [] => []
  | a :: l' => if decide (a = pid) then l' else a :: removeFirst pid l'
  end.

Definition removePlayer (pid : string) (g : t) : t :=
  set_players (removeFirst pid (players g)) g.

Definition endGame (g : t) : t :=
  set_gameTimer false (set_status finished g).

Definition pieces : list tag := [KI; KO; KT; KS; KZ; KJ; KL].

(** [sort i l] is the array that the [i]-th call
    [[...pieces].sort(() => Math.random() - 0.5)] leaves behind. *)
Definition generatePieceSequence (sort : nat -> list tag -> list tag)
    (g : t) : t :=
  set_pieceSequence
    (foldl (fun acc i => acc ++ sort i pieces) [] (seq 0 10)) g.

(** [this.pieceSequence[i]] *)
Definition pieceAt (g : t) (i : nat) : tag :=
  default Kundefined (pieceSequence g !! i).

Definition createEmptyBoard : Board := replicate 20 (replicate 10 Zero).

(** The callback of [distributePieces]: what each player is given. *)
Definition deal (g : t) (player : Player.t) : Player.t :=
  Player.set_linesCleared 0
    (Player.set_score 0
      (Player.set_board (Some createEmptyBoard)
        (Player.set_nextPiece
           (Some (Piece.new (pieceAt g (currentPieceIndex g + 1))))
           (Player.set_currentPiece
              (Some (Piece.new (pieceAt g (currentPieceIndex g))))
              player)))).

Definition dealTo (g : t) (st : Store) (pid : string) : option Store :=
  player ← st !! pid; Some (<[pid := deal g player]> st).

Definition distributePieces (g : t) (st : Store) : option Store :=
  forEach (dealTo g) (players g) st.

(** The entries of a shape in the order in which the nested [for] loops
    visit them: [(row, col, shape[row][col])]. *)
Definition cells (s : Shape) : list (nat * nat * nat) :=
  concat (imap (fun row line => imap (fun col v => (row, col, v)) line) s).

Definition outOfBounds (boardRow boardCol : Z) : bool :=
  (boardRow <? 0) || (boardRow >=? 20) || (boardCol <? 0) || (boardCol >=? 10).

(** The loop body of [isValidPosition] with its early [return false];
    [board[boardRow]] of a missing row raises. *)
Fixpoint isValidCells (board : Board) (x y : Z)
    (cs : list (nat * nat * nat)) : option bool :=
  match cs with
  | [] => Some true
  | (row, col, v) :: rest =>
      if truthy v then
        let boardRow := y + Z.of_nat row in
        let boardCol := x + Z.of_nat col in
        if outOfBounds boardRow boardCol then Some false
        else
          line ← board !! Z.to_nat boardRow;
          match line !! Z.to_nat boardCol with
          | Some Zero => isValidCells board x y rest
          | _ => Some false
          end
      else isValidCells board x y rest
  end.

Definition isValidPosition (board : Board) (piece : Piece.t) (x y : Z)
    : option bool :=
  isValidCells board x y (cells (Piece.shape piece)).

(** [player.board] as the array that the reads of [isValidPosition] see:
    indexing a row of [null] raises exactly where indexing a row of the
    empty array does. *)
Definition boardOf (player : Player.t) : Board :=
  default [] (Player.board player).

(** The loop body of [lockPiece]. Writing into a missing row raises;
    writing past the end of a row would extend it, which leaves the
    boards this model covers, so it is reported like a raise. *)
Definition lockCell (piece : Piece.t) (board : Board)
    (c : nat * nat * nat) : option Board :=
  let '(row, col, v) := c in
  if truthy v then
    let boardRow := Piece.y piece + Z.of_nat row in
    let boardCol := Piece.x piece + Z.of_nat col in
    if outOfBounds boardRow boardCol then Some board
    else
      line ← board !! Z.to_nat boardRow;
      if decide (Z.to_nat boardCol < length line)%nat then
        Some (<[Z.to_nat boardRow :=
                  <[Z.to_nat boardCol := Tag (Piece.type piece)]> line]> board)
      else None
  else Some board.

Fixpoint lockCells (piece : Piece.t) (board : Board)
    (cs : list (nat * nat * nat)) : option Board :=
  match cs with
  | [] => Some board
  | c :: rest => board' ← lockCell piece board c; lockCells piece board' rest
  end.

(** The writes go into [player.board] itself; on [null] the first of them
    raises, and a piece with no block inside the board leaves [null] as it
    is. *)
Definition lockPiece (player : Player.t) : option Player.t :=
  piece ← Player.currentPiece player;
  board' ← lockCells piece (boardOf player) (cells (Piece.shape piece));
  match Player.board player with
  | Some _ => Some (Player.set_board (Some board') player)
  | None => Some player
  end.

(** [line.every(cell => cell !== 0)] *)
Definition isLineFull (line : list cell) : bool := forallb nonZero line.

(** The [for (row = 19; row >= 0; row--)] loop of [clearLines], one
    iteration per unit of fuel; a full line is spliced out, an empty line
    is unshifted, and the same [row] is looked at again. *)
Fixpoint clearLinesLoop (fuel : nat) (board : Board) (row : Z)
    (linesCleared : nat) : option (Board * nat) :=
  match fuel with
  | O => None
  | S fuel' =>
      if row <? 0 then Some (board, linesCleared)
      else
        line ← board !! Z.to_nat row;
        if isLineFull line then
          clearLinesLoop fuel'
            (replicate 10 Zero :: delete (Z.to_nat row) board)
            (row + 1 - 1) (S linesCleared)
        else clearLinesLoop fuel' board (row - 1) linesCleared
  end.

(** Every iteration either moves [row] up or removes a full line, so
    twice the number of rows, and one more to leave, is enough fuel. *)
Definition clearLines (player : Player.t) : option (Player.t * nat) :=
  board ← Player.board player;
  '(board', linesCleared) ← clearLinesLoop (2 * length board + 1) board 19 0;
  let player' := Player.set_board (Some board') player in
  if decide (0 < linesCleared)%nat then
    Some (Player.set_score (Player.score player + linesCleared * 100)%nat
            (Player.set_linesCleared
               (Player.linesCleared player + linesCleared)%nat player'),
          linesCleared)
  else Some (player', linesCleared).

Definition spawnNewPiece (g : t) (player : Player.t)
    : option (t * Player.t) :=
  let g' := set_currentPieceIndex (S (currentPieceIndex g)) g in
  piece ← Player.nextPiece player;
  Some (g',
        Player.set_nextPiece
          (Some (Piece.new (pieceAt g' (currentPieceIndex g'))))
          (Player.set_currentPiece
             (Some (Piece.set_y 0 (Piece.set_x 3 piece))) player)).

Definition canSpawnPiece (player : Player.t) : option bool :=
  piece ← Player.currentPiece player;
  isValidPosition (boardOf player) piece 3 0.

Definition isAliveAt (st : Store) (pid : string) : bool :=
  match st !! pid with
  | Some player => Player.isAlive player
  | None => false
  end.

Definition checkGameEnd (g : t) (st : Store) : t :=
  let alivePlayers := filter (fun pid => isAliveAt st pid = true) (players g) in
  if decide (length alivePlayers <= 1)%nat then endGame g else g.

Definition dropPiece (g : t) (st : Store) (pid : string)
    : option (t * Store) :=
  player ← st !! pid;
  match Player.currentPiece player with
  | None => Some (g, st)
  | Some piece =>
      let newY := Piece.y piece + 1 in
      valid ← isValidPosition (boardOf player) piece (Piece.x piece) newY;
      if (valid : bool) then
        Some (g, <[pid := Player.set_currentPiece
                            (Some (Piece.set_y newY piece)) player]> st)
      else
        locked ← lockPiece player;
        '(cleared, _) ← clearLines locked;
        '(g', spawned) ← spawnNewPiece g cleared;
        canSpawn ← canSpawnPiece spawned;
        if negb canSpawn then
          let st' := <[pid := Player.set_isAlive false spawned]> st in
          Some (checkGameEnd g' st', st')
        else Some (g', <[pid := spawned]> st)
  end.

(** The callback of the interval installed by [startGameLoop]. *)
Definition dropIfAlive (s : t * Store) (pid : string) : option (t * Store) :=
  let '(g, st) := s in
  player ← st !! pid;
  if Player.isAlive player then dropPiece g st pid else Some (g, st).

(** One firing of that interval. *)
Definition tick (g : t) (st : Store) : option (t * Store) :=
  forEach dropIfAlive (players g) (g, st).

(** [movePiece]; the boolean is the [success] field of the result. *)
Definition movePiece (st : Store) (pid : string) (dir : direction)
    : option (Store * bool) :=
  player ← st !! pid;
  match Player.currentPiece player with
  | None => Some (st, false)
  | Some piece =>
      if negb (Player.isAlive player) then Some (st, false)
      else
        let target :=
          match dir with
          | left => Some (Piece.x piece - 1, Piece.y piece)
          | right => Some (Piece.x piece + 1, Piece.y piece)
          | down => Some (Piece.x piece, Piece.y piece + 1)
          | otherDirection => None
          end in
        match target with
        | None => Some (st, false)
        | Some (newX, newY) =>
            valid ← isValidPosition (boardOf player) piece newX newY;
            if (valid : bool) then
              Some (<[pid := Player.set_currentPiece
                               (Some (Piece.set_y newY (Piece.set_x newX piece)))
                               player]> st, true)
            else Some (st, false)
        end
  end.

Definition rotatePiece (st : Store) (pid : string) : option (Store * bool) :=
  player ← st !! pid;
  match Player.currentPiece player with
  | None => Some (st, false)
  | Some piece =>
      if negb (Player.isAlive player) then Some (st, false)
      else
        let rotated := Piece.rotate piece in
        valid ← isValidPosition (boardOf player) rotated
                  (Piece.x piece) (Piece.y piece);
        if (valid : bool) then
          Some (<[pid := Player.set_currentPiece (Some rotated) player]> st,
                true)
        else Some (st, false)
  end.

(** The [while] loop of [hardDrop]; running out of fuel stands for a loop
    that does not stop. *)
Fixpoint hardDropLoop (fuel : nat) (board : Board) (piece : Piece.t)
    : option Piece.t :=
  valid ← isValidPosition board piece (Piece.x piece) (Piece.y piece + 1);
  if (valid : bool) then
    match fuel with
    | O => None
    | S fuel' =>
        hardDropLoop fuel' board (Piece.set_y (Piece.y piece + 1) piece)
    end
  else Some piece.

(** [hardDrop]; the result carries [linesCleared] when [success] is true.
    A piece that can still move has a block above row [19], so
    [20 - y] iterations are enough. *)
Definition hardDrop (g : t) (st : Store) (pid : string)
    : option (t * Store * option nat) :=
  player ← st !! pid;
  match Player.currentPiece player with
  | None => Some (g, st, None)
  | Some piece =>
      if negb (Player.isAlive player) then Some (g, st, None)
      else
        dropped ← hardDropLoop (Z.to_nat (20 - Piece.y piece))
                    (boardOf player) piece;
        locked ← lockPiece (Player.set_currentPiece (Some dropped) player);
        '(cleared, linesCleared) ← clearLines locked;
        '(g', spawned) ← spawnNewPiece g cleared;
        Some (g', <[pid := spawned]> st, Some linesCleared)
  end.

Definition penaltyLine : list cell := replicate 10 (Tag KX).

(** The [push] loop followed by the [shift] loop. *)
Definition addPenaltyLines (board : Board) (penaltyLines : nat) : Board :=
  let pushed := board ++ replicate penaltyLines penaltyLine in
  drop (length pushed - 20) pushed.

(** The callback of [addPenaltyLinesToOthers]. *)
Definition penalize (clearingPlayer : string) (penaltyLines : nat)
    (s : t * Store) (pid : string) : option (t * Store) :=
  let '(g, st) := s in
  player ← st !! pid;
  if negb (bool_decide (pid = clearingPlayer)) && Player.isAlive player then
    board ← Player.board player;
    let player' :=
      Player.set_board (Some (addPenaltyLines board penaltyLines)) player in
    canSpawn ← canSpawnPiece player';
    if negb canSpawn then
      let st' := <[pid := Player.set_isAlive false player']> st in
      Some (checkGameEnd g st', st')
    else Some (g, <[pid := player']> st)
  else Some (g, st).

Definition addPenaltyLinesToOthers (g : t) (st : Store)
    (clearingPlayer : string) (penaltyLines : nat) : option (t * Store) :=
  forEach (penalize clearingPlayer penaltyLines) (players g) (g, st).

Definition start (sort : nat -> list tag -> list tag) (g : t) (st : Store)
    : option (t * Store) :=
  let g1 := generatePieceSequence sort (set_status playing g) in
  st' ← distributePieces g1 st;
  Some (set_gameTimer true g1, st').

(** The inner loop of [calculateSpectrum] over the rows [rows] of one
    column, with its [break]; [board[row]] of a missing row raises, and a
    missing cell is not [0]. *)
Fixpoint columnHeight (board : Board) (col : nat) (rows : list nat)
    : option nat :=
  match rows with
  | [] => Some 0%nat
  | row :: rest =>
      line ← board !! row;
      match line !! col with
      | Some Zero => columnHeight board col rest
      | _ => Some (20 - row)%nat
      end
  end.

Definition calculateSpectrum (board : Board) : option (list nat) :=
  mapM (fun col => columnHeight board col (seq 0 20)) (seq 0 10).

(** [this.players.map(player => player.toJSON())] *)
Definition getPlayersInfo (g : t) (st : Store) : option (list Player.Info.t) :=
  mapM (fun pid => Player.toJSON <$> st !! pid) (players g).

End Game.

(** ** The registry: class [GameManager] *)

(** What a command answers to the socket that sent it: nothing beyond the
    room-wide events, or [socket.emit('error', { message })]. *)
Inductive reply : Set := Done | Error (message : string).

Module GameManager.

(** A row of the [players] table of the database, as far as the registry
    reads it back: [socket_id] is declared [UNIQUE]. *)
Record row : Set := mkRow {
  socket_id : string;
  player_name : string;
  room_name : string;
  is_host : bool
}.

Record t : Type := mk {
  games : gmap string Game.t;
  players : Store;
  socketToRoom : gmap string string;
  dbPlayers : list row
}.

Definition empty : t :=
  {| games := ∅; players := ∅; socketToRoom := ∅; dbPlayers := [] |}.

Definition nameTaken : string := "Player name already taken in this room".
Definition inProgress : string := "Game is already in progress".
Definition joinFailed : string := "Failed to join game".
Definition gameNotFound : string := "Game not found".
Definition onlyHost : string := "Only the host can start the game".
Definition needOnePlayer : string := "Need at least 1 player to start".

(** [dbManager.getPlayersInRoom(roomName)] *)
Definition getPlayersInRoom (m : t) (roomName : string) : list row :=
  filter (fun r => room_name r = roomName) (dbPlayers m).

Definition joinGame (m : t) (socket roomName playerName : string)
    : t * reply :=
  let existingPlayers := getPlayersInRoom m roomName in
  if existsb (fun p => bool_decide (player_name p = playerName))
       existingPlayers
  then (m, Error nameTaken)
  else
    let game := default (Game.new roomName) (games m !! roomName) in
    let m1 := mk (<[roomName := game]> (games m)) (players m)
                 (socketToRoom m) (dbPlayers m) in
    match Game.status game with
    | playing => (m1, Error inProgress)
    | _ =>
        let isHost := bool_decide (length (Game.players game) = 0%nat) in
        let player := Player.new socket playerName roomName isHost in
        (* INSERT INTO players: a second row with the same socket_id
           violates the UNIQUE constraint; the rejection is caught. *)
        if existsb (fun r => bool_decide (socket_id r = socket)) (dbPlayers m)
        then (m1, Error joinFailed)
        else
          (mk (<[roomName := Game.addPlayer socket game]> (games m))
              (<[socket := player]> (players m))
              (<[socket := roomName]> (socketToRoom m))
              (dbPlayers m ++ [mkRow socket playerName roomName isHost]),
           Done)
    end.

Definition startGame (sort : nat -> list tag -> list tag) (m : t)
    (socket roomName : string) : option (t * reply) :=
  match games m !! roomName with
  | None => Some (m, Error gameNotFound)
  | Some game =>
      match players m !! socket with
      | None => Some (m, Error onlyHost)
      | Some player =>
          if negb (Player.isHost player) then Some (m, Error onlyHost)
          else if decide (length (Game.players game) < 1)%nat
          then Some (m, Error needOnePlayer)
          else
            '(game', st') ← Game.start sort game (players m);
            Some (mk (<[roomName := game']> (games m)) st'
                     (socketToRoom m) (dbPlayers m), Done)
      end
  end.

(** The guard shared by [movePiece], [rotatePiece] and [hardDrop]: the
    game of the socket's room, if it is playing and the socket has a
    player. *)
Definition playingGame (m : t) (socket : string)
    : option (string * Game.t) :=
  roomName ← socketToRoom m !! socket;
  game ← games m !! roomName;
  match Game.status game with
  | playing => _ ← players m !! socket; Some (roomName, game)
  | _ => None
  end.

Definition movePiece (m : t) (socket : string) (dir : direction)
    : option t :=
  match playingGame m socket with
  | None => Some m
  | Some (roomName, game) =>
      '(st', _) ← Game.movePiece (players m) socket dir;
      Some (mk (games m) st' (socketToRoom m) (dbPlayers m))
  end.

Definition rotatePiece (m : t) (socket : string) : option t :=
  match playingGame m socket with
  | None => Some m
  | Some (roomName, game) =>
      '(st', _) ← Game.rotatePiece (players m) socket;
      Some (mk (games m) st' (socketToRoom m) (dbPlayers m))
  end.

(** The body of [hardDrop] once the guard has passed: [game.hardDrop],
    then the penalty lines for the other players. *)
Definition dropAndPenalize (game : Game.t) (st : Store) (socket : string)
    : option (Game.t * Store) :=
  '(game1, st1, result) ← Game.hardDrop game st socket;
  match result with
  | None => Some (game, st)
  | Some linesCleared =>
      if decide (0 < linesCleared)%nat then
        Game.addPenaltyLinesToOthers game1 st1 socket (linesCleared - 1)
      else Some (game1, st1)
  end.

Definition hardDrop (m : t) (socket : string) : option t :=
  match playingGame m socket with
  | None => Some m
  | Some (roomName, game) =>
      '(game', st') ← dropAndPenalize game (players m) socket;
      Some (mk (<[roomName := game']> (games m)) st'
               (socketToRoom m) (dbPlayers m))
  end.

(** [newHost.isHost = true] on [game.players[0]] *)
Definition promoteFirst (game : Game.t) (st : Store) : Store :=
  match Game.players game with
  | [] => st
  | newHost :: _ => alter (Player.set_isHost true) newHost st
  end.

(** What [handleDisconnect] does to the game of the room and to the players
    once [id] has left: the game is dropped from the registry ([None]) when
    it is empty, ended when it was playing and one player is left, and given
    a new host when it was playing and the host has left. *)
Definition departure (game : Game.t) (st : Store) (id : string)
    (wasHost : bool) : option Game.t * Store :=
  let game1 := Game.removePlayer id game in
  if decide (length (Game.players game1) = 0)%nat then (None, st)
  else
    match Game.status game1 with
    | playing =>
        if decide (length (Game.players game1) = 1)%nat then
          (Some (Game.endGame game1), st)
        else if wasHost then (Some game1, promoteFirst game1 st)
        else (Some game1, st)
    | _ => (Some game1, st)
    end.

Definition handleDisconnect (m : t) (socket : string) : t :=
  match socketToRoom m !! socket, players m !! socket with
  | Some roomName, Some player =>
      if bool_decide (roomName = EmptyString) then m
      else
        let db' := filter (fun r => socket_id r ≠ socket) (dbPlayers m) in
        let '(games', st') :=
          match games m !! roomName with
          | None => (games m, players m)
          | Some game =>
              match departure game (players m) (Player.id player)
                      (Player.isHost player) with
              | (None, st') => (delete roomName (games m), st')
              | (Some game', st') => (<[roomName := game']> (games m), st')
              end
          end in
        mk games' (delete socket st') (delete socket (socketToRoom m)) db'
  | _, _ => m
  end.

End GameManager.

(** ** Runs of one game *)

(** What can happen to the game of a room once it exists: a firing of an
    interval (a restart leaves the old interval running, so one can fire in
    any phase), a command that the registry routes to the game when it is
    playing, a (re)start, a join that the registry accepts when the game is
    not playing and the socket is new, a departure. *)
Inductive command : Type :=
  | Tick
  | MovePiece (socket : string) (dir : direction)
  | RotatePiece (socket : string)
  | HardDrop (socket : string)
  | Start (sort : nat -> list tag -> list tag)
  | Join (socket name : string)
  | Leave (socket : string).

Definition exec (c : command) (s : Game.t * Store) : option (Game.t * Store) :=
  let '(g, st) := s in
  match c with
  | Tick => Game.tick g st
  | MovePiece socket dir =>
      match Game.status g with
      | playing => '(st', _) ← Game.movePiece st socket dir; Some (g, st')
      | _ => Some (g, st)
      end
  | RotatePiece socket =>
      match Game.status g with
      | playing => '(st', _) ← Game.rotatePiece st socket; Some (g, st')
      | _ => Some (g, st)
      end
  | HardDrop socket =>
      match Game.status g with
      | playing => GameManager.dropAndPenalize g st socket
      | _ => Some (g, st)
      end
  | Start sort => Game.start sort g st
  | Join socket name =>
      match Game.status g, st !! socket with
      | playing, _ | _, Some _ => Some (g, st)
      | _, None =>
          Some (Game.addPlayer socket g,
                <[socket := Player.new socket name (Game.roomName g)
                              (bool_decide (length (Game.players g) = 0%nat))]> st)
      end
  | Leave socket =>
      match st !! socket with
      | None => Some (g, st)
      | Some player =>
          let '(kept, st') :=
            GameManager.departure g st socket (Player.isHost player) in
          Some (default (Game.removePlayer socket g) kept, delete socket st')
      end
  end.

(** A command names a player of the game, as the registry's lookups ensure. *)
Definition addressed (c : command) (g : Game.t) : Prop :=
  match c with
  | MovePiece socket _ | RotatePiece socket | HardDrop socket | Leave socket =>
      socket ∈ Game.players g
  | _ => True
  end.

(** [runs s s'] : the game gets from [s] to [s'] by a sequence of commands. *)
Inductive runs (s : Game.t * Store) : Game.t * Store -> Prop :=
  | runs_nil : runs s s
  | runs_step c s1 s2 :
      runs s s1 -> addressed c s1.1 -> exec c s1 = Some s2 -> runs s s2.

(** [n] firings in a row of the interval's callback for one player. *)
Fixpoint gravitySteps (n : nat) (s : Game.t * Store) (pid : string)
    : option (Game.t * Store) :=
  match n with
  | O => Some s
  | S n' => s' ← Game.dropIfAlive s pid; gravitySteps n' s' pid
  end.

(** ** Runs of the registry *)

(** One firing of the interval of the game that the registry holds for a
    room. *)
Definition fire (m : GameManager.t) (roomName : string)
    : option GameManager.t :=
  match GameManager.games m !! roomName with
  | None => Some m
  | Some game =>
      '(game', st') ← Game.tick game (GameManager.players m);
      Some (GameManager.mk (<[roomName := game']> (GameManager.games m)) st'
              (GameManager.socketToRoom m) (GameManager.dbPlayers m))
  end.

(** What the server is asked to do: the socket events that [index.js] routes
    to the registry, with a payload of the expected form (strings for the
    room and the name, any value for the direction), and the firing of the
    interval of a game (at any time, as for [Tick]). *)
Inductive request : Type :=
  | JoinGame (socket roomName playerName : string)
  | StartGame (sort : nat -> list tag -> list tag) (socket roomName : string)
  | MovePieceOf (socket : string) (dir : direction)
  | RotatePieceOf (socket : string)
  | HardDropOf (socket : string)
  | Disconnect (socket : string)
  | Interval (roomName : string).

Definition handle (r : request) (m : GameManager.t) : option GameManager.t :=
  match r with
  | JoinGame socket roomName playerName =>
      Some (GameManager.joinGame m socket roomName playerName).1
  | StartGame sort socket roomName =>
      fst <$> GameManager.startGame sort m socket roomName
  | MovePieceOf socket dir => GameManager.movePiece m socket dir
  | RotatePieceOf socket => GameManager.rotatePiece m socket
  | HardDropOf socket => GameManager.hardDrop m socket
  | Disconnect socket => Some (GameManager.handleDisconnect m socket)
  | Interval roomName => fire m roomName
  end.

(** [serves m m'] : the registry gets from [m] to [m'] by serving a sequence
    of requests, each one to its end before the next: the interleavings that
    the [await]s of [joinGame], [startGame] and [handleDisconnect] allow are
    not part of the model. *)
Inductive serves (m : GameManager.t) : GameManager.t -> Prop :=
  | serves_nil : serves m m
  | serves_step r m1 m2 : serves m m1 -> handle r m1 = Some m2 -> serves m m2.

(** ** Well-formed boards, pieces and players *)

Definition boardOk (b : Board) : Prop :=
  length b = 20%nat ∧ Forall (fun line => length line = 10%nat) b.

Definition hasBlock (s : Shape) : bool :=
  existsb (fun c => truthy c.2) (Game.cells s).

(** The spawn shapes and their quarter turns. *)
Definition knownShapes : list Shape :=
  s ← Piece.getShape <$> Game.pieces;
  [s; Piece.rotateShape s; Piece.rotateShape (Piece.rotateShape s);
   Piece.rotateShape (Piece.rotateShape (Piece.rotateShape s))].

Definition pieceOk (piece : Piece.t) : Prop := Piece.shape piece ∈ knownShapes.

Record playerOk (player : Player.t) : Prop := {
  ok_board : ∃ b, Player.board player = Some b ∧ boardOk b;
  ok_current : ∃ c, Player.currentPiece player = Some c ∧ pieceOk c;
  ok_next : ∃ n, Player.nextPiece player = Some n ∧ pieceOk n;
  ok_score : Player.score player = (Player.linesCleared player * 100)%nat
}.

(** A player as the constructor leaves it: no board and no pieces yet. *)
Definition fresh (player : Player.t) : Prop :=
  Player.board player = None ∧ Player.currentPiece player = None
  ∧ Player.nextPiece player = None
  ∧ Player.score player = 0%nat ∧ Player.linesCleared player = 0%nat.

Definition seatOk (player : Player.t) : Prop := playerOk player ∨ fresh player.

(** Every reference of [ids] leads to a player that satisfies [Q]. *)
Definition allAt (Q : Player.t -> Prop) (ids : list string) (st : Store) : Prop :=
  ∀ pid, pid ∈ ids → ∃ player, st !! pid = Some player ∧ Q player.

Definition storeOk (ids : list string) (st : Store) : Prop := allAt playerOk ids st.

Definition seated (ids : list string) (st : Store) : Prop := allAt seatOk ids st.

(** The state of a room: no player is listed twice, every player is either
    in play or still as it joined, and all are in play while the game is
    playing. *)
Definition roomOk (s : Game.t * Store) : Prop :=
  NoDup (Game.players s.1)
  ∧ seated (Game.players s.1) s.2
  ∧ (Game.status s.1 = playing → storeOk (Game.players s.1) s.2).

(** The lines of the first [m] rows that [clearLines] will splice out. *)
Definition fullAbove (m : nat) (b : Board) : nat :=
  length (filter (fun line => Game.isLineFull line = true) (take m b)).

(** A player as [distributePieces] leaves it. *)
Definition dealt (player : Player.t) : Prop :=
  playerOk player
  ∧ Player.score player = 0%nat ∧ Player.linesCleared player = 0%nat
  ∧ Player.board player = Some Game.createEmptyBoard.



(** ** Cells, shapes and heights *)

(** [board[r][c]] *)
Definition cellAt (b : Board) (r c : Z) : option cell :=
  line ← b !! Z.to_nat r; line !! Z.to_nat c.

(** Whether the piece, where it is, has a block over the board cell (r, c). *)
Definition covers (piece : Piece.t) (r c : Z) : bool :=
  (Piece.y piece <=? r) && (Piece.x piece <=? c)
  && truthy (Piece.at_ (Piece.shape piece)
               (Z.to_nat (r - Piece.y piece)) (Z.to_nat (c - Piece.x piece))).

(** Whether the loop of [lockPiece] over the entries [cs] writes the board
    cell (r, c). *)
Definition writes (piece : Piece.t) (cs : list (nat * nat * nat)) (r c : Z)
    : bool :=
  existsb (fun e : nat * nat * nat =>
             truthy e.2
             && (Piece.y piece + Z.of_nat e.1.1 =? r)
             && (Piece.x piece + Z.of_nat e.1.2 =? c)) cs.

(** A shape of [n] rows of [n] entries. *)
Definition square (n : nat) (s : Shape) : Prop :=
  length s = n ∧ Forall (fun line => length line = n) s.

(** What [height] says about column [col] of the board: the rows above the
    top [height] ones are empty there, and the topmost of these holds a
    block. *)
Definition heightOf (b : Board) (col height : nat) : Prop :=
  (height ≤ 20)%nat
  ∧ (∀ row, (row < 20 - height)%nat →
       cellAt b (Z.of_nat row) (Z.of_nat col) = Some Zero)
  ∧ ((0 < height)%nat →
     ∃ t, cellAt b (Z.of_nat (20 - height)) (Z.of_nat col) = Some (Tag t)).

(** The number of blocks of a shape. *)
Definition blocks (s : Shape) : nat :=
  length (filter (fun c : nat * nat * nat => truthy c.2 = true) (Game.cells s)).

(** ** What a step of a game leaves alone *)

(** What no step of a game writes in a player: who the player is (the fields
    that the constructor takes and the [spectrum] field); and a dead player
    stays dead. *)
Definition sameSeat (p p' : Player.t) : Prop :=
  Player.id p' = Player.id p ∧ Player.name p' = Player.name p
  ∧ Player.roomName p' = Player.roomName p
  ∧ Player.isHost p' = Player.isHost p
  ∧ Player.spectrum p' = Player.spectrum p
  ∧ (Player.isAlive p = false → Player.isAlive p' = false).

(** From [st] to [st'] no player comes or goes, every player keeps its seat,
    and the players outside [ids] are left as they are. *)
Definition keepsSeats (ids : list string) (st st' : Store) : Prop :=
  ∀ pid,
    (pid ∉ ids → st' !! pid = st !! pid)
    ∧ match st !! pid with
      | Some p => ∃ p', st' !! pid = Some p' ∧ sameSeat p p'
      | None => st' !! pid = None
      end.

(** A step of the game of a room: the roster and the name stay. *)
Definition gameStep (s s' : Game.t * Store) : Prop :=
  Game.players s'.1 = Game.players s.1
  ∧ Game.roomName s'.1 = Game.roomName s.1
  ∧ keepsSeats (Game.players s.1) s.2 s'.2.

(** What the penalty lines of [clearingPlayer] leave alone from [st] to
    [st']: the sender, the dead, and in every player all but the board and
    the alive flag; no player comes or goes. *)
Definition sparing (clearingPlayer : string) (st st' : Store) : Prop :=
  st' !! clearingPlayer = st !! clearingPlayer
  ∧ ∀ q, match st !! q with
         | None => st' !! q = None
         | Some p =>
             ∃ p', st' !! q = Some p'
               ∧ (Player.isAlive p = false → p' = p)
               ∧ Player.set_isAlive (Player.isAlive p)
                   (Player.set_board (Player.board p) p') = p
         end.

(** ** The registry, well formed *)

(** The registry's maps, the rosters and the rows of the database agree:
    a player is stored under its own socket id and listed in the roster of
    the game of its room; the game of a room is well formed; every player
    has a row with its name and room, and every row a player; a host is the
    first of its roster; no two players of a room have the same name. *)
Record registryOk (m : GameManager.t) : Prop := {
  reg_player : ∀ s p, GameManager.players m !! s = Some p →
    Player.id p = s
    ∧ GameManager.socketToRoom m !! s = Some (Player.roomName p)
    ∧ Player.spectrum p = replicate 10 0%nat;
  reg_socket : ∀ s r, GameManager.socketToRoom m !! s = Some r →
    is_Some (GameManager.players m !! s)
    ∧ ∃ g, GameManager.games m !! r = Some g ∧ s ∈ Game.players g;
  reg_game : ∀ r g, GameManager.games m !! r = Some g →
    Game.roomName g = r ∧ roomOk (g, GameManager.players m)
    ∧ ∀ s, s ∈ Game.players g → GameManager.socketToRoom m !! s = Some r;
  reg_row : ∀ s p, GameManager.players m !! s = Some p →
    ∃ row, row ∈ GameManager.dbPlayers m ∧ GameManager.socket_id row = s
      ∧ GameManager.player_name row = Player.name p
      ∧ GameManager.room_name row = Player.roomName p;
  reg_row_player : ∀ row, row ∈ GameManager.dbPlayers m →
    ∃ p, GameManager.players m !! GameManager.socket_id row = Some p
      ∧ Player.name p = GameManager.player_name row
      ∧ Player.roomName p = GameManager.room_name row;
  reg_host : ∀ r g s p, GameManager.games m !! r = Some g →
    s ∈ Game.players g → GameManager.players m !! s = Some p →
    Player.isHost p = true → head (Game.players g) = Some s;
  reg_name : ∀ s1 s2 p1 p2,
    GameManager.players m !! s1 = Some p1 →
    GameManager.players m !! s2 = Some p2 →
    Player.roomName p1 = Player.roomName p2 →
    Player.name p1 = Player.name p2 → s1 = s2
}.




(** ** A two-player room *)

Module Scenario.

Import GameManager.

(** The run of [generatePieceSequence] in which every [sort] leaves the
    array as it was. *)
Definition identitySort (i : nat) (l : list tag) : list tag := l.

(** Sockets [A] and [B] join room [r1] as [alice] and [bob]. *)
Definition joined : GameManager.t :=
  (joinGame (joinGame empty "A" "r1" "alice").1 "B" "r1" "bob").1.

Definition started : option GameManager.t :=
  fst <$> startGame identitySort joined "A" "r1".

Definition hardDrops (sockets : list string) (m : option GameManager.t)
    : option GameManager.t :=
  foldl (fun m socket => m ≫= fun m => hardDrop m socket) m sockets.

Definition player (socket : string) (m : option GameManager.t)
    : option Player.t :=
  m ≫= fun m => players m !! socket.

Definition game (m : option GameManager.t) : option Game.t :=
  m ≫= fun m => games m !! "r1"%string.

Definition currentType (socket : string) (m : option GameManager.t)
    : option tag :=
  Piece.type <$> (player socket m ≫= Player.currentPiece).

(** The room and its players as [startGame] finds them. *)
Definition room : Game.t := default (Game.new "r1") (games joined !! "r1"%string).
Definition roster : Store := players joined.

(** The game once started, and after [A]'s first hard drop. *)
Definition dealtRoom : Game.t * Store :=
  default (room, roster) (Game.start identitySort room roster).
Definition afterDrop : Game.t * Store :=
  default dealtRoom (exec (HardDrop "A") dealtRoom).

(** [B] as the start leaves it. *)
Definition bob : Player.t :=
  default (Player.new "B" "bob" "r1" false) (dealtRoom.2 !! "B"%string).

(** A room whose sequence is used up but for its last kind, and a player
    about to get a new next piece. *)
Definition lateRoom : Game.t := Game.set_currentPieceIndex 69 (Game.new "r1").
Definition latePlayer : Player.t :=
  Player.set_nextPiece (Some (Piece.new KL)) (Player.new "A" "alice" "r1" true).

(** A position of the running game: the board and the falling piece of
    one player. *)
Definition placed (socket : string) (board : Board) (piece : Piece.t)
    (m : GameManager.t) : GameManager.t :=
  mk (games m)
     (alter (fun p => Player.set_currentPiece (Some piece)
                        (Player.set_board (Some board) p))
            socket (players m))
     (socketToRoom m) (dbPlayers m).

(** Rows 18 and 19 lack only columns 0 and 1; an O piece sits at (0, 18). *)
Definition twoLinesBoard : Board :=
  replicate 18 (replicate 10 Zero)
  ++ replicate 2 ([Zero; Zero] ++ replicate 8 (Tag KI)).

Definition beforeTwoLines : option GameManager.t :=
  placed "A" twoLinesBoard (Piece.set_y 18 (Piece.set_x 0 (Piece.new KO)))
    <$> started.

(** Columns 3 and 4 are filled from row 2 down; an O piece sits at the
    spawn position. *)
Definition towerBoard : Board :=
  replicate 2 (replicate 10 Zero)
  ++ replicate 18 ([Zero; Zero; Zero; Tag KI; Tag KI] ++ replicate 5 Zero).

Definition beforeTopOut : option GameManager.t :=
  placed "A" towerBoard (Piece.new KO) <$> started.

(** The gravity step of the interval for one player of room [r1]. *)
Definition gravity (socket : string) (m : option GameManager.t)
    : option GameManager.t :=
  m ≫= fun m =>
    g ← games m !! "r1"%string;
    '(g', st') ← Game.dropPiece g (players m) socket;
    Some (mk (<["r1"%string := g']> (games m)) st' (socketToRoom m)
             (dbPlayers m)).

Definition board (socket : string) (m : option GameManager.t)
    : option Board :=
  player socket m ≫= Player.board.

(** Whether the falling piece of a player is at a valid position. *)
Definition fits (socket : string) (m : option GameManager.t) : option bool :=
  player socket m ≫= fun p =>
    Player.currentPiece p ≫= fun piece =>
      Game.isValidPosition (Game.boardOf p) piece (Piece.x piece) (Piece.y piece).

Definition boardRow (socket : string) (row : nat)
    (m : option GameManager.t) : option (list cell) :=
  board socket m ≫= fun b => b !! row.

(** The registry once the game of [r1] is started, and after [A]'s first
    hard drop. *)
Definition startedRoom : GameManager.t := default joined started.
Definition played : GameManager.t :=
  default startedRoom (hardDrops ["A"] started).

(** [B] with two full rows at the bottom of its board. *)
Definition fullRowsBoard : Board :=
  replicate 18 (replicate 10 Zero) ++ replicate 2 (replicate 10 (Tag KI)).
Definition stacked : Player.t := Player.set_board (Some fullRowsBoard) bob.

(** [A]'s first hard drop, [A]'s first move to the left and one penalty
    line from [A], each in the game just started. *)
Definition dropped : Game.t * Store * option nat :=
  default (dealtRoom, None) (Game.hardDrop dealtRoom.1 dealtRoom.2 "A").
Definition penalized : Game.t * Store :=
  default dealtRoom (Game.addPenaltyLinesToOthers dealtRoom.1 dealtRoom.2 "A" 1).

(** [A] as the start leaves it, the game after one gravity step of [A],
    and the game of [r1] after [A]'s first hard drop. *)
Definition alice : Player.t :=
  default (Player.new "A" "alice" "r1" true) (dealtRoom.2 !! "A"%string).
Definition fallen : Game.t * Store :=
  default dealtRoom (Game.dropPiece dealtRoom.1 dealtRoom.2 "A").
Definition playedGame : Game.t := default room (games played !! "r1"%string).

End Scenario.

(** One step through a bind of the error monad. *)
Ltac bind_step := cbn [mbind option_bind].

(** * Properties *)

(** ** The cases of the repository's test suite for [Piece] *)

Example creates_pieces_correctly :
  Piece.new KI
  = Piece.mk KI 3 0 [[0; 0; 0; 0]; [1; 1; 1; 1]; [0; 0; 0; 0]; [0; 0; 0; 0]]%nat
  ∧ Piece.shape (Piece.new KO) = [[1; 1]; [1; 1]]%nat
  ∧ Piece.shape (Piece.new KT) = [[0; 1; 0]; [1; 1; 1]; [0; 0; 0]]%nat
  ∧ Piece.shape (Piece.new KS) = [[0; 1; 1]; [1; 1; 0]; [0; 0; 0]]%nat
  ∧ Piece.shape (Piece.new KZ) = [[1; 1; 0]; [0; 1; 1]; [0; 0; 0]]%nat
  ∧ Piece.shape (Piece.new KJ) = [[1; 0; 0]; [1; 1; 1]; [0; 0; 0]]%nat
  ∧ Piece.shape (Piece.new KL) = [[0; 0; 1]; [1; 1; 1]; [0; 0; 0]]%nat.
Proof. by split_and!. Qed.

Example handles_unknown_piece_type :
  Piece.new KX
  = Piece.mk KX 3 0 [[0; 0; 0; 0]; [1; 1; 1; 1]; [0; 0; 0; 0]; [0; 0; 0; 0]]%nat.
Proof. reflexivity. Qed.

Example rotates_I_piece_correctly :
  Piece.rotate (Piece.new KI)
  = Piece.mk KI 3 0 [[0; 0; 1; 0]; [0; 0; 1; 0]; [0; 0; 1; 0]; [0; 0; 1; 0]]%nat.
Proof. reflexivity. Qed.

Example rotates_O_piece_correctly :
  Piece.rotate (Piece.new KO) = Piece.mk KO 3 0 [[1; 1]; [1; 1]]%nat.
Proof. reflexivity. Qed.

Example rotates_T_piece_correctly :
  Piece.shape (Piece.rotate (Piece.new KT))
  = [[0; 1; 0]; [0; 1; 1]; [0; 1; 0]]%nat.
Proof. reflexivity. Qed.

(** ** The two-player room, evaluated *)

Section Evaluated.

Import Scenario.

(** C1. In one room the kinds two players receive differ with who consumes
    first: both start on [I]; after [A] has hard-dropped twice its third
    piece is [O]; when [B] then hard-drops twice its third piece is [S];
    had [B] gone first, its third piece would have been [O]. *)
Theorem piece_stream_depends_on_consumption :
  currentType "A" started = Some KI
  ∧ currentType "B" started = Some KI
  ∧ currentType "A" (hardDrops ["A"; "A"] started) = Some KO
  ∧ currentType "B" (hardDrops ["A"; "A"; "B"; "B"] started) = Some KS
  ∧ currentType "B" (hardDrops ["B"; "B"] started) = Some KO.
Proof. repeat split; vm_compute; reflexivity. Qed.

(** C2. [A] clears two lines with a hard drop, so [B] receives one penalty
    row; [B]'s next hard drop runs [clearLines], which removes that row as
    a full line and pays 100 points for it: no [X] is left on the board. *)
Theorem penalty_row_cleared_as_line :
  let penalized := hardDrops ["A"] beforeTwoLines in
  let after := hardDrops ["B"] penalized in
  boardRow "B" 19 penalized = Some Game.penaltyLine
  ∧ board "B" after
    = Some (replicate 19 (replicate 10 Zero)
            ++ [[Zero; Zero; Zero; Tag KI; Tag KI; Tag KI; Tag KI;
                 Zero; Zero; Zero]])
  ∧ Player.linesCleared <$> player "B" after = Some 1%nat
  ∧ Player.score <$> player "B" after = Some 100%nat.
Proof. repeat split; vm_compute; reflexivity. Qed.

(** C3, as stated, fails: the row injected into [B]'s board is ten [X]
    cells, not nine [X] cells and one empty cell. *)
Lemma penalty_row_has_no_gap :
  ∃ line,
    boardRow "B" 19 (hardDrops ["A"] beforeTwoLines) = Some line
    ∧ ¬ (length (filter (.= Tag KX) line) = 9%nat
         ∧ length (filter (.= Zero) line) = 1%nat).
Proof.
  exists Game.penaltyLine. split; [vm_compute; reflexivity|].
  vm_compute. intros [H _]. discriminate H.
Qed.

(** C4. [A]'s piece is at a valid position and cannot fall further. The
    gravity step locks it and clears two lines, and [B]'s board stays empty;
    the hard-drop path from the same position injects one penalty row into
    [B]'s board. *)
Theorem gravity_lock_sends_no_penalty :
  fits "A" beforeTwoLines = Some true
  ∧ Player.linesCleared <$> player "A" (gravity "A" beforeTwoLines)
    = Some 2%nat
  ∧ board "B" (gravity "A" beforeTwoLines) = Some Game.createEmptyBoard
  ∧ board "B" (hardDrops ["A"] beforeTwoLines)
    = Some (replicate 19 (replicate 10 Zero) ++ [Game.penaltyLine]).
Proof. repeat split; vm_compute; reflexivity. Qed.

(** C5. [A]'s piece is at a valid position. After [A]'s hard drop the new
    piece does not fit at (3, 0), yet [A] is still alive and the game still
    playing; the gravity step from the same position marks [A] dead and
    finishes the game. *)
Theorem hardDrop_skips_topout :
  let after := hardDrops ["A"] beforeTopOut in
  fits "A" beforeTopOut = Some true
  ∧ (player "A" after ≫= Game.canSpawnPiece) = Some false
  ∧ Player.isAlive <$> player "A" after = Some true
  ∧ Game.status <$> game after = Some playing
  ∧ Player.isAlive <$> player "A" (gravity "A" beforeTopOut) = Some false
  ∧ Game.status <$> game (gravity "A" beforeTopOut) = Some finished.
Proof. repeat split; vm_compute; reflexivity. Qed.

(** C6. The host [A] leaves the waiting room [r1]: [B] remains, and is
    not host. *)
Theorem host_leaves_waiting_room :
  let m := GameManager.handleDisconnect joined "A" in
  Player.isHost <$> GameManager.players joined !! "A" = Some true
  ∧ Game.status <$> GameManager.games joined !! "r1" = Some waiting
  ∧ Game.players <$> GameManager.games m !! "r1" = Some ["B"]
  ∧ Player.isHost <$> GameManager.players m !! "B" = Some false.
Proof. repeat split; vm_compute; reflexivity. Qed.


End Evaluated.

(** ** Boards keep their dimensions *)

Lemma createEmptyBoard_ok : boardOk Game.createEmptyBoard.
Proof.
  split; [reflexivity|]. unfold Game.createEmptyBoard.
  apply Forall_replicate. reflexivity.
Qed.

Lemma outOfBounds_false r c :
  Game.outOfBounds r c = false ↔ (0 ≤ r < 20 ∧ 0 ≤ c < 10).
Proof.
  unfold Game.outOfBounds. rewrite !orb_false_iff, !Z.ltb_ge, !Z.geb_leb, !Z.leb_gt.
  lia.
Qed.

Lemma boardOk_row b r :
  boardOk b → 0 ≤ r < 20 → ∃ line, b !! Z.to_nat r = Some line ∧ length line = 10%nat.
Proof.
  intros [Hlen Hall] Hr.
  destruct (lookup_lt_is_Some_2 b (Z.to_nat r)) as [line Hline]; [lia|].
  exists line. split; [done|].
  eapply (Forall_lookup_1 _ _ _ _ Hall Hline).
Qed.

Lemma boardOk_insert b i line :
  boardOk b → length line = 10%nat → boardOk (<[i := line]> b).
Proof.
  intros [Hlen Hall] Hline. split.
  - by rewrite length_insert.
  - by apply Forall_insert.
Qed.

Lemma lockCell_ok piece b c :
  boardOk b → ∃ b', Game.lockCell piece b c = Some b' ∧ boardOk b'.
Proof.
  intros Hb. destruct c as [[row col] v]. unfold Game.lockCell.
  destruct (truthy v); [|eauto].
  destruct (Game.outOfBounds _ _) eqn:Hout; [eauto|].
  apply outOfBounds_false in Hout as [Hr Hc].
  destruct (boardOk_row b _ Hb Hr) as (line & -> & Hline). simpl.
  rewrite decide_True by lia.
  eexists; split; [reflexivity|].
  apply boardOk_insert; [done|]. by rewrite length_insert.
Qed.

Lemma lockCells_ok piece cs : ∀ b,
  boardOk b → ∃ b', Game.lockCells piece b cs = Some b' ∧ boardOk b'.
Proof.
  induction cs as [|c cs IH]; intros b Hb; simpl; [eauto|].
  destruct (lockCell_ok piece b c Hb) as (b1 & -> & Hb1). simpl.
  by apply IH.
Qed.

Lemma isValidCells_total b x y cs :
  boardOk b → is_Some (Game.isValidCells b x y cs).
Proof.
  intros Hb. induction cs as [|[[row col] v] cs IH]; simpl; [eauto|].
  destruct (truthy v); [|done].
  destruct (Game.outOfBounds _ _) eqn:Hout; [eauto|].
  apply outOfBounds_false in Hout as [Hr Hc].
  destruct (boardOk_row b _ Hb Hr) as (line & -> & Hline). simpl.
  destruct (line !! _) as [[|]|]; eauto.
Qed.

Lemma isValidPosition_total b piece x y :
  boardOk b → is_Some (Game.isValidPosition b piece x y).
Proof. apply isValidCells_total. Qed.

Lemma fullAbove_S m b line :
  b !! m = Some line →
  fullAbove (S m) b
  = (fullAbove m b + if Game.isLineFull line then 1 else 0)%nat.
Proof.
  intros H. unfold fullAbove. rewrite (take_S_r _ _ _ H), list.filter_app, length_app.
  f_equal. rewrite list.filter_cons, list.filter_nil.
  destruct (Game.isLineFull line) eqn:E.
  - by rewrite decide_True.
  - by rewrite decide_False by congruence.
Qed.

Lemma fullAbove_spliced m b :
  (m < length b)%nat →
  fullAbove (S m) (replicate 10 Zero :: delete m b) = fullAbove m b.
Proof.
  intros Hm. unfold fullAbove. rewrite firstn_cons, list.filter_cons.
  rewrite decide_False by (vm_compute; congruence).
  f_equal. f_equal. rewrite delete_take_drop.
  rewrite take_app_le by (rewrite length_take; lia).
  rewrite take_take. f_equal. lia.
Qed.

Lemma boardOk_spliced m b :
  (m < length b)%nat → length b = 20%nat →
  Forall (fun line => length line = 10%nat) b →
  boardOk (replicate 10 Zero :: delete m b).
Proof.
  intros Hm Hlen Hall. split.
  - simpl. rewrite length_delete by (apply lookup_lt_is_Some_2; lia). lia.
  - constructor; [reflexivity|]. rewrite delete_take_drop.
    apply Forall_app. split; [by apply Forall_take | by apply Forall_drop].
Qed.

Lemma clearLinesLoop_S fuel b row n :
  Game.clearLinesLoop (S fuel) b row n
  = if row <? 0 then Some (b, n)
    else
      b !! Z.to_nat row ≫= fun line =>
        if Game.isLineFull line then
          Game.clearLinesLoop fuel (replicate 10 Zero :: delete (Z.to_nat row) b)
            (row + 1 - 1) (S n)
        else Game.clearLinesLoop fuel b (row - 1) n.
Proof. reflexivity. Qed.

Lemma clearLinesLoop_ok fuel : ∀ m b n,
  boardOk b → (m ≤ 20)%nat → (m + fullAbove m b < fuel)%nat →
  ∃ b' k, Game.clearLinesLoop fuel b (Z.of_nat m - 1) n = Some (b', (n + k)%nat)
          ∧ boardOk b'.
Proof.
  induction fuel as [|fuel IH]; intros m b n Hb Hm Hfuel; [lia|].
  rewrite clearLinesLoop_S. destruct m as [|m].
  - exists b, 0%nat. rewrite Nat.add_0_r. split; [reflexivity | done].
  - replace (Z.of_nat (S m) - 1 <? 0) with false by (symmetry; apply Z.ltb_ge; lia).
    replace (Z.to_nat (Z.of_nat (S m) - 1)) with m by lia.
    destruct Hb as [Hlen Hall].
    destruct (lookup_lt_is_Some_2 b m) as [line Hline]; [lia|].
    rewrite Hline. cbn [mbind option_bind].
    pose proof (fullAbove_S m b line Hline) as HS.
    destruct (Game.isLineFull line) eqn:Hfull.
    + replace (Z.of_nat (S m) - 1 + 1 - 1) with (Z.of_nat (S m) - 1) by lia.
      destruct (IH (S m) (replicate 10 Zero :: delete m b) (S n)) as (b' & k & Hrun & Hb').
      * apply boardOk_spliced; [lia | done | done].
      * done.
      * rewrite fullAbove_spliced by lia. lia.
      * exists b', (S k). rewrite Hrun. split; [f_equal; f_equal; lia | done].
    + replace (Z.of_nat (S m) - 1 - 1) with (Z.of_nat m - 1) by lia.
      destruct (IH m b n) as (b' & k & Hrun & Hb'); [done | lia | lia |].
      exists b', k. by rewrite Hrun.
Qed.

Lemma fullAbove_le m b : (fullAbove m b ≤ m)%nat.
Proof.
  unfold fullAbove. etrans; [apply list.length_filter|].
  rewrite length_take. lia.
Qed.

Lemma clearLinesLoop_total b :
  boardOk b →
  ∃ b' k, Game.clearLinesLoop (2 * length b + 1) b 19 0 = Some (b', k)
          ∧ boardOk b'.
Proof.
  intros Hb.
  destruct (clearLinesLoop_ok (2 * length b + 1) 20 b 0 Hb)
    as (b' & k & Hrun & Hb'); [lia | |].
  - pose proof (fullAbove_le 20 b). destruct Hb as [Hlen _]. lia.
  - exists b', k. split; [exact Hrun | done].
Qed.

Lemma addPenaltyLines_ok b n : boardOk b → boardOk (Game.addPenaltyLines b n).
Proof.
  intros [Hlen Hall]. unfold Game.addPenaltyLines. split.
  - rewrite length_drop, length_app, length_replicate. lia.
  - apply Forall_drop, Forall_app. split; [done|].
    apply Forall_replicate. reflexivity.
Qed.

(** ** Pieces keep a block *)

Lemma knownShapes_closed s :
  s ∈ knownShapes → Piece.rotateShape s ∈ knownShapes ∧ hasBlock s = true.
Proof.
  revert s.
  apply (proj1 (list.Forall_forall
           (fun s => Piece.rotateShape s ∈ knownShapes ∧ hasBlock s = true)
           knownShapes)).
  apply (bool_decide_unpack _). vm_compute. exact I.
Qed.

Lemma getShape_known k : Piece.getShape k ∈ knownShapes.
Proof. destruct k; apply (bool_decide_unpack _); vm_compute; exact I. Qed.

Lemma pieceOk_new k : pieceOk (Piece.new k).
Proof. apply getShape_known. Qed.

Lemma pieceOk_rotate piece : pieceOk piece → pieceOk (Piece.rotate piece).
Proof.
  unfold pieceOk, Piece.rotate. intros H.
  destruct (Piece.type piece); simpl; first [exact H | by apply knownShapes_closed].
Qed.

Lemma hasBlock_cell s :
  hasBlock s = true →
  ∃ row col v, (row, col, v) ∈ Game.cells s ∧ truthy v = true.
Proof.
  unfold hasBlock. rewrite existsb_exists. intros ([[row col] v] & Hin & Hv).
  exists row, col, v. split; [by apply list_elem_of_In | done].
Qed.

Lemma isValidCells_in_bounds b x y cs :
  Game.isValidCells b x y cs = Some true →
  ∀ row col v, (row, col, v) ∈ cs → truthy v = true →
    Game.outOfBounds (y + Z.of_nat row) (x + Z.of_nat col) = false.
Proof.
  induction cs as [|[[r c] w] cs IH]; intros Hvalid row col v Hin Hv.
  - by apply elem_of_nil in Hin.
  - simpl in Hvalid. apply elem_of_cons in Hin as [Heq | Hin].
    + injection Heq as -> -> ->. rewrite Hv in Hvalid.
      by destruct (Game.outOfBounds _ _).
    + refine (IH _ row col v Hin Hv).
      destruct (truthy w); [|done].
      destruct (Game.outOfBounds _ _); [done|].
      destruct (b !! _) as [line|]; [|done]. simpl in Hvalid.
      by destruct (line !! _) as [[|]|].
Qed.

Lemma hardDropLoop_unfold fuel b piece :
  Game.hardDropLoop fuel b piece
  = Game.isValidPosition b piece (Piece.x piece) (Piece.y piece + 1) ≫= fun valid : bool =>
      if valid then
        match fuel with
        | O => None
        | S fuel' =>
            Game.hardDropLoop fuel' b (Piece.set_y (Piece.y piece + 1) piece)
        end
      else Some piece.
Proof. destruct fuel; reflexivity. Qed.

(** The loop of [hardDrop] stops, on a piece that is the old one moved
    down and that cannot move further. *)
Lemma hardDropLoop_total fuel : ∀ b piece,
  boardOk b → pieceOk piece → 20 - Piece.y piece ≤ Z.of_nat fuel →
  ∃ dropped, Game.hardDropLoop fuel b piece = Some dropped
    ∧ Piece.shape dropped = Piece.shape piece
    ∧ Piece.type dropped = Piece.type piece
    ∧ Piece.x dropped = Piece.x piece
    ∧ Piece.y piece ≤ Piece.y dropped
    ∧ Game.isValidPosition b dropped (Piece.x dropped) (Piece.y dropped + 1)
      = Some false.
Proof.
  induction fuel as [|fuel IH]; intros b piece Hb Hp Hfuel;
    rewrite hardDropLoop_unfold;
    destruct (isValidPosition_total b piece (Piece.x piece) (Piece.y piece + 1) Hb)
      as [valid Hvalid];
    rewrite Hvalid; cbn [mbind option_bind];
    (destruct valid; [| exists piece; repeat split; [lia | done]]);
    destruct (hasBlock_cell _ (proj2 (knownShapes_closed _ Hp))) as (row & col & v & Hin & Hv);
    pose proof (isValidCells_in_bounds _ _ _ _ Hvalid row col v Hin Hv) as Hin_b;
    apply outOfBounds_false in Hin_b.
  - lia.
  - destruct (IH b (Piece.set_y (Piece.y piece + 1) piece) Hb Hp) as (d & Hrun & Hs & Ht & Hx & Hy & Hstop).
    + simpl. lia.
    + exists d. rewrite Hrun. simpl in *. repeat split; [done | done | done | lia | done].
Qed.

(** ** Players stay well formed *)

Lemma boardOf_ok player : playerOk player → boardOk (Game.boardOf player).
Proof. intros [(b & Hb & Hok) _ _ _]. unfold Game.boardOf. by rewrite Hb. Qed.

Lemma lockPiece_ok player :
  playerOk player →
  ∃ locked, Game.lockPiece player = Some locked ∧ playerOk locked.
Proof.
  intros [(b & Hb & Hbok) (c & Hc & Hcok) Hn Hs].
  unfold Game.lockPiece, Game.boardOf. rewrite Hc, Hb.
  cbn [mbind option_bind from_option id].
  destruct (lockCells_ok c (Game.cells (Piece.shape c)) b Hbok) as (b' & -> & Hb').
  cbn [mbind option_bind]. eexists; split; [reflexivity|].
  constructor; simpl; eauto.
Qed.

(** [clearLines] returns, and books [k] cleared lines as [k] lines and
    [100 * k] points. *)
Lemma clearLines_counts player b :
  Player.board player = Some b → boardOk b →
  ∃ cleared k b',
    Game.clearLines player = Some (cleared, k)
    ∧ Player.board cleared = Some b' ∧ boardOk b'
    ∧ Player.score cleared = (Player.score player + k * 100)%nat
    ∧ Player.linesCleared cleared = (Player.linesCleared player + k)%nat
    ∧ Player.currentPiece cleared = Player.currentPiece player
    ∧ Player.nextPiece cleared = Player.nextPiece player
    ∧ Player.isAlive cleared = Player.isAlive player.
Proof.
  intros Hb Hbok. unfold Game.clearLines. rewrite Hb. cbn [mbind option_bind].
  destruct (clearLinesLoop_total b Hbok) as (b' & k & -> & Hb').
  cbn [mbind option_bind]. destruct (decide (0 < k)%nat).
  - eexists _, k, b'. split; [reflexivity|]. simpl. by split_and!.
  - eexists _, k, b'. split; [reflexivity|]. simpl.
    assert (k = 0)%nat as -> by lia. split_and!; try done; simpl; lia.
Qed.

Lemma clearLines_ok player :
  playerOk player →
  ∃ cleared k, Game.clearLines player = Some (cleared, k) ∧ playerOk cleared.
Proof.
  intros [(b & Hb & Hbok) Hc Hn Hs].
  destruct (clearLines_counts player b Hb Hbok)
    as (cleared & k & b' & Hrun & Hb' & Hbok' & Hscore & Hlines & Hcur & Hnext & _).
  exists cleared, k. split; [done|].
  constructor; [eauto | by rewrite Hcur | by rewrite Hnext | lia].
Qed.

Lemma spawnNewPiece_ok g player :
  playerOk player →
  ∃ g' spawned, Game.spawnNewPiece g player = Some (g', spawned)
    ∧ playerOk spawned ∧ Game.players g' = Game.players g.
Proof.
  intros [Hb Hc (n & Hn & Hnok) Hs].
  unfold Game.spawnNewPiece. rewrite Hn. cbn [mbind option_bind].
  eexists _, _. split; [reflexivity|]. split; [|reflexivity].
  constructor; simpl; eauto using pieceOk_new.
Qed.

Lemma canSpawnPiece_total player :
  playerOk player → is_Some (Game.canSpawnPiece player).
Proof.
  intros Hok. pose proof (boardOf_ok _ Hok) as Hb.
  destruct Hok as [_ (c & Hc & _) _ _].
  unfold Game.canSpawnPiece. rewrite Hc. cbn [mbind option_bind].
  by apply isValidPosition_total.
Qed.

Lemma playerOk_set_isAlive v player :
  playerOk player → playerOk (Player.set_isAlive v player).
Proof. intros [? ? ? ?]. by constructor. Qed.

Lemma playerOk_set_currentPiece piece player :
  playerOk player → pieceOk piece →
  playerOk (Player.set_currentPiece (Some piece) player).
Proof. intros [? ? ? ?] ?. constructor; simpl; eauto. Qed.

Lemma playerOk_set_board b player :
  playerOk player → boardOk b → playerOk (Player.set_board (Some b) player).
Proof. intros [? ? ? ?] ?. constructor; simpl; eauto. Qed.

Lemma allAt_insert Q ids st pid player :
  allAt Q ids st → Q player → allAt Q ids (<[pid := player]> st).
Proof.
  intros Hst Hp q Hq. destruct (decide (pid = q)) as [->|Hne].
  - exists player. by rewrite lookup_insert_eq.
  - rewrite lookup_insert_ne by done. by apply Hst.
Qed.

Lemma allAt_mono (Q Q' : Player.t → Prop) ids st :
  (∀ player, Q player → Q' player) → allAt Q ids st → allAt Q' ids st.
Proof.
  intros HQ Hst pid Hin. destruct (Hst pid Hin) as (player & Hp & Hplayer).
  exists player. eauto.
Qed.

Lemma allAt_subset Q ids ids' st :
  (∀ pid, pid ∈ ids' → pid ∈ ids) → allAt Q ids st → allAt Q ids' st.
Proof. intros Hsub Hst pid Hin. by apply Hst, Hsub. Qed.

Lemma allAt_delete Q ids st pid :
  pid ∉ ids → allAt Q ids st → allAt Q ids (delete pid st).
Proof.
  intros Hnot Hst q Hq. destruct (Hst q Hq) as (player & Hp & Hplayer).
  exists player. split; [|done].
  rewrite lookup_delete_ne; [done|]. by intros ->.
Qed.

Lemma allAt_alter Q (f : Player.t → Player.t) ids st pid :
  (∀ player, Q player → Q (f player)) → allAt Q ids st →
  allAt Q ids (alter f pid st).
Proof.
  intros Hf Hst q Hq. destruct (Hst q Hq) as (player & Hp & Hplayer).
  destruct (decide (pid = q)) as [->|Hne].
  - exists (f player). rewrite lookup_alter_eq, Hp. split; [done | by apply Hf].
  - exists player. by rewrite lookup_alter_ne.
Qed.

Lemma storeOk_insert ids st pid player :
  storeOk ids st → playerOk player → storeOk ids (<[pid := player]> st).
Proof. apply allAt_insert. Qed.

Lemma storeOk_seated ids st : storeOk ids st → seated ids st.
Proof. apply allAt_mono. by left. Qed.

Lemma checkGameEnd_players g st :
  Game.players (Game.checkGameEnd g st) = Game.players g.
Proof. unfold Game.checkGameEnd. by destruct (decide _). Qed.

(** A [forEach] whose body keeps an invariant runs to its end and keeps it. *)
Lemma forEach_invariant {S : Type} (P : S → Prop) (f : S → string → option S)
    (l : list string) :
  (∀ s a, P s → a ∈ l → ∃ s', f s a = Some s' ∧ P s') →
  ∀ s, P s → ∃ s', forEach f l s = Some s' ∧ P s'.
Proof.
  induction l as [|a l IH]; intros Hf s Hs; simpl; [eauto|].
  destruct (Hf s a Hs) as (s1 & -> & Hs1); [apply elem_of_cons; by left|].
  cbn [mbind option_bind]. apply IH; [|done].
  intros s2 b Hs2 Hb. apply Hf; [done | apply elem_of_cons; by right].
Qed.

(** ** Every command runs to its end on well-formed players *)

Lemma checkGameEnd_status g st :
  Game.status (Game.checkGameEnd g st) = Game.status g
  ∨ Game.status (Game.checkGameEnd g st) = finished.
Proof. unfold Game.checkGameEnd. destruct (decide _); [by right | by left]. Qed.

Lemma spawnNewPiece_status g player g' spawned :
  Game.spawnNewPiece g player = Some (g', spawned) →
  Game.status g' = Game.status g.
Proof.
  unfold Game.spawnNewPiece. intros H.
  destruct (Player.nextPiece player); [|discriminate].
  cbn [mbind option_bind] in H. by injection H as <- <-.
Qed.

(** The gravity step for a player in play: only that player changes, and
    the game can at most finish. *)
Lemma dropPiece_local g st pid player :
  st !! pid = Some player → playerOk player →
  ∃ g' player',
    Game.dropPiece g st pid = Some (g', <[pid := player']> st)
    ∧ playerOk player' ∧ Game.players g' = Game.players g
    ∧ (Game.status g' = Game.status g ∨ Game.status g' = finished).
Proof.
  intros Hp Hok. unfold Game.dropPiece. rewrite Hp. bind_step.
  pose proof (boardOf_ok _ Hok) as Hb.
  destruct (ok_current _ Hok) as (c & Hc & Hcok). rewrite Hc.
  destruct (isValidPosition_total _ c (Piece.x c) (Piece.y c + 1) Hb) as [valid ->].
  bind_step. destruct valid.
  - eexists _, _. split; [reflexivity|].
    split_and!; [by apply playerOk_set_currentPiece | done | by left].
  - destruct (lockPiece_ok _ Hok) as (locked & -> & Hlocked). bind_step.
    destruct (clearLines_ok _ Hlocked) as (cleared & k & -> & Hcleared). bind_step.
    destruct (spawnNewPiece_ok g _ Hcleared)
      as (g' & spawned & Hspawn & Hspawned & Hg').
    pose proof (spawnNewPiece_status _ _ _ _ Hspawn) as Hstatus.
    rewrite Hspawn. bind_step.
    destruct (canSpawnPiece_total _ Hspawned) as [canSpawn ->]. bind_step.
    destruct canSpawn; cbn [negb]; eexists _, _; (split; [reflexivity|]).
    + by split_and!; [| |left].
    + split_and!; [by apply playerOk_set_isAlive | by rewrite checkGameEnd_players |].
      rewrite <- Hstatus. apply checkGameEnd_status.
Qed.

(** The gravity step for a player that has no piece yet does nothing. *)
Lemma dropPiece_idle g st pid player :
  st !! pid = Some player → Player.currentPiece player = None →
  Game.dropPiece g st pid = Some (g, st).
Proof. intros Hp Hc. unfold Game.dropPiece. by rewrite Hp; bind_step; rewrite Hc. Qed.

Lemma tick_roomOk g st :
  roomOk (g, st) → ∃ s', Game.tick g st = Some s' ∧ roomOk s'.
Proof.
  intros (Hnd & Hseated & Hplaying). simpl in *. unfold Game.tick.
  destruct (forEach_invariant
              (fun s : Game.t * Store =>
                 Game.players s.1 = Game.players g
                 ∧ seated (Game.players g) s.2
                 ∧ (Game.status s.1 = playing → storeOk (Game.players g) s.2))
              Game.dropIfAlive (Game.players g)) with (s := (g, st))
    as ([g' st'] & Hrun & Hg' & Hseated' & Hplaying').
  - intros [g1 st1] pid (Hg1 & Hs1 & Hp1) Hin. simpl in Hg1, Hs1, Hp1.
    unfold Game.dropIfAlive.
    destruct (Hs1 pid Hin) as (player & Hp & Hplayer). rewrite Hp. bind_step.
    destruct (Player.isAlive player); [|exists (g1, st1); by split].
    destruct Hplayer as [Hok | (_ & Hnone & _)].
    + destruct (dropPiece_local g1 st1 pid player Hp Hok)
        as (g2 & player' & -> & Hok' & Hg2 & Hstatus).
      eexists. split; [reflexivity|]. simpl. split_and!.
      * congruence.
      * apply allAt_insert; [done | by left].
      * intros Hplay. apply storeOk_insert; [|done]. apply Hp1.
        destruct Hstatus; congruence.
    + rewrite (dropPiece_idle g1 st1 pid player Hp Hnone).
      exists (g1, st1). by split.
  - by split.
  - exists (g', st'). split; [done|]. simpl in *.
    unfold roomOk. simpl. rewrite Hg'. by split_and!.
Qed.

Lemma movePiece_ok ids st pid dir :
  storeOk ids st → pid ∈ ids →
  ∃ st' success, Game.movePiece st pid dir = Some (st', success)
    ∧ storeOk ids st'.
Proof.
  intros Hst Hin. destruct (Hst pid Hin) as (player & Hp & Hok).
  unfold Game.movePiece. rewrite Hp. bind_step.
  pose proof (boardOf_ok _ Hok) as Hb.
  destruct (ok_current _ Hok) as (c & Hc & Hcok). rewrite Hc.
  destruct (negb (Player.isAlive player)); [eauto|].
  destruct dir; try (by eauto).
  all: match goal with
       | |- context [Game.isValidPosition ?b ?p ?x ?y] =>
           destruct (isValidPosition_total b p x y Hb) as [valid ->]
       end; bind_step; destruct valid; eauto.
  all: eexists _, _; split; [reflexivity|];
       apply storeOk_insert; [done|]; by apply playerOk_set_currentPiece.
Qed.

Lemma rotatePiece_ok ids st pid :
  storeOk ids st → pid ∈ ids →
  ∃ st' success, Game.rotatePiece st pid = Some (st', success)
    ∧ storeOk ids st'.
Proof.
  intros Hst Hin. destruct (Hst pid Hin) as (player & Hp & Hok).
  unfold Game.rotatePiece. rewrite Hp. bind_step.
  pose proof (boardOf_ok _ Hok) as Hb.
  destruct (ok_current _ Hok) as (c & Hc & Hcok). rewrite Hc.
  destruct (negb (Player.isAlive player)); [eauto|].
  destruct (isValidPosition_total _ (Piece.rotate c) (Piece.x c) (Piece.y c) Hb)
    as [valid ->].
  bind_step. destruct valid; [|eauto].
  eexists _, _. split; [reflexivity|].
  apply storeOk_insert; [done|].
  apply playerOk_set_currentPiece; [done | by apply pieceOk_rotate].
Qed.

Lemma hardDrop_ok ids g st pid :
  storeOk ids st → pid ∈ ids →
  ∃ g' st' result, Game.hardDrop g st pid = Some (g', st', result)
    ∧ storeOk ids st' ∧ Game.players g' = Game.players g.
Proof.
  intros Hst Hin. destruct (Hst pid Hin) as (player & Hp & Hok).
  unfold Game.hardDrop. rewrite Hp. bind_step.
  pose proof (boardOf_ok _ Hok) as Hb.
  destruct (ok_current _ Hok) as (c & Hc & Hcok). rewrite Hc.
  destruct (negb (Player.isAlive player)); [by eauto 6|].
  destruct (hardDropLoop_total (Z.to_nat (20 - Piece.y c)) _ c Hb Hcok)
    as (dropped & -> & Hshape & _); [lia|]. bind_step.
  assert (playerOk (Player.set_currentPiece (Some dropped) player)) as Hdropped.
  { apply playerOk_set_currentPiece; [done|]. unfold pieceOk. by rewrite Hshape. }
  destruct (lockPiece_ok _ Hdropped) as (locked & -> & Hlocked). bind_step.
  destruct (clearLines_ok _ Hlocked) as (cleared & k & -> & Hcleared). bind_step.
  destruct (spawnNewPiece_ok g _ Hcleared) as (g' & spawned & -> & Hspawned & Hg').
  bind_step. eexists _, _, _. split; [reflexivity|].
  split; [by apply storeOk_insert | done].
Qed.

Lemma addPenaltyLinesToOthers_ok g st clearingPlayer penaltyLines :
  storeOk (Game.players g) st →
  ∃ g' st',
    Game.addPenaltyLinesToOthers g st clearingPlayer penaltyLines = Some (g', st')
    ∧ storeOk (Game.players g) st' ∧ Game.players g' = Game.players g.
Proof.
  intros Hst. unfold Game.addPenaltyLinesToOthers.
  destruct (forEach_invariant
              (fun s : Game.t * Store =>
                 storeOk (Game.players g) s.2 ∧ Game.players s.1 = Game.players g)
              (Game.penalize clearingPlayer penaltyLines) (Game.players g))
    with (s := (g, st)) as ([g' st'] & Hrun & Hst' & Hg').
  - intros [g1 st1] pid [Hst1 Hg1] Hin. simpl in Hst1, Hg1.
    unfold Game.penalize.
    destruct (Hst1 pid Hin) as (player & Hp & Hok). rewrite Hp. bind_step.
    destruct (negb _ && _); [|exists (g1, st1); by split].
    destruct (ok_board _ Hok) as (b & Hb & Hbok). rewrite Hb. bind_step.
    assert (playerOk (Player.set_board
                        (Some (Game.addPenaltyLines b penaltyLines)) player))
      as Hpen by (apply playerOk_set_board; [done | by apply addPenaltyLines_ok]).
    destruct (canSpawnPiece_total _ Hpen) as [canSpawn ->]. bind_step.
    destruct canSpawn; cbn [negb]; eexists (_, _); (split; [reflexivity|]).
    + split; [by apply storeOk_insert | done].
    + split; [apply storeOk_insert; [done | by apply playerOk_set_isAlive]|].
      simpl. by rewrite checkGameEnd_players.
  - by split.
  - exists g', st'. by split.
Qed.

Lemma dropAndPenalize_ok g st pid :
  storeOk (Game.players g) st → pid ∈ Game.players g →
  ∃ g' st', GameManager.dropAndPenalize g st pid = Some (g', st')
    ∧ storeOk (Game.players g') st' ∧ Game.players g' = Game.players g.
Proof.
  intros Hst Hin. unfold GameManager.dropAndPenalize.
  destruct (hardDrop_ok _ g st pid Hst Hin) as (g1 & st1 & result & -> & Hst1 & Hg1).
  bind_step. destruct result as [k|]; [|by eauto].
  destruct (decide (0 < k)%nat).
  - rewrite <- Hg1 in Hst1.
    destruct (addPenaltyLinesToOthers_ok g1 st1 pid (k - 1) Hst1)
      as (g2 & st2 & -> & Hst2 & Hg2).
    exists g2, st2. split; [done|]. rewrite Hg2. split; [done | congruence].
  - exists g1, st1. rewrite Hg1. by split.
Qed.

Lemma dealt_deal g player : dealt (Game.deal g player).
Proof.
  split; [|by split_and!]. constructor; simpl; eauto using pieceOk_new.
  exists Game.createEmptyBoard. split; [done | apply createEmptyBoard_ok].
Qed.

Lemma distributePieces_dealt g ids : ∀ st st',
  forEach (Game.dealTo g) ids st = Some st' →
  (∀ pid player, st !! pid = Some player → dealt player →
     ∃ player', st' !! pid = Some player' ∧ dealt player')
  ∧ (∀ pid, pid ∈ ids → ∃ player, st' !! pid = Some player ∧ dealt player).
Proof.
  induction ids as [|a ids IH]; intros st st' Hrun; simpl in Hrun.
  - injection Hrun as <-. split; [by eauto|]. intros pid Hin.
    by apply elem_of_nil in Hin.
  - destruct (Game.dealTo g st a) as [st1|] eqn:Hdeal;
      cbn [mbind option_bind] in Hrun; [|discriminate].
    unfold Game.dealTo in Hdeal.
    destruct (st !! a) as [pa|] eqn:Ha; cbn [mbind option_bind] in Hdeal;
      [|discriminate].
    injection Hdeal as <-.
    destruct (IH _ _ Hrun) as [Hkeep Hids]. split.
    + intros pid player Hp Hd. destruct (decide (a = pid)) as [->|Hne].
      * apply (Hkeep pid (Game.deal g pa)); [apply lookup_insert_eq | apply dealt_deal].
      * apply (Hkeep pid player); [by rewrite lookup_insert_ne | done].
    + intros pid Hin. apply elem_of_cons in Hin as [->|Hin]; [|by apply Hids].
      apply (Hkeep a (Game.deal g pa)); [apply lookup_insert_eq | apply dealt_deal].
Qed.

Lemma distributePieces_total g ids : ∀ st,
  (∀ pid, pid ∈ ids → is_Some (st !! pid)) →
  is_Some (forEach (Game.dealTo g) ids st).
Proof.
  induction ids as [|a ids IH]; intros st Hst; simpl; [eauto|].
  destruct (Hst a) as [pa Ha]; [apply elem_of_cons; by left|].
  assert (Game.dealTo g st a = Some (<[a := Game.deal g pa]> st)) as ->
    by (unfold Game.dealTo; by rewrite Ha).
  cbn [mbind option_bind]. apply IH. intros pid Hin.
  destruct (decide (a = pid)) as [->|Hne].
  - rewrite lookup_insert_eq. eauto.
  - rewrite lookup_insert_ne by done. apply Hst, elem_of_cons. by right.
Qed.

Lemma start_dealt sort g st s :
  Game.start sort g st = Some s →
  Game.players s.1 = Game.players g
  ∧ ∀ pid, pid ∈ Game.players g → ∃ player, s.2 !! pid = Some player ∧ dealt player.
Proof.
  unfold Game.start, Game.distributePieces. intros Hrun.
  destruct (forEach _ _ _) as [st'|] eqn:Hdeal; cbn [mbind option_bind] in Hrun;
    [|discriminate].
  injection Hrun as <-.
  split; [reflexivity|]. by apply (distributePieces_dealt _ _ _ _ Hdeal).
Qed.

Lemma start_storeOk sort g st s :
  Game.start sort g st = Some s → storeOk (Game.players s.1) s.2.
Proof.
  intros Hrun. destruct (start_dealt _ _ _ _ Hrun) as [-> Hd].
  intros pid Hin. destruct (Hd pid Hin) as (player & Hp & Hok & _). eauto.
Qed.

Lemma start_total sort g st :
  (∀ pid, pid ∈ Game.players g → is_Some (st !! pid)) →
  is_Some (Game.start sort g st).
Proof.
  intros Hst. unfold Game.start, Game.distributePieces.
  destruct (distributePieces_total (Game.generatePieceSequence sort
              (Game.set_status playing g)) (Game.players g) st Hst) as [st' Hrun].
  cbn [Game.players Game.generatePieceSequence Game.set_pieceSequence
       Game.set_status] in *.
  rewrite Hrun. by eexists.
Qed.

Lemma removeFirst_subset pid q l : q ∈ Game.removeFirst pid l → q ∈ l.
Proof.
  induction l as [|a l IH]; simpl; [done|].
  destruct (decide (a = pid)); rewrite !elem_of_cons; tauto.
Qed.

Lemma removeFirst_NoDup pid l : NoDup l → NoDup (Game.removeFirst pid l).
Proof.
  induction l as [|a l IH]; simpl; [done|].
  rewrite list.NoDup_cons. intros [Hnot Hnd].
  destruct (decide (a = pid)); [done|].
  apply list.NoDup_cons. split; [|by apply IH].
  intros Hin. by apply Hnot, (removeFirst_subset pid).
Qed.

Lemma removeFirst_gone pid l : NoDup l → pid ∉ Game.removeFirst pid l.
Proof.
  induction l as [|a l IH]; simpl; [intros _; apply not_elem_of_nil|].
  rewrite list.NoDup_cons. intros [Hnot Hnd].
  destruct (decide (a = pid)) as [->|Hne]; [done|].
  apply not_elem_of_cons. split; [by apply not_eq_sym | by apply IH].
Qed.

Lemma playerOk_set_isHost v player :
  playerOk player → playerOk (Player.set_isHost v player).
Proof. intros [? ? ? ?]. by constructor. Qed.

Lemma seatOk_set_isHost v player :
  seatOk player → seatOk (Player.set_isHost v player).
Proof.
  intros [Hok | Hfresh]; [left; by apply playerOk_set_isHost | by right].
Qed.

Lemma roomOk_in_play g st :
  NoDup (Game.players g) → storeOk (Game.players g) st → roomOk (g, st).
Proof. intros Hnd Hok. split_and!; [done | by apply storeOk_seated | done]. Qed.

(** What a departure leaves: the roster without the leaver, a game that has
    at most finished, and players changed at most in their host flag. *)
Lemma departure_spec game st id wasHost :
  ∃ game' st',
    GameManager.departure game st id wasHost = (game', st')
    ∧ Game.players (default (Game.removePlayer id game) game')
      = Game.removeFirst id (Game.players game)
    ∧ (Game.status (default (Game.removePlayer id game) game') = Game.status game
       ∨ Game.status (default (Game.removePlayer id game) game') = finished)
    ∧ (st' = st ∨ ∃ newHost, st' = alter (Player.set_isHost true) newHost st).
Proof.
  unfold GameManager.departure.
  destruct (decide _); [by eexists _, _; split_and!; [| |left|left]|].
  cbn [Game.status Game.removePlayer Game.set_players].
  destruct (Game.status game) eqn:Hstatus;
    [by eexists _, _; split_and!; [| |left|left] | |
     by eexists _, _; split_and!; [| |left|left]].
  destruct (decide _); [by eexists _, _; split_and!; [| |right|left]|].
  destruct wasHost; [|by eexists _, _; split_and!; [| |left|left]].
  eexists _, _. split_and!; [done | done | by left |].
  unfold GameManager.promoteFirst.
  destruct (Game.players _) as [|newHost ?]; [by left | right; by eexists].
Qed.

Lemma fresh_new id name roomName isHost :
  fresh (Player.new id name roomName isHost).
Proof. by split_and!. Qed.

(** A new socket joins a room that is not playing. *)
Lemma join_roomOk g st socket player :
  roomOk (g, st) → Game.status g ≠ playing → st !! socket = None →
  fresh player →
  roomOk (Game.addPlayer socket g, <[socket := player]> st).
Proof.
  intros (Hnd & Hseated & _) Hstatus Hnone Hfresh. simpl in Hnd, Hseated.
  assert (socket ∉ Game.players g) as Hnew.
  { intros Hin. destruct (Hseated socket Hin) as (? & ? & _). congruence. }
  unfold roomOk. simpl. split_and!.
  - apply list.NoDup_app. split_and!; [done | | apply NoDup_singleton].
    intros q Hq Hq'. apply list_elem_of_singleton in Hq' as ->. by apply Hnew.
  - intros q Hq. apply elem_of_app in Hq as [Hq | Hq].
    + destruct (Hseated q Hq) as (old & Hold & Hok). exists old. split; [|done].
      rewrite lookup_insert_ne; [done | by intros ->].
    + apply list_elem_of_singleton in Hq as ->. exists player.
      split; [apply lookup_insert_eq | by right].
  - done.
Qed.

(** From a well-formed room every addressed command runs to its end and
    leaves the room well formed. *)
Lemma exec_roomOk c g st :
  roomOk (g, st) → addressed c g → ∃ s', exec c (g, st) = Some s' ∧ roomOk s'.
Proof.
  intros Hroom Hc. pose proof Hroom as (Hnd & Hseated & Hplaying).
  simpl in Hnd, Hseated, Hplaying.
  destruct c as [|pid dir|pid|pid|sort|pid name|pid]; simpl in Hc |- *.
  - by apply tick_roomOk.
  - destruct (Game.status g) eqn:Hstatus; [by eauto | | by eauto].
    destruct (movePiece_ok _ st pid dir (Hplaying eq_refl) Hc)
      as (st' & ok & -> & Hst').
    exists (g, st'). split; [done|]. by apply roomOk_in_play.
  - destruct (Game.status g) eqn:Hstatus; [by eauto | | by eauto].
    destruct (rotatePiece_ok _ st pid (Hplaying eq_refl) Hc)
      as (st' & ok & -> & Hst').
    exists (g, st'). split; [done|]. by apply roomOk_in_play.
  - destruct (Game.status g) eqn:Hstatus; [by eauto | | by eauto].
    destruct (dropAndPenalize_ok g st pid (Hplaying eq_refl) Hc)
      as (g' & st' & -> & Hst' & Hg').
    exists (g', st'). split; [done|]. apply roomOk_in_play; [|done].
    simpl. by rewrite Hg'.
  - destruct (start_total sort g st) as [s' Hrun].
    + intros q Hin. destruct (Hseated q Hin) as (player & -> & _). eauto.
    + exists s'. split; [done|]. destruct s' as [g' st'].
      apply roomOk_in_play; [|exact (start_storeOk sort g st (g', st') Hrun)].
      destruct (start_dealt _ _ _ _ Hrun) as [Hg' _]. simpl in Hg'. by rewrite Hg'.
  - destruct (Game.status g) eqn:Hstatus;
      destruct (st !! pid) as [old|] eqn:Hold; try (by eauto);
      (eexists; split; [reflexivity|]);
      (apply join_roomOk; [done | congruence | done | apply fresh_new]).
  - destruct (st !! pid) as [player|] eqn:Hp; [|by eauto].
    destruct (departure_spec g st pid (Player.isHost player))
      as (g' & st' & -> & Hroster & Hstatus & Hstore).
    eexists. split; [reflexivity|].
    assert (∀ Q, (∀ p, Q p → Q (Player.set_isHost true p)) →
              allAt Q (Game.players g) st →
              allAt Q (Game.removeFirst pid (Game.players g)) (delete pid st'))
      as Hkeep.
    { intros Q HQ Hall. apply allAt_delete; [by apply removeFirst_gone|].
      apply (allAt_subset Q (Game.players g));
        [intros q Hq; by apply (removeFirst_subset pid)|].
      destruct Hstore as [-> | [newHost ->]]; [done | by apply allAt_alter]. }
    unfold roomOk. simpl. rewrite Hroster. split_and!.
    + by apply removeFirst_NoDup.
    + apply Hkeep; [apply seatOk_set_isHost | done].
    + intros Hplay. apply Hkeep; [apply playerOk_set_isHost|].
      apply Hplaying. destruct Hstatus; congruence.
Qed.

Lemma runs_roomOk s0 s : roomOk s0 → runs s0 s → roomOk s.
Proof.
  intros H0 Hruns. induction Hruns as [|c [g1 st1] s2 _ IH Hc Hexec]; [done|].
  destruct (exec_roomOk c g1 st1 IH Hc) as (s' & Hs' & Hok).
  rewrite Hexec in Hs'. by injection Hs' as <-.
Qed.

Lemma start_roomOk sort g st s :
  NoDup (Game.players g) → Game.start sort g st = Some s → roomOk s.
Proof.
  intros Hnd Hrun. destruct s as [g' st'].
  apply roomOk_in_play; [|exact (start_storeOk sort g st (g', st') Hrun)].
  destruct (start_dealt _ _ _ _ Hrun) as [Hg' _]. simpl in Hg'. by rewrite Hg'.
Qed.

Lemma lockPiece_keeps_score player locked :
  Game.lockPiece player = Some locked →
  Player.score locked = Player.score player
  ∧ Player.linesCleared locked = Player.linesCleared player.
Proof.
  unfold Game.lockPiece. intros H.
  destruct (Player.currentPiece player) as [c|]; [|discriminate].
  cbn [mbind option_bind] in H.
  destruct (Game.lockCells _ _ _) as [b'|]; [|discriminate].
  cbn [mbind option_bind] in H.
  destruct (Player.board player); by injection H as <-.
Qed.

(** ** The two-player room, started *)

Lemma start_dealtRoom :
  Game.start Scenario.identitySort Scenario.room Scenario.roster
  = Some Scenario.dealtRoom.
Proof. vm_compute. reflexivity. Qed.

(** ** Invariants of a running game *)

(** C8. The start of a game gives every player the empty board of 20 rows
    of 10 cells.  From then on, whatever happens to the room (gravity steps,
    moves, rotations, hard drops with their penalty injection, restarts,
    joins, departures): every player of the room is in the store; a board
    that a player has is of exactly 20 rows of exactly 10 cells, and so is it
    after a lock-in of the player's piece, after the line clear that
    follows, and after any number of penalty lines; while the game is
    playing every player has a board (a player that joins a finished game
    has none until the next start); and every further command runs to its
    end. *)
Theorem board_dimensions_constant sort g0 st0 s0 s :
  NoDup (Game.players g0) → Game.start sort g0 st0 = Some s0 → runs s0 s →
  (∀ pid, pid ∈ Game.players s0.1 →
     ∃ player, s0.2 !! pid = Some player
       ∧ Player.board player = Some Game.createEmptyBoard
       ∧ boardOk Game.createEmptyBoard)
  ∧ (∀ pid, pid ∈ Game.players s.1 →
       ∃ player, s.2 !! pid = Some player
         ∧ ∀ b, Player.board player = Some b →
             length b = 20%nat ∧ Forall (fun line => length line = 10%nat) b
             ∧ (∃ locked bl cleared k bc,
                  Game.lockPiece player = Some locked
                  ∧ Player.board locked = Some bl ∧ boardOk bl
                  ∧ Game.clearLines locked = Some (cleared, k)
                  ∧ Player.board cleared = Some bc ∧ boardOk bc)
             ∧ (∀ penaltyLines, boardOk (Game.addPenaltyLines b penaltyLines)))
  ∧ (Game.status s.1 = playing →
     ∀ pid, pid ∈ Game.players s.1 →
       ∃ player b, s.2 !! pid = Some player ∧ Player.board player = Some b)
  ∧ (∀ c, addressed c s.1 → is_Some (exec c s)).
Proof.
  intros Hnd Hstart Hruns.
  pose proof (runs_roomOk s0 s (start_roomOk _ _ _ _ Hnd Hstart) Hruns) as Hroom.
  pose proof Hroom as (_ & Hseated & Hplaying).
  split_and!.
  - destruct (start_dealt _ _ _ _ Hstart) as [Hg Hdealt].
    intros pid Hin. rewrite Hg in Hin.
    destruct (Hdealt pid Hin) as (player & Hp & _ & _ & _ & Hb).
    exists player. split_and!; [done | done | apply createEmptyBoard_ok].
  - intros pid Hin. destruct (Hseated pid Hin) as (player & Hp & Hplayer).
    exists player. split; [done|]. intros b Hb.
    destruct Hplayer as [Hok | (Hnone & _)]; [|congruence].
    destruct (ok_board _ Hok) as (b0 & Hb0 & Hbok).
    assert (b0 = b) as -> by congruence.
    split_and!; [apply Hbok | apply Hbok | |].
    + destruct (lockPiece_ok _ Hok) as (locked & Hlock & Hlocked).
      destruct (ok_board _ Hlocked) as (bl & Hbl & Hblok).
      destruct (clearLines_counts locked bl Hbl Hblok)
        as (cleared & k & bc & Hclear & Hbc & Hbcok & _).
      by exists locked, bl, cleared, k, bc.
    + intros n. by apply addPenaltyLines_ok.
  - intros Hplay pid Hin. destruct (Hplaying Hplay pid Hin) as (player & Hp & Hok).
    destruct (ok_board _ Hok) as (b & Hb & _). by exists player, b.
  - intros c Hc. destruct s as [g st].
    destruct (exec_roomOk c g st Hroom Hc) as (s' & -> & _). by eexists.
Qed.

(** C8 at the two-player room, after [A]'s first hard drop. *)
Lemma board_dimensions_after_hard_drop :
  (∀ pid, pid ∈ Game.players Scenario.dealtRoom.1 →
     ∃ player, Scenario.dealtRoom.2 !! pid = Some player
       ∧ Player.board player = Some Game.createEmptyBoard
       ∧ boardOk Game.createEmptyBoard)
  ∧ (∀ pid, pid ∈ Game.players Scenario.afterDrop.1 →
       ∃ player, Scenario.afterDrop.2 !! pid = Some player
         ∧ ∀ b, Player.board player = Some b →
             length b = 20%nat ∧ Forall (fun line => length line = 10%nat) b
             ∧ (∃ locked bl cleared k bc,
                  Game.lockPiece player = Some locked
                  ∧ Player.board locked = Some bl ∧ boardOk bl
                  ∧ Game.clearLines locked = Some (cleared, k)
                  ∧ Player.board cleared = Some bc ∧ boardOk bc)
             ∧ (∀ penaltyLines, boardOk (Game.addPenaltyLines b penaltyLines)))
  ∧ (Game.status Scenario.afterDrop.1 = playing →
     ∀ pid, pid ∈ Game.players Scenario.afterDrop.1 →
       ∃ player b,
         Scenario.afterDrop.2 !! pid = Some player ∧ Player.board player = Some b)
  ∧ (∀ c, addressed c Scenario.afterDrop.1 → is_Some (exec c Scenario.afterDrop)).
Proof.
  apply (board_dimensions_constant Scenario.identitySort Scenario.room
           Scenario.roster Scenario.dealtRoom Scenario.afterDrop).
  - apply (bool_decide_unpack _). vm_compute. exact I.
  - vm_compute. reflexivity.
  - apply (runs_step _ (HardDrop "A") Scenario.dealtRoom); [apply runs_nil | |].
    + change ("A" ∈ Game.players Scenario.dealtRoom.1).
      apply (bool_decide_unpack _). vm_compute. exact I.
    + vm_compute. reflexivity.
Defined.

(** C9. [distributePieces] sets every player's score and line count to 0.
    From then on, whatever happens to the room, every player's score is 100
    times its line count, and whenever a player's piece is locked in, the
    line clear that follows returns a count [k] and adds [k] to the line
    count and [100 * k] to the score; while the game is playing every
    player has a piece to lock in. *)
Theorem score_is_100_times_lines sort g0 st0 s0 s :
  NoDup (Game.players g0) → Game.start sort g0 st0 = Some s0 → runs s0 s →
  (∀ pid, pid ∈ Game.players s0.1 →
     ∃ player, s0.2 !! pid = Some player
       ∧ Player.score player = 0%nat ∧ Player.linesCleared player = 0%nat)
  ∧ (∀ pid, pid ∈ Game.players s.1 →
       ∃ player, s.2 !! pid = Some player
         ∧ Player.score player = (Player.linesCleared player * 100)%nat
         ∧ ∀ locked, Game.lockPiece player = Some locked →
             ∃ cleared k,
               Game.clearLines locked = Some (cleared, k)
               ∧ Player.linesCleared cleared
                 = (Player.linesCleared player + k)%nat
               ∧ Player.score cleared = (Player.score player + k * 100)%nat)
  ∧ (Game.status s.1 = playing →
     ∀ pid, pid ∈ Game.players s.1 →
       ∃ player locked,
         s.2 !! pid = Some player ∧ Game.lockPiece player = Some locked).
Proof.
  intros Hnd Hstart Hruns.
  pose proof (runs_roomOk s0 s (start_roomOk _ _ _ _ Hnd Hstart) Hruns)
    as (_ & Hseated & Hplaying).
  split_and!.
  - destruct (start_dealt _ _ _ _ Hstart) as [Hg Hdealt].
    intros pid Hin. rewrite Hg in Hin.
    destruct (Hdealt pid Hin) as (player & Hp & _ & Hscore & Hlines & _).
    by exists player.
  - intros pid Hin. destruct (Hseated pid Hin) as (player & Hp & Hplayer).
    exists player. split; [done|].
    destruct Hplayer as [Hok | (_ & Hnone & _ & Hscore & Hlines)].
    + split; [apply (ok_score _ Hok)|]. intros locked Hlock.
      destruct (lockPiece_ok _ Hok) as (locked' & Hlock' & Hlocked).
      assert (locked' = locked) as -> by congruence.
      destruct (lockPiece_keeps_score _ _ Hlock) as [Hs Hl].
      destruct (ok_board _ Hlocked) as (b & Hb & Hbok).
      destruct (clearLines_counts locked b Hb Hbok)
        as (cleared & k & b' & Hclear & _ & _ & Hscore & Hlines & _).
      exists cleared, k. rewrite <- Hs, <- Hl. by split_and!.
    + split; [by rewrite Hscore, Hlines|]. intros locked.
      unfold Game.lockPiece. by rewrite Hnone.
  - intros Hplay pid Hin. destruct (Hplaying Hplay pid Hin) as (player & Hp & Hok).
    destruct (lockPiece_ok _ Hok) as (locked & Hlock & _). by exists player, locked.
Qed.

(** C9 at the two-player room, after [A]'s first hard drop. *)
Lemma score_after_hard_drop :
  (∀ pid, pid ∈ Game.players Scenario.dealtRoom.1 →
     ∃ player, Scenario.dealtRoom.2 !! pid = Some player
       ∧ Player.score player = 0%nat ∧ Player.linesCleared player = 0%nat)
  ∧ (∀ pid, pid ∈ Game.players Scenario.afterDrop.1 →
       ∃ player, Scenario.afterDrop.2 !! pid = Some player
         ∧ Player.score player = (Player.linesCleared player * 100)%nat
         ∧ ∀ locked, Game.lockPiece player = Some locked →
             ∃ cleared k,
               Game.clearLines locked = Some (cleared, k)
               ∧ Player.linesCleared cleared
                 = (Player.linesCleared player + k)%nat
               ∧ Player.score cleared = (Player.score player + k * 100)%nat)
  ∧ (Game.status Scenario.afterDrop.1 = playing →
     ∀ pid, pid ∈ Game.players Scenario.afterDrop.1 →
       ∃ player locked,
         Scenario.afterDrop.2 !! pid = Some player
         ∧ Game.lockPiece player = Some locked).
Proof.
  apply (score_is_100_times_lines Scenario.identitySort Scenario.room
           Scenario.roster Scenario.dealtRoom Scenario.afterDrop).
  - apply (bool_decide_unpack _). vm_compute. exact I.
  - vm_compute. reflexivity.
  - apply (runs_step _ (HardDrop "A") Scenario.dealtRoom); [apply runs_nil | |].
    + change ("A" ∈ Game.players Scenario.dealtRoom.1).
      apply (bool_decide_unpack _). vm_compute. exact I.
    + vm_compute. reflexivity.
Defined.

(** ** Pieces past the end of the sequence *)

Lemma generatePieceSequence_length (sort : nat -> list tag -> list tag)
    (l : list nat) :
  (∀ i, length (sort i Game.pieces) = 7%nat) →
  ∀ acc : list tag,
    length (foldl (fun acc i => acc ++ sort i Game.pieces) acc l)
    = (length acc + length l * 7)%nat.
Proof.
  intros Hsort. induction l as [|i l IH]; intros acc; simpl; [lia|].
  rewrite IH, length_app, Hsort. lia.
Qed.

(** C10. A piece made with a kind that is not one of the seven letters keeps
    that kind and has the shape of [I]; the generated sequence holds 70
    kinds, so a piece spawned with the index at 70 or beyond has the kind
    [undefined] and the shape of [I]. *)
Theorem piece_outside_kinds_has_I_shape (k : tag)
    (sort : nat -> list tag -> list tag) (g : Game.t) (player : Player.t)
    (piece : Piece.t) :
  k ∉ Game.pieces →
  (∀ i, sort i Game.pieces ≡ₚ Game.pieces) →
  Player.nextPiece player = Some piece →
  (69 ≤ Game.currentPieceIndex g)%nat →
  Piece.new k
  = Piece.mk k 3 0 [[0; 0; 0; 0]; [1; 1; 1; 1]; [0; 0; 0; 0]; [0; 0; 0; 0]]%nat
  ∧ length (Game.pieceSequence (Game.generatePieceSequence sort g)) = 70%nat
  ∧ ∃ g' spawned,
      Game.spawnNewPiece (Game.generatePieceSequence sort g) player
      = Some (g', spawned)
      ∧ Player.nextPiece spawned
        = Some (Piece.mk Kundefined 3 0
                  [[0; 0; 0; 0]; [1; 1; 1; 1]; [0; 0; 0; 0]; [0; 0; 0; 0]]%nat).
Proof.
  intros Hk Hsort Hnext Hindex.
  assert (length (Game.pieceSequence (Game.generatePieceSequence sort g)) = 70%nat)
    as Hlen.
  { unfold Game.generatePieceSequence. cbn [Game.pieceSequence Game.set_pieceSequence].
    rewrite generatePieceSequence_length; [reflexivity|].
    intros i. by rewrite (Permutation_length (Hsort i)). }
  split; [|split; [exact Hlen|]].
  - destruct k; first [reflexivity | exfalso; apply Hk].
    all: apply (bool_decide_unpack _); vm_compute; exact I.
  - unfold Game.spawnNewPiece. rewrite Hnext. cbn [mbind option_bind].
    eexists _, _. split; [reflexivity|].
    cbn [Player.nextPiece Player.set_nextPiece]. f_equal.
    unfold Game.pieceAt.
    cbn [Game.pieceSequence Game.currentPieceIndex Game.set_currentPieceIndex].
    rewrite lookup_ge_None_2; [reflexivity|].
    change (Game.currentPieceIndex (Game.generatePieceSequence sort g))
      with (Game.currentPieceIndex g).
    lia.
Qed.

(** C10 at the kind [X], in a room whose index stands at 69. *)
Lemma penalty_tag_has_I_shape :
  Piece.new KX
  = Piece.mk KX 3 0 [[0; 0; 0; 0]; [1; 1; 1; 1]; [0; 0; 0; 0]; [0; 0; 0; 0]]%nat
  ∧ length (Game.pieceSequence
              (Game.generatePieceSequence Scenario.identitySort Scenario.lateRoom))
    = 70%nat
  ∧ ∃ g' spawned,
      Game.spawnNewPiece
        (Game.generatePieceSequence Scenario.identitySort Scenario.lateRoom)
        Scenario.latePlayer
      = Some (g', spawned)
      ∧ Player.nextPiece spawned
        = Some (Piece.mk Kundefined 3 0
                  [[0; 0; 0; 0]; [1; 1; 1; 1]; [0; 0; 0; 0]; [0; 0; 0; 0]]%nat).
Proof.
  apply (piece_outside_kinds_has_I_shape KX Scenario.identitySort
           Scenario.lateRoom Scenario.latePlayer (Piece.new KL)).
  - apply (bool_decide_unpack _). vm_compute. exact I.
  - intros i. reflexivity.
  - reflexivity.
  - simpl. lia.
Defined.

(** ** Starting a game *)



(** ** Penalty lines *)

Lemma addPenaltyLines_bottom b n :
  length b = 20%nat → (n ≤ 20)%nat →
  Game.addPenaltyLines b n = drop n b ++ replicate n (replicate 10 (Tag KX)).
Proof.
  intros Hlen Hn. unfold Game.addPenaltyLines, Game.penaltyLine.
  rewrite length_app, length_replicate, Hlen.
  replace (20 + n - 20)%nat with n by lia.
  apply drop_app_le. lia.
Qed.

Lemma penalize_other clearingPlayer n g st q g' st' pid :
  q ≠ pid → Game.penalize clearingPlayer n (g, st) q = Some (g', st') →
  st' !! pid = st !! pid.
Proof.
  intros Hne. unfold Game.penalize.
  destruct (st !! q) as [player|]; [|discriminate]. cbn [mbind option_bind].
  destruct (negb _ && _); [|by intros [= <- <-]].
  destruct (Player.board player) as [b|]; [|discriminate].
  cbn [mbind option_bind].
  destruct (Game.canSpawnPiece _) as [[|]|]; [| |discriminate];
    cbn [mbind option_bind negb]; intros [= <- <-]; by rewrite lookup_insert_ne.
Qed.

Lemma penalize_target clearingPlayer n g st pid player b g' st' :
  pid ≠ clearingPlayer → st !! pid = Some player →
  Player.isAlive player = true → Player.board player = Some b →
  Game.penalize clearingPlayer n (g, st) pid = Some (g', st') →
  ∃ player', st' !! pid = Some player'
    ∧ Player.board player' = Some (Game.addPenaltyLines b n).
Proof.
  intros Hne Hp Halive Hb. unfold Game.penalize.
  rewrite Hp. cbn [mbind option_bind].
  rewrite bool_decide_eq_false_2 by done. rewrite Halive. cbn [negb andb].
  rewrite Hb. cbn [mbind option_bind].
  destruct (Game.canSpawnPiece _) as [[|]|]; [| |discriminate];
    cbn [mbind option_bind negb]; intros [= <- <-];
    eexists; (split; [apply lookup_insert_eq | reflexivity]).
Qed.

Lemma forEach_cons {S : Type} (f : S → string → option S) a l s :
  forEach f (a :: l) s = f s a ≫= forEach f l.
Proof. reflexivity. Qed.

Lemma penalize_all clearingPlayer n pid player b ids : ∀ s s',
  forEach (Game.penalize clearingPlayer n) ids s = Some s' →
  NoDup ids → pid ∈ ids → pid ≠ clearingPlayer →
  s.2 !! pid = Some player →
  Player.isAlive player = true → Player.board player = Some b →
  ∃ player', s'.2 !! pid = Some player'
    ∧ Player.board player' = Some (Game.addPenaltyLines b n).
Proof.
  assert (∀ ids s s', pid ∉ ids →
            forEach (Game.penalize clearingPlayer n) ids s = Some s' →
            s'.2 !! pid = s.2 !! pid) as Hskip.
  { clear. induction ids as [|a ids IH]; intros [g st] s' Hnot Hrun.
    - simpl in Hrun. by injection Hrun as <-.
    - rewrite forEach_cons in Hrun.
      apply not_elem_of_cons in Hnot as [Hne Hnot].
      destruct (Game.penalize _ _ _ a) as [[g1 st1]|] eqn:Hstep;
        cbn [mbind option_bind] in Hrun; [|discriminate].
      rewrite (IH _ _ Hnot Hrun). simpl.
      by apply (penalize_other _ _ _ _ _ _ _ _ (not_eq_sym Hne) Hstep). }
  induction ids as [|a ids IH]; intros [g st] s' Hrun Hnd Hin Hne Hp Halive Hb.
  - by apply elem_of_nil in Hin.
  - rewrite forEach_cons in Hrun. simpl in Hp.
    apply list.NoDup_cons in Hnd as [Hnot Hnd].
    destruct (Game.penalize _ _ _ a) as [[g1 st1]|] eqn:Hstep;
      cbn [mbind option_bind] in Hrun; [|discriminate].
    destruct (decide (a = pid)) as [->|Hap].
    + destruct (penalize_target _ _ _ _ _ _ _ _ _ Hne Hp Halive Hb Hstep)
        as (player' & Hp' & Hb').
      exists player'. split; [|done].
      by rewrite (Hskip _ _ _ Hnot Hrun).
    + apply elem_of_cons in Hin as [->|Hin]; [done|].
      apply (IH (g1, st1) s' Hrun Hnd Hin Hne); [|done|done]. simpl.
      by rewrite (penalize_other _ _ _ _ _ _ _ _ Hap Hstep).
Qed.

(** C3, amended. [addPenaltyLinesToOthers] runs to its end, and the board of
    every other living player becomes its old rows without the top
    [penaltyLines] ones, followed by [penaltyLines] rows of ten [X] cells. *)
Theorem penalty_rows_are_ten_X g st clearingPlayer penaltyLines pid player b :
  storeOk (Game.players g) st → NoDup (Game.players g) →
  pid ∈ Game.players g → pid ≠ clearingPlayer →
  st !! pid = Some player → Player.isAlive player = true →
  Player.board player = Some b → (penaltyLines ≤ 20)%nat →
  ∃ g' st' player',
    Game.addPenaltyLinesToOthers g st clearingPlayer penaltyLines = Some (g', st')
    ∧ st' !! pid = Some player'
    ∧ Player.board player'
      = Some (drop penaltyLines b
              ++ replicate penaltyLines (replicate 10 (Tag KX))).
Proof.
  intros Hok Hnd Hin Hne Hp Halive Hb Hn.
  destruct (addPenaltyLinesToOthers_ok g st clearingPlayer penaltyLines Hok)
    as (g' & st' & Hrun & _).
  destruct (penalize_all clearingPlayer penaltyLines pid player b
              (Game.players g) (g, st) (g', st') Hrun Hnd Hin Hne Hp Halive Hb)
    as (player' & Hp' & Hb').
  exists g', st', player'. split; [done|]. split; [done|].
  rewrite Hb'. f_equal. apply addPenaltyLines_bottom; [|done].
  destruct (Hok pid Hin) as (player0 & Hp0 & Hplayer0).
  rewrite Hp in Hp0. injection Hp0 as <-.
  destruct (ok_board _ Hplayer0) as (b0 & Hb0 & Hlen & _). congruence.
Qed.

(** C3, amended, at the started two-player room: one penalty line from
    [A] lands on [B]'s empty board. *)
Lemma penalty_row_for_bob :
  ∃ g' st' player',
    Game.addPenaltyLinesToOthers Scenario.dealtRoom.1 Scenario.dealtRoom.2 "A" 1
    = Some (g', st')
    ∧ st' !! "B" = Some player'
    ∧ Player.board player'
      = Some (drop 1 Game.createEmptyBoard ++ replicate 1 (replicate 10 (Tag KX))).
Proof.
  apply (penalty_rows_are_ten_X Scenario.dealtRoom.1 Scenario.dealtRoom.2
           "A" 1 "B" Scenario.bob Game.createEmptyBoard).
  - apply (start_storeOk _ _ _ _ start_dealtRoom).
  - apply (bool_decide_unpack _). vm_compute. exact I.
  - apply (bool_decide_unpack _). vm_compute. exact I.
  - discriminate.
  - vm_compute. reflexivity.
  - vm_compute. reflexivity.
  - vm_compute. reflexivity.
  - lia.
Defined.

(** ** The evaluated cases, in general *)

(** X21. The gravity step writes to the player it is run for and to no
    other: no board but the player's own changes, whatever the number of
    lines cleared. *)
Lemma dropPiece_writes_one_player g st pid g' st' q :
  Game.dropPiece g st pid = Some (g', st') → q ≠ pid → st' !! q = st !! q.
Proof.
  unfold Game.dropPiece. intros Hrun Hq.
  destruct (st !! pid) as [player|]; [|discriminate].
  cbn [mbind option_bind] in Hrun.
  destruct (Player.currentPiece player) as [c|]; [|by injection Hrun as <- <-].
  destruct (Game.isValidPosition _ _ _ _) as [[|]|]; [| |discriminate];
    cbn [mbind option_bind] in Hrun.
  { injection Hrun as <- <-. by rewrite lookup_insert_ne. }
  destruct (Game.lockPiece player) as [locked|]; [|discriminate].
  cbn [mbind option_bind] in Hrun.
  destruct (Game.clearLines locked) as [[cleared k]|]; [|discriminate].
  cbn [mbind option_bind] in Hrun.
  destruct (Game.spawnNewPiece g cleared) as [[g1 spawned]|]; [|discriminate].
  cbn [mbind option_bind] in Hrun.
  destruct (Game.canSpawnPiece spawned) as [[|]|]; [| |discriminate];
    cbn [mbind option_bind negb] in Hrun; injection Hrun as <- <-;
    by rewrite lookup_insert_ne.
Qed.

Lemma lockPiece_keeps_alive player locked :
  Game.lockPiece player = Some locked →
  Player.isAlive locked = Player.isAlive player
  ∧ Player.nextPiece locked = Player.nextPiece player.
Proof.
  unfold Game.lockPiece. intros H.
  destruct (Player.currentPiece player) as [c|]; [|discriminate].
  cbn [mbind option_bind] in H.
  destruct (Game.lockCells _ _ _) as [b'|]; [|discriminate].
  cbn [mbind option_bind] in H.
  destruct (Player.board player); by injection H as <-.
Qed.

Lemma clearLines_keeps_alive player cleared k :
  Game.clearLines player = Some (cleared, k) →
  Player.isAlive cleared = Player.isAlive player.
Proof.
  unfold Game.clearLines. intros H.
  destruct (Player.board player) as [b|]; [|discriminate].
  cbn [mbind option_bind] in H.
  destruct (Game.clearLinesLoop _ _ _ _) as [[b' n]|]; [|discriminate].
  cbn [mbind option_bind] in H.
  destruct (decide (0 < n)%nat); by injection H as <- <-.
Qed.

(** X22. A hard drop never marks its player dead and never ends the game,
    whether or not the new piece fits. *)
Lemma hardDrop_keeps_alive_and_status g st pid g' st' result :
  Game.hardDrop g st pid = Some (g', st', result) →
  Game.status g' = Game.status g
  ∧ Player.isAlive <$> st' !! pid = Player.isAlive <$> st !! pid.
Proof.
  unfold Game.hardDrop. intros Hrun.
  destruct (st !! pid) as [player|] eqn:Hp; [|discriminate].
  cbn [mbind option_bind] in Hrun.
  destruct (Player.currentPiece player) as [c|];
    [|injection Hrun as <- <- <-; by rewrite Hp].
  destruct (negb (Player.isAlive player));
    [injection Hrun as <- <- <-; by rewrite Hp|].
  destruct (Game.hardDropLoop _ _ _) as [dropped|]; [|discriminate].
  cbn [mbind option_bind] in Hrun.
  destruct (Game.lockPiece _) as [locked|] eqn:Hlock; [|discriminate].
  cbn [mbind option_bind] in Hrun.
  destruct (Game.clearLines locked) as [[cleared k]|] eqn:Hclear; [|discriminate].
  cbn [mbind option_bind] in Hrun.
  unfold Game.spawnNewPiece in Hrun.
  destruct (Player.nextPiece cleared) as [n|]; [|discriminate].
  cbn [mbind option_bind] in Hrun. injection Hrun as <- <- <-.
  split; [reflexivity|]. rewrite lookup_insert_eq. cbn.
  rewrite (clearLines_keeps_alive _ _ _ Hclear).
  by rewrite (proj1 (lockPiece_keeps_alive _ _ Hlock)).
Qed.

(** X23. Outside the playing phase a departure changes no remaining
    player: nobody is promoted. *)
Lemma handleDisconnect_promotes_only_while_playing m socket roomName game q :
  GameManager.socketToRoom m !! socket = Some roomName →
  GameManager.games m !! roomName = Some game →
  Game.status game ≠ playing → q ≠ socket →
  GameManager.players (GameManager.handleDisconnect m socket) !! q
  = GameManager.players m !! q.
Proof.
  intros Hroom Hgame Hstatus Hq. unfold GameManager.handleDisconnect.
  rewrite Hroom. destruct (GameManager.players m !! socket) as [player|]; [|done].
  destruct (bool_decide _); [done|]. rewrite Hgame.
  unfold GameManager.departure.
  destruct (decide _); cbn [GameManager.players].
  - by rewrite lookup_delete_ne.
  - cbn [Game.status Game.removePlayer Game.set_players].
    destruct (Game.status game); [|done|];
      cbn [GameManager.players]; by rewrite lookup_delete_ne.
Qed.

(** Whoever locks a piece, the next kind is read at the room's one index,
    which moves on for every player of the room. *)
Lemma spawnNewPiece_reads_room_index g player g' spawned :
  Game.spawnNewPiece g player = Some (g', spawned) →
  Game.currentPieceIndex g' = S (Game.currentPieceIndex g)
  ∧ Piece.type <$> Player.nextPiece spawned
    = Some (Game.pieceAt g (S (Game.currentPieceIndex g))).
Proof.
  unfold Game.spawnNewPiece. intros H.
  destruct (Player.nextPiece player) as [n|]; [|discriminate].
  cbn [mbind option_bind] in H. by injection H as <- <-.
Qed.

(** * Further properties of the code *)

(** ** Line clears *)

Lemma take_spliced m (b : Board) (line : list cell) :
  (m < length b)%nat →
  take (S m) (line :: delete m b) = line :: take m b
  ∧ drop (S m) (line :: delete m b) = drop (S m) b.
Proof.
  intros Hm. rewrite firstn_cons, skipn_cons, delete_take_drop. split.
  - f_equal. rewrite take_app_le by (rewrite length_take; lia).
    rewrite take_take. f_equal. lia.
  - rewrite drop_app_ge by (rewrite length_take; lia).
    rewrite length_take, drop_drop. f_equal. lia.
Qed.

(** The loop of [clearLines] from row [m - 1] up: the full rows among the
    first [m] are gone, as many empty rows are on top, the other rows keep
    their order. *)
Lemma clearLinesLoop_spec fuel : ∀ m b n,
  (m ≤ length b)%nat → (m + fullAbove m b < fuel)%nat →
  Game.clearLinesLoop fuel b (Z.of_nat m - 1) n
  = Some (replicate (fullAbove m b) (replicate 10 Zero)
            ++ filter (fun line => Game.isLineFull line = false) (take m b)
            ++ drop m b,
          (n + fullAbove m b)%nat).
Proof.
  induction fuel as [|fuel IH]; intros m b n Hm Hfuel; [lia|].
  rewrite clearLinesLoop_S. destruct m as [|m].
  - simpl. by rewrite Nat.add_0_r.
  - replace (Z.of_nat (S m) - 1 <? 0) with false by (symmetry; apply Z.ltb_ge; lia).
    replace (Z.to_nat (Z.of_nat (S m) - 1)) with m by lia.
    destruct (lookup_lt_is_Some_2 b m) as [line Hline]; [lia|].
    rewrite Hline. cbn [mbind option_bind].
    pose proof (fullAbove_S m b line Hline) as HS.
    rewrite (take_S_r _ _ _ Hline), list.filter_app, list.filter_cons, list.filter_nil.
    destruct (Game.isLineFull line) eqn:Hfull.
    + replace (Z.of_nat (S m) - 1 + 1 - 1) with (Z.of_nat (S m) - 1) by lia.
      destruct (take_spliced m b (replicate 10 Zero)) as [Htake Hdrop]; [lia|].
      rewrite IH.
      * rewrite fullAbove_spliced by lia. rewrite Htake, Hdrop, HS.
        rewrite list.filter_cons, decide_True by reflexivity.
        rewrite decide_False by congruence.
        f_equal. f_equal; [|lia].
        rewrite Nat.add_1_r, app_nil_r, (replicate_S_end (fullAbove m b)).
        by rewrite <- app_assoc.
      * simpl. rewrite length_delete by eauto. lia.
      * rewrite fullAbove_spliced by lia. lia.
    + replace (Z.of_nat (S m) - 1 - 1) with (Z.of_nat m - 1) by lia.
      rewrite IH by lia. rewrite HS, Nat.add_0_r.
      rewrite decide_True by done.
      f_equal. f_equal. f_equal. rewrite <- app_assoc. f_equal. simpl.
      by rewrite (drop_S _ _ _ Hline).
Qed.

(** X1. [clearLines] on a board of 20 rows removes exactly the full rows: it
    returns their number [k], the board becomes [k] empty rows followed by
    the rows that were not full, in their order; no row of the new board is
    full; and [k] is added to the line count and [100 * k] to the score. *)
Theorem clearLines_removes_full_rows player b :
  Player.board player = Some b → length b = 20%nat →
  let kept := filter (fun line => Game.isLineFull line = false) b in
  let k := length (filter (fun line => Game.isLineFull line = true) b) in
  ∃ cleared,
    Game.clearLines player = Some (cleared, k)
    ∧ Player.board cleared = Some (replicate k (replicate 10 Zero) ++ kept)
    ∧ (k + length kept = 20)%nat
    ∧ Forall (fun line => Game.isLineFull line = false)
        (replicate k (replicate 10 Zero) ++ kept)
    ∧ Player.linesCleared cleared = (Player.linesCleared player + k)%nat
    ∧ Player.score cleared = (Player.score player + k * 100)%nat.
Proof.
  intros Hb Hlen kept k. unfold Game.clearLines. rewrite Hb. cbn [mbind option_bind].
  pose proof (clearLinesLoop_spec (2 * length b + 1) 20 b 0) as Hrun.
  change (Z.of_nat 20 - 1) with 19 in Hrun.
  assert (take 20 b = b) as Htake by (rewrite <- Hlen; apply firstn_all).
  assert (drop 20 b = []) as Hdrop by (apply drop_ge; lia).
  assert (fullAbove 20 b = k) as Hk by (unfold fullAbove; by rewrite Htake).
  rewrite Hrun.
  2: lia.
  2: { pose proof (fullAbove_le 20 b). lia. }
  cbn [mbind option_bind]. rewrite Hk, Htake, Hdrop, app_nil_r.
  assert (k + length kept = length b)%nat as Hsum.
  { unfold k, kept. clear. induction b as [|line b IH]; [done|].
    rewrite !list.filter_cons. destruct (Game.isLineFull line) eqn:E.
    - rewrite decide_True, decide_False by congruence. simpl. lia.
    - rewrite decide_False, decide_True by congruence. simpl. lia. }
  assert (Forall (fun line => Game.isLineFull line = false)
            (replicate k (replicate 10 Zero) ++ kept)) as Hnone.
  { apply Forall_app. split; [by apply Forall_replicate|].
    apply list.Forall_forall. by intros line [? _]%list_elem_of_filter. }
  change (0 + k)%nat with k.
  destruct (decide (0 < k)%nat).
  - eexists. split; [reflexivity|].
    split_and!; [reflexivity | lia | done | reflexivity | reflexivity].
  - eexists. split; [reflexivity|].
    assert (k = 0)%nat as Hz by lia.
    split_and!; [reflexivity | lia | done | |].
    + cbn [Player.linesCleared Player.set_board]. lia.
    + cbn [Player.score Player.set_board]. lia.
Qed.

(** X1 at a board whose two bottom rows are full. *)
Lemma clearLines_of_two_full_rows :
  let kept :=
    filter (fun line => Game.isLineFull line = false) Scenario.fullRowsBoard in
  let k :=
    length (filter (fun line => Game.isLineFull line = true)
              Scenario.fullRowsBoard) in
  ∃ cleared,
    Game.clearLines Scenario.stacked = Some (cleared, k)
    ∧ Player.board cleared = Some (replicate k (replicate 10 Zero) ++ kept)
    ∧ (k + length kept = 20)%nat
    ∧ Forall (fun line => Game.isLineFull line = false)
        (replicate k (replicate 10 Zero) ++ kept)
    ∧ Player.linesCleared cleared = (Player.linesCleared Scenario.stacked + k)%nat
    ∧ Player.score cleared = (Player.score Scenario.stacked + k * 100)%nat.
Proof.
  apply (clearLines_removes_full_rows Scenario.stacked Scenario.fullRowsBoard).
  - vm_compute. reflexivity.
  - reflexivity.
Defined.

(** ** Valid positions *)

Lemma elem_of_cells (s : Shape) row col v :
  (row, col, v) ∈ Game.cells s
  ↔ ∃ line, s !! row = Some line ∧ line !! col = Some v.
Proof.
  unfold Game.cells. rewrite list_elem_of_In, in_concat. split.
  - intros (l & Hl & Hin). apply list_elem_of_In in Hl, Hin.
    apply elem_of_lookup_imap in Hl as (i & line & -> & Hline).
    apply elem_of_lookup_imap in Hin as (j & w & Heq & Hw). injection Heq as -> -> ->.
    eauto.
  - intros (line & Hline & Hv). eexists. rewrite <- !list_elem_of_In. split.
    + apply (elem_of_lookup_imap_2
               (fun row line => imap (fun col v => (row, col, v)) line) s line row Hline).
    + apply (elem_of_lookup_imap_2 (fun col v => (row, col, v)) line v col Hv).
Qed.

Lemma truthy_at_ (s : Shape) row col :
  truthy (Piece.at_ s row col) = true
  ↔ ∃ v, (row, col, v) ∈ Game.cells s ∧ truthy v = true.
Proof.
  unfold Piece.at_. split.
  - destruct (s !! row) as [line|] eqn:Hline; cbn [mbind option_bind]; [|done].
    destruct (line !! col) as [v|] eqn:Hv; [|done]. simpl. intros Ht.
    exists v. split; [|done]. apply elem_of_cells. eauto.
  - intros (v & Hin & Ht). apply elem_of_cells in Hin as (line & -> & Hv).
    cbn [mbind option_bind]. by rewrite Hv.
Qed.

Lemma isValidCells_true b x y cs :
  boardOk b →
  Game.isValidCells b x y cs = Some true
  ↔ ∀ row col v, (row, col, v) ∈ cs → truthy v = true →
      0 ≤ y + Z.of_nat row < 20 ∧ 0 ≤ x + Z.of_nat col < 10
      ∧ cellAt b (y + Z.of_nat row) (x + Z.of_nat col) = Some Zero.
Proof.
  intros Hb. induction cs as [|[[r c] w] cs IH]; simpl.
  - split; [|done]. intros _ row col v Hin. by apply elem_of_nil in Hin.
  - destruct (truthy w) eqn:Hw.
    + destruct (Game.outOfBounds _ _) eqn:Hout.
      * split; [done|]. intros H. destruct (H r c w) as (Hr & Hc & _);
          [apply elem_of_cons; by left | done |].
        assert (Game.outOfBounds (y + Z.of_nat r) (x + Z.of_nat c) = false) as E
          by (by apply outOfBounds_false).
        congruence.
      * apply outOfBounds_false in Hout as [Hr Hc].
        destruct (boardOk_row b _ Hb Hr) as (line & Hline & Hlen).
        rewrite Hline. cbn [mbind option_bind].
        assert (cellAt b (y + Z.of_nat r) (x + Z.of_nat c)
                = line !! Z.to_nat (x + Z.of_nat c)) as Hcell
          by (unfold cellAt; by rewrite Hline).
        destruct (line !! Z.to_nat (x + Z.of_nat c)) as [[|t]|] eqn:Hcol.
        -- rewrite IH. split.
           ++ intros H row col v Hin Hv. apply elem_of_cons in Hin as [Heq|Hin];
                [|by apply (H row col v)].
              injection Heq as -> -> ->. by rewrite Hcell.
           ++ intros H row col v Hin Hv. apply (H row col v); [|done].
              apply elem_of_cons. by right.
        -- split; [done|]. intros H. destruct (H r c w) as (_ & _ & E);
             [apply elem_of_cons; by left | done |]. congruence.
        -- split; [done|]. intros H. destruct (H r c w) as (_ & _ & E);
             [apply elem_of_cons; by left | done |]. congruence.
    + rewrite IH. split.
      * intros H row col v Hin Hv. apply elem_of_cons in Hin as [Heq|Hin];
          [|by apply (H row col v)].
        injection Heq as -> -> ->. congruence.
      * intros H row col v Hin Hv. apply (H row col v); [|done].
        apply elem_of_cons. by right.
Qed.

(** X2. On a board of 20 rows of 10 cells [isValidPosition] answers, and it
    answers [true] exactly when every block of the piece, put at (x, y), is
    inside the board and over a cell that holds [0]. *)
Theorem isValidPosition_iff b piece x y :
  boardOk b →
  is_Some (Game.isValidPosition b piece x y)
  ∧ (Game.isValidPosition b piece x y = Some true
     ↔ ∀ row col, truthy (Piece.at_ (Piece.shape piece) row col) = true →
         0 ≤ y + Z.of_nat row < 20 ∧ 0 ≤ x + Z.of_nat col < 10
         ∧ cellAt b (y + Z.of_nat row) (x + Z.of_nat col) = Some Zero).
Proof.
  intros Hb. split; [by apply isValidPosition_total|].
  unfold Game.isValidPosition. rewrite (isValidCells_true _ _ _ _ Hb). split.
  - intros H row col Ht. apply truthy_at_ in Ht as (v & Hin & Hv). by apply (H row col v).
  - intros H row col v Hin Hv. apply H. apply truthy_at_. eauto.
Qed.

(** X2 at the empty board and a [T] piece at the spawn position. *)
Lemma isValidPosition_at_spawn :
  is_Some (Game.isValidPosition Game.createEmptyBoard (Piece.new KT) 3 0)
  ∧ (Game.isValidPosition Game.createEmptyBoard (Piece.new KT) 3 0 = Some true
     ↔ ∀ row col,
         truthy (Piece.at_ (Piece.shape (Piece.new KT)) row col) = true →
         0 ≤ 0 + Z.of_nat row < 20 ∧ 0 ≤ 3 + Z.of_nat col < 10
         ∧ cellAt Game.createEmptyBoard (0 + Z.of_nat row) (3 + Z.of_nat col)
           = Some Zero).
Proof.
  apply (isValidPosition_iff Game.createEmptyBoard (Piece.new KT) 3 0).
  apply createEmptyBoard_ok.
Defined.

(** ** Locks *)

Lemma cellAt_insert b R C (line : list cell) (t : cell) r c :
  b !! R = Some line → (C < length line)%nat → 0 ≤ r → 0 ≤ c →
  cellAt (<[R := <[C := t]> line]> b) r c
  = if (Z.of_nat R =? r) && (Z.of_nat C =? c) then Some t else cellAt b r c.
Proof.
  intros Hline HC Hr Hc. unfold cellAt.
  destruct (decide (R = Z.to_nat r)) as [->|HneR].
  - rewrite list_lookup_insert_eq by (by eapply lookup_lt_Some).
    rewrite Hline. cbn [mbind option_bind].
    replace (Z.of_nat (Z.to_nat r) =? r) with true by (symmetry; apply Z.eqb_eq; lia).
    cbn [andb]. destruct (decide (C = Z.to_nat c)) as [->|HneC].
    + rewrite list_lookup_insert_eq by done.
      by replace (Z.of_nat (Z.to_nat c) =? c) with true by (symmetry; apply Z.eqb_eq; lia).
    + rewrite list_lookup_insert_ne by done.
      by replace (Z.of_nat C =? c) with false by (symmetry; apply Z.eqb_neq; lia).
  - rewrite list_lookup_insert_ne by done.
    by replace (Z.of_nat R =? r) with false by (symmetry; apply Z.eqb_neq; lia).
Qed.

Lemma lockCells_spec piece cs : ∀ b,
  boardOk b →
  ∃ b', Game.lockCells piece b cs = Some b' ∧ boardOk b'
    ∧ ∀ r c, 0 ≤ r < 20 → 0 ≤ c < 10 →
        cellAt b' r c
        = if writes piece cs r c then Some (Tag (Piece.type piece))
          else cellAt b r c.
Proof.
  induction cs as [|[[row col] v] cs IH]; intros b Hb.
  - exists b. by split_and!.
  - cbn [Game.lockCells].
    assert (∃ b1, Game.lockCell piece b (row, col, v) = Some b1 ∧ boardOk b1
              ∧ ∀ r c, 0 ≤ r < 20 → 0 ≤ c < 10 →
                  cellAt b1 r c
                  = if truthy v && (Piece.y piece + Z.of_nat row =? r)
                       && (Piece.x piece + Z.of_nat col =? c)
                    then Some (Tag (Piece.type piece)) else cellAt b r c)
      as (b1 & -> & Hb1 & Hcell1).
    { unfold Game.lockCell. destruct (truthy v); [|by exists b].
      destruct (Game.outOfBounds _ _) eqn:Hout.
      - exists b. split_and!; [done | done |]. intros r c Hr Hc.
        destruct (Z.eqb_spec (Piece.y piece + Z.of_nat row) r) as [Er|]; [|done].
        destruct (Z.eqb_spec (Piece.x piece + Z.of_nat col) c) as [Ec|]; [|done].
        subst r c.
        assert (Game.outOfBounds (Piece.y piece + Z.of_nat row)
                  (Piece.x piece + Z.of_nat col) = false) as E
          by (by apply outOfBounds_false).
        congruence.
      - apply outOfBounds_false in Hout as [Hr Hc].
        destruct (boardOk_row b _ Hb Hr) as (line & Hline & Hlen).
        rewrite Hline. cbn [mbind option_bind]. rewrite decide_True by lia.
        eexists. split_and!; [reflexivity | |].
        + apply boardOk_insert; [done|]. by rewrite length_insert.
        + intros r c Hr' Hc'. rewrite (cellAt_insert b _ _ line) by (done || lia).
          cbn [andb]. by rewrite !Z2Nat.id by lia. }
    cbn [mbind option_bind].
    destruct (IH b1 Hb1) as (b' & -> & Hb' & Hcell). exists b'.
    split_and!; [done | done |]. intros r c Hr Hc.
    rewrite Hcell, Hcell1 by done. unfold writes. cbn [existsb fst snd].
    destruct (truthy v && _ && _); cbn [orb]; [|done].
    by destruct (existsb _ cs).
Qed.

Lemma writes_cells piece r c :
  writes piece (Game.cells (Piece.shape piece)) r c = covers piece r c.
Proof.
  apply eq_true_iff_eq. unfold writes, covers.
  rewrite existsb_exists, !andb_true_iff, truthy_at_. split.
  - intros ([[row col] v] & Hin & H). cbn [fst snd] in H.
    rewrite !andb_true_iff in H. destruct H as [[Hv Hr] Hc].
    apply Z.eqb_eq in Hr, Hc. apply list_elem_of_In in Hin.
    split; [split; apply Z.leb_le; lia|].
    exists v. split; [|done].
    by replace (Z.to_nat (r - Piece.y piece)) with row by lia;
       replace (Z.to_nat (c - Piece.x piece)) with col by lia.
  - intros [[Hr Hc] (v & Hin & Hv)]. apply Z.leb_le in Hr, Hc.
    eexists (_, _, v). split; [apply list_elem_of_In, Hin|]. cbn [fst snd].
    rewrite Hv. cbn [andb]. apply andb_true_iff. split; apply Z.eqb_eq; lia.
Qed.

(** X3. [lockPiece] on a board of 20 rows of 10 cells writes the type of
    the falling piece into the cells under its blocks, drops the blocks that
    are outside the board, and leaves every other cell, and every other field
    of the player, as it was. *)
Theorem lockPiece_writes_blocks player piece b :
  Player.currentPiece player = Some piece → Player.board player = Some b →
  boardOk b →
  ∃ b', Game.lockPiece player = Some (Player.set_board (Some b') player)
    ∧ boardOk b'
    ∧ ∀ r c, 0 ≤ r < 20 → 0 ≤ c < 10 →
        cellAt b' r c
        = if covers piece r c then Some (Tag (Piece.type piece))
          else cellAt b r c.
Proof.
  intros Hpiece Hboard Hb. unfold Game.lockPiece, Game.boardOf.
  rewrite Hpiece, Hboard. cbn [mbind option_bind from_option id].
  destruct (lockCells_spec piece (Game.cells (Piece.shape piece)) b Hb)
    as (b' & -> & Hb' & Hcell).
  cbn [mbind option_bind]. exists b'. split_and!; [done | done |].
  intros r c Hr Hc. by rewrite Hcell, writes_cells.
Qed.

Lemma dealtRoom_ok :
  storeOk (Game.players Scenario.dealtRoom.1) Scenario.dealtRoom.2.
Proof. apply (start_storeOk _ _ _ _ start_dealtRoom). Qed.

Lemma bob_in_play : playerOk Scenario.bob.
Proof.
  destruct (dealtRoom_ok "B") as (p & Hp & Hok).
  { apply (bool_decide_unpack _). vm_compute. exact I. }
  unfold Scenario.bob. by rewrite Hp.
Qed.

Lemma alice_in_play : playerOk Scenario.alice.
Proof.
  destruct (dealtRoom_ok "A") as (p & Hp & Hok).
  { apply (bool_decide_unpack _). vm_compute. exact I. }
  unfold Scenario.alice. by rewrite Hp.
Qed.

(** X3 at [B]'s first piece, an [I] at the spawn position over the empty
    board. *)
Lemma lockPiece_of_first_piece :
  ∃ b', Game.lockPiece Scenario.bob
        = Some (Player.set_board (Some b') Scenario.bob)
    ∧ boardOk b'
    ∧ ∀ r c, 0 ≤ r < 20 → 0 ≤ c < 10 →
        cellAt b' r c
        = if covers (Piece.new KI) r c
          then Some (Tag (Piece.type (Piece.new KI)))
          else cellAt Game.createEmptyBoard r c.
Proof.
  apply (lockPiece_writes_blocks Scenario.bob (Piece.new KI) Game.createEmptyBoard).
  - vm_compute. reflexivity.
  - vm_compute. reflexivity.
  - apply createEmptyBoard_ok.
Defined.

(** ** Hard drops *)

(** The loop of [hardDrop] stops on the piece moved straight down to the
    last row that it reaches through valid positions. *)
Lemma hardDropLoop_lands fuel : ∀ b piece,
  boardOk b → hasBlock (Piece.shape piece) = true →
  20 - Piece.y piece ≤ Z.of_nat fuel →
  ∃ dropped, Game.hardDropLoop fuel b piece = Some dropped
    ∧ dropped = Piece.set_y (Piece.y dropped) piece
    ∧ Piece.y piece ≤ Piece.y dropped
    ∧ (∀ y, Piece.y piece < y ≤ Piece.y dropped →
         Game.isValidPosition b piece (Piece.x piece) y = Some true)
    ∧ Game.isValidPosition b piece (Piece.x piece) (Piece.y dropped + 1)
      = Some false.
Proof.
  induction fuel as [|fuel IH]; intros b piece Hb Hp Hfuel;
    rewrite hardDropLoop_unfold;
    destruct (isValidPosition_total b piece (Piece.x piece) (Piece.y piece + 1) Hb)
      as [valid Hvalid];
    rewrite Hvalid; cbn [mbind option_bind];
    (destruct valid;
     [| exists piece; split_and!;
        [done | by destruct piece | lia | intros; lia | done]]);
    destruct (hasBlock_cell _ Hp) as (row & col & v & Hin & Hv);
    pose proof (isValidCells_in_bounds _ _ _ _ Hvalid row col v Hin Hv) as Hin_b;
    apply outOfBounds_false in Hin_b.
  - lia.
  - destruct (IH b (Piece.set_y (Piece.y piece + 1) piece) Hb Hp)
      as (d & Hrun & Hd & Hy & Hbetween & Hstop).
    + simpl. lia.
    + exists d. rewrite Hrun. cbn [Piece.y Piece.x Piece.set_y] in *.
      split_and!; [done | | lia | | done].
      * rewrite Hd. by destruct piece.
      * intros y Hy'. destruct (decide (y = Piece.y piece + 1)) as [->|Hne]; [done|].
        apply Hbetween. lia.
Qed.

(** X4. [hardDrop] of a living player in play: the piece goes straight down
    by [d] rows, through valid positions only, to the first row from which
    it cannot go further; it is locked there, the lines are cleared, the
    next piece is spawned, and the number of cleared lines is returned. No
    other player is written. *)
Theorem hardDrop_locks_at_first_obstacle g st pid player :
  st !! pid = Some player → playerOk player → Player.isAlive player = true →
  ∃ piece d locked cleared k g' spawned,
    Player.currentPiece player = Some piece
    ∧ (∀ i, 0 < i ≤ Z.of_nat d →
         Game.isValidPosition (Game.boardOf player) piece
           (Piece.x piece) (Piece.y piece + i) = Some true)
    ∧ Game.isValidPosition (Game.boardOf player) piece
        (Piece.x piece) (Piece.y piece + Z.of_nat d + 1) = Some false
    ∧ Game.lockPiece
        (Player.set_currentPiece
           (Some (Piece.set_y (Piece.y piece + Z.of_nat d) piece)) player)
      = Some locked
    ∧ Game.clearLines locked = Some (cleared, k)
    ∧ Game.spawnNewPiece g cleared = Some (g', spawned)
    ∧ Game.hardDrop g st pid = Some (g', <[pid := spawned]> st, Some k).
Proof.
  intros Hp Hok Halive.
  pose proof (boardOf_ok _ Hok) as Hb.
  destruct (ok_current _ Hok) as (piece & Hc & Hcok).
  destruct (hardDropLoop_lands (Z.to_nat (20 - Piece.y piece)) _ piece Hb
              (proj2 (knownShapes_closed _ Hcok)))
    as (dropped & Hloop & Hd & Hy & Hbetween & Hstop); [lia|].
  assert (playerOk (Player.set_currentPiece (Some dropped) player)) as Hdropped.
  { apply playerOk_set_currentPiece; [done|]. unfold pieceOk. rewrite Hd. exact Hcok. }
  destruct (lockPiece_ok _ Hdropped) as (locked & Hlock & Hlocked).
  destruct (clearLines_ok _ Hlocked) as (cleared & k & Hclear & Hcleared).
  destruct (spawnNewPiece_ok g _ Hcleared) as (g' & spawned & Hspawn & _ & _).
  exists piece, (Z.to_nat (Piece.y dropped - Piece.y piece)), locked, cleared, k, g', spawned.
  rewrite Z2Nat.id by lia.
  replace (Piece.y piece + (Piece.y dropped - Piece.y piece)) with (Piece.y dropped) by lia.
  rewrite <- Hd. split_and!; try done.
  - intros i Hi. apply Hbetween. lia.
  - unfold Game.hardDrop. rewrite Hp. cbn [mbind option_bind].
    rewrite Hc, Halive. cbn [negb]. rewrite Hloop. cbn [mbind option_bind].
    rewrite Hlock. cbn [mbind option_bind]. rewrite Hclear. cbn [mbind option_bind].
    by rewrite Hspawn.
Qed.

(** X4 at [B]'s first hard drop in the game just started. *)
Lemma hardDrop_of_first_piece :
  ∃ piece d locked cleared k g' spawned,
    Player.currentPiece Scenario.bob = Some piece
    ∧ (∀ i, 0 < i ≤ Z.of_nat d →
         Game.isValidPosition (Game.boardOf Scenario.bob) piece
           (Piece.x piece) (Piece.y piece + i) = Some true)
    ∧ Game.isValidPosition (Game.boardOf Scenario.bob) piece
        (Piece.x piece) (Piece.y piece + Z.of_nat d + 1) = Some false
    ∧ Game.lockPiece
        (Player.set_currentPiece
           (Some (Piece.set_y (Piece.y piece + Z.of_nat d) piece)) Scenario.bob)
      = Some locked
    ∧ Game.clearLines locked = Some (cleared, k)
    ∧ Game.spawnNewPiece Scenario.dealtRoom.1 cleared = Some (g', spawned)
    ∧ Game.hardDrop Scenario.dealtRoom.1 Scenario.dealtRoom.2 "B"
      = Some (g', <["B" := spawned]> Scenario.dealtRoom.2, Some k).
Proof.
  apply (hardDrop_locks_at_first_obstacle Scenario.dealtRoom.1
           Scenario.dealtRoom.2 "B" Scenario.bob).
  - vm_compute. reflexivity.
  - apply bob_in_play.
  - vm_compute. reflexivity.
Defined.

Lemma set_currentPiece_id player piece :
  Player.currentPiece player = Some piece →
  Player.set_currentPiece (Some piece) player = player.
Proof. destruct player. simpl. by intros ->. Qed.

Lemma gravitySteps_fall g pid fuel : ∀ piece player st dropped,
  st !! pid = Some player → Player.isAlive player = true →
  Player.currentPiece player = Some piece →
  Game.hardDropLoop fuel (Game.boardOf player) piece = Some dropped →
  Game.isValidPosition (Game.boardOf player) dropped
    (Piece.x dropped) (Piece.y dropped + 1) = Some false
  ∧ ∃ d,
      dropped = Piece.set_y (Piece.y piece + Z.of_nat d) piece
      ∧ gravitySteps d (g, st) pid
        = Some (g, <[pid := Player.set_currentPiece (Some dropped) player]> st).
Proof.
  induction fuel as [|fuel IH]; intros piece player st dropped Hp Halive Hc;
    rewrite hardDropLoop_unfold;
    destruct (Game.isValidPosition _ piece _ _) as [[|]|] eqn:Hvalid;
    cbn [mbind option_bind]; try discriminate.
  - intros [= <-]. split; [done|]. exists 0%nat.
    split; [change (Z.of_nat 0) with 0; rewrite Z.add_0_r; by destruct piece|]. simpl.
    by rewrite (set_currentPiece_id _ _ Hc), insert_id.
  - intros Hrun.
    set (player1 := Player.set_currentPiece
                      (Some (Piece.set_y (Piece.y piece + 1) piece)) player).
    destruct (IH (Piece.set_y (Piece.y piece + 1) piece) player1
                (<[pid := player1]> st) dropped) as (Hstop & d & Hy & Hsteps);
      [apply lookup_insert_eq | done | done | done |].
    split; [done|]. exists (S d). split.
    { rewrite Hy. destruct piece. unfold Piece.set_y. cbn [Piece.type Piece.x Piece.y Piece.shape].
      f_equal. lia. }
    cbn [gravitySteps]. unfold Game.dropIfAlive, Game.dropPiece.
    rewrite Hp. cbn [mbind option_bind]. rewrite Halive, Hc, Hvalid.
    cbn [mbind option_bind]. fold player1. rewrite Hsteps.
    by rewrite insert_insert_eq.
  - intros [= <-]. split; [done|]. exists 0%nat.
    split; [change (Z.of_nat 0) with 0; rewrite Z.add_0_r; by destruct piece|]. simpl.
    by rewrite (set_currentPiece_id _ _ Hc), insert_id.
Qed.

Lemma gravitySteps_last pid d : ∀ s,
  gravitySteps (S d) s pid = s' ← gravitySteps d s pid; Game.dropIfAlive s' pid.
Proof.
  induction d as [|d IH]; intros s.
  - simpl. by destruct (Game.dropIfAlive s pid).
  - change (gravitySteps (S (S d)) s pid)
      with (s' ← Game.dropIfAlive s pid; gravitySteps (S d) s' pid).
    cbn [gravitySteps]. destruct (Game.dropIfAlive s pid) as [s1|]; [|done].
    cbn [mbind option_bind]. apply IH.
Qed.

(** X5. A hard drop after which the new piece fits at the spawn position
    is the fall of the piece by gravity, done at once: [d] firings of the
    interval's callback for the player bring the piece down by [d] rows and
    change nothing else, and one more firing locks it and leaves the game and
    all players exactly as the hard drop does. *)
Theorem hardDrop_is_gravity_at_once g st pid player g' st' k :
  st !! pid = Some player →
  Game.hardDrop g st pid = Some (g', st', Some k) →
  (st' !! pid ≫= Game.canSpawnPiece) = Some true →
  ∃ d piece,
    Player.currentPiece player = Some piece
    ∧ gravitySteps d (g, st) pid
      = Some (g, <[pid := Player.set_currentPiece
                             (Some (Piece.set_y (Piece.y piece + Z.of_nat d) piece))
                             player]> st)
    ∧ gravitySteps (S d) (g, st) pid = Some (g', st').
Proof.
  intros Hp Hdrop Hfits. unfold Game.hardDrop in Hdrop.
  rewrite Hp in Hdrop. cbn [mbind option_bind] in Hdrop.
  destruct (Player.currentPiece player) as [piece|] eqn:Hc; [|discriminate].
  destruct (Player.isAlive player) eqn:Halive; [|discriminate].
  cbn [negb] in Hdrop.
  destruct (Game.hardDropLoop _ _ _) as [dropped|] eqn:Hloop; [|discriminate].
  cbn [mbind option_bind] in Hdrop.
  destruct (gravitySteps_fall g pid _ piece player st dropped Hp Halive Hc Hloop)
    as (Hstop & d & Hd & Hsteps).
  set (landed := Player.set_currentPiece (Some dropped) player) in *.
  destruct (Game.lockPiece landed) as [locked|] eqn:Hlock; [|discriminate].
  cbn [mbind option_bind] in Hdrop.
  destruct (Game.clearLines locked) as [[cleared k']|] eqn:Hclear; [|discriminate].
  cbn [mbind option_bind] in Hdrop.
  destruct (Game.spawnNewPiece g cleared) as [[g1 spawned]|] eqn:Hspawn; [|discriminate].
  cbn [mbind option_bind] in Hdrop. injection Hdrop as <- <- <-.
  rewrite lookup_insert_eq in Hfits. cbn [mbind option_bind] in Hfits.
  exists d, piece. split; [done|]. split; [by rewrite <- Hd|].
  rewrite gravitySteps_last, Hsteps. cbn [mbind option_bind].
  unfold Game.dropIfAlive, Game.dropPiece.
  rewrite lookup_insert_eq. cbn [mbind option_bind].
  change (Player.isAlive landed) with (Player.isAlive player). rewrite Halive.
  change (Player.currentPiece landed) with (Some dropped). cbn match.
  change (Game.boardOf landed) with (Game.boardOf player). rewrite Hstop.
  cbn [mbind option_bind]. rewrite Hlock. cbn [mbind option_bind].
  rewrite Hclear. cbn [mbind option_bind]. rewrite Hspawn. cbn [mbind option_bind].
  rewrite Hfits. cbn [mbind option_bind negb].
  by rewrite insert_insert_eq.
Qed.

(** X5 at [A]'s first hard drop in the game just started. *)
Lemma first_hardDrop_is_gravity_at_once :
  ∃ d piece,
    Player.currentPiece Scenario.alice = Some piece
    ∧ gravitySteps d (Scenario.dealtRoom.1, Scenario.dealtRoom.2) "A"
      = Some (Scenario.dealtRoom.1,
              <["A" := Player.set_currentPiece
                         (Some (Piece.set_y (Piece.y piece + Z.of_nat d) piece))
                         Scenario.alice]> Scenario.dealtRoom.2)
    ∧ gravitySteps (S d) (Scenario.dealtRoom.1, Scenario.dealtRoom.2) "A"
      = Some (Scenario.dropped.1.1, Scenario.dropped.1.2).
Proof.
  apply (hardDrop_is_gravity_at_once Scenario.dealtRoom.1 Scenario.dealtRoom.2
           "A" Scenario.alice Scenario.dropped.1.1 Scenario.dropped.1.2 0%nat).
  - vm_compute. reflexivity.
  - vm_compute. reflexivity.
  - vm_compute. reflexivity.
Defined.

(** ** Rotations *)

Lemma rotateShape_lookup (n : nat) (s : Shape) i j :
  square n s → (i < n)%nat → (j < n)%nat →
  Piece.rotateShape s !! i ≫= (fun line => line !! j)
  = Some (Piece.at_ s (n - 1 - j) i).
Proof.
  intros [Hlen Hall] Hi Hj. unfold Piece.rotateShape.
  assert (length (default [] (s !! 0%nat)) = n) as Hcols.
  { destruct s as [|line s]; [simpl in Hlen; lia|]. simpl.
    by inversion Hall. }
  rewrite Hcols, Hlen.
  rewrite list_lookup_fmap, lookup_seq_lt by done. cbn [fmap option_fmap option_map mbind option_bind].
  rewrite list_lookup_fmap, lookup_seq_lt by done. done.
Qed.

Lemma rotateShape_square n s : square n s → square n (Piece.rotateShape s).
Proof.
  intros [Hlen Hall]. unfold Piece.rotateShape.
  assert (length (default [] (s !! 0%nat)) = n) as Hcols.
  { destruct s as [|line s]; [simpl in Hlen |- *; lia|]. simpl.
    by inversion Hall. }
  rewrite Hcols, Hlen. split.
  - by rewrite length_map, length_seq.
  - apply Forall_fmap, Forall_forall. intros col _. simpl.
    by rewrite length_map, length_seq.
Qed.

Lemma at_rotateShape n s i j :
  square n s → (i < n)%nat → (j < n)%nat →
  Piece.at_ (Piece.rotateShape s) i j = Piece.at_ s (n - 1 - j) i.
Proof.
  intros Hs Hi Hj.
  pose proof (rotateShape_lookup n s i j Hs Hi Hj) as H.
  unfold Piece.at_ at 1. cbv beta in *. by rewrite H.
Qed.

Lemma square_ext n (s s' : Shape) :
  square n s → square n s' →
  (∀ i j, (i < n)%nat → (j < n)%nat → Piece.at_ s i j = Piece.at_ s' i j) →
  s = s'.
Proof.
  intros [Hlen Hall] [Hlen' Hall'] Hat. apply list_eq_same_length with n; [done | done |].
  intros i line line' Hi Hline Hline'.
  pose proof (Forall_lookup_1 _ _ _ _ Hall Hline) as Hl.
  pose proof (Forall_lookup_1 _ _ _ _ Hall' Hline') as Hl'. simpl in Hl, Hl'.
  apply list_eq_same_length with n; [done | done |].
  intros j v v' Hj Hv Hv'.
  specialize (Hat i j Hi Hj). unfold Piece.at_ in Hat.
  rewrite Hline, Hline' in Hat. cbn [mbind option_bind] in Hat.
  by rewrite Hv, Hv' in Hat.
Qed.

Lemma rotateShape_four n s :
  square n s →
  Piece.rotateShape (Piece.rotateShape (Piece.rotateShape (Piece.rotateShape s))) = s.
Proof.
  intros Hs.
  pose proof (rotateShape_square n _ Hs) as H1.
  pose proof (rotateShape_square n _ H1) as H2.
  pose proof (rotateShape_square n _ H2) as H3.
  pose proof (rotateShape_square n _ H3) as H4.
  apply (square_ext n); [done | done |]. intros i j Hi Hj.
  rewrite (at_rotateShape n) by (done || lia).
  rewrite (at_rotateShape n) by (done || lia).
  rewrite (at_rotateShape n) by (done || lia).
  rewrite (at_rotateShape n) by (done || lia).
  f_equal; lia.
Qed.

(** X6. [rotate] of a piece whose shape is a square of side [n > 0] returns
    a piece of the same type at the same place, with a square shape of the
    same side; unless the type is [O], entry (i, j) of the new shape is
    entry (n - 1 - j, i) of the old one (a quarter turn clockwise); for [O]
    the shape is kept; and four rotations give the piece back. *)
Theorem rotate_quarter_turn n piece :
  (0 < n)%nat → square n (Piece.shape piece) →
  let rotated := Piece.rotate piece in
  Piece.type rotated = Piece.type piece
  ∧ Piece.x rotated = Piece.x piece ∧ Piece.y rotated = Piece.y piece
  ∧ square n (Piece.shape rotated)
  ∧ (Piece.type piece ≠ KO →
     ∀ i j, (i < n)%nat → (j < n)%nat →
       Piece.at_ (Piece.shape rotated) i j
       = Piece.at_ (Piece.shape piece) (n - 1 - j) i)
  ∧ (Piece.type piece = KO → Piece.shape rotated = Piece.shape piece)
  ∧ Piece.rotate (Piece.rotate (Piece.rotate rotated)) = piece.
Proof.
  intros _ Hs rotated. unfold rotated.
  destruct piece as [type x y shape]. cbn [Piece.shape Piece.type Piece.x Piece.y] in *.
  pose proof (rotateShape_square n _ Hs) as H1.
  pose proof (rotateShape_four n _ Hs) as H4.
  destruct type; cbn; split_and!; try done;
    try (intros _ i j Hi Hj; by apply at_rotateShape);
    by rewrite H4.
Qed.

(** X6 at the [T] piece. *)
Lemma rotate_T_quarter_turn :
  let rotated := Piece.rotate (Piece.new KT) in
  Piece.type rotated = Piece.type (Piece.new KT)
  ∧ Piece.x rotated = Piece.x (Piece.new KT)
  ∧ Piece.y rotated = Piece.y (Piece.new KT)
  ∧ square 3 (Piece.shape rotated)
  ∧ (Piece.type (Piece.new KT) ≠ KO →
     ∀ i j, (i < 3)%nat → (j < 3)%nat →
       Piece.at_ (Piece.shape rotated) i j
       = Piece.at_ (Piece.shape (Piece.new KT)) (3 - 1 - j) i)
  ∧ (Piece.type (Piece.new KT) = KO →
     Piece.shape rotated = Piece.shape (Piece.new KT))
  ∧ Piece.rotate (Piece.rotate (Piece.rotate rotated)) = Piece.new KT.
Proof.
  apply (rotate_quarter_turn 3 (Piece.new KT)).
  - lia.
  - split; [reflexivity|]. by repeat constructor.
Defined.

(** ** The piece sequence *)

Lemma foldl_push {A} (f : nat → list A) (l : list nat) : ∀ acc,
  foldl (fun acc i => acc ++ f i) acc l = acc ++ concat (map f l).
Proof.
  induction l as [|a l IH]; intros acc; simpl; [by rewrite app_nil_r|].
  by rewrite IH, <- app_assoc.
Qed.

Lemma chunk_concat {A} (n : nat) (ls : list (list A)) : ∀ i chunk,
  Forall (fun l => length l = n) ls → ls !! i = Some chunk →
  take n (drop (n * i) (concat ls)) = chunk.
Proof.
  induction ls as [|l ls IH]; intros i chunk Hall Hi; [done|].
  apply list.Forall_cons in Hall as [Hl Hall]. cbn [concat].
  destruct i as [|i]; simpl in Hi.
  - injection Hi as <-. rewrite Nat.mul_0_r, drop_0.
    rewrite take_app_le by lia. rewrite <- Hl. apply firstn_all.
  - replace (n * S i)%nat with (length l + n * i)%nat by lia.
    rewrite drop_app_add'; [|done]. by apply IH.
Qed.

(** X7. When every shuffle leaves a permutation of the seven kinds,
    [generatePieceSequence] builds a sequence of 70 kinds whose [i]-th group
    of seven is what the [i]-th shuffle left, hence a permutation of the
    seven kinds; every kind occurs exactly ten times. *)
Theorem pieceSequence_is_ten_bags (sort : nat -> list tag -> list tag) g :
  (∀ i, sort i Game.pieces ≡ₚ Game.pieces) →
  let sequence := Game.pieceSequence (Game.generatePieceSequence sort g) in
  length sequence = 70%nat
  ∧ (∀ i, (i < 10)%nat → take 7 (drop (7 * i) sequence) = sort i Game.pieces)
  ∧ (∀ i, (i < 10)%nat → take 7 (drop (7 * i) sequence) ≡ₚ Game.pieces)
  ∧ (∀ k, k ∈ Game.pieces →
       length (filter (fun t => t = k) sequence) = 10%nat).
Proof.
  intros Hsort sequence.
  assert (sequence = concat (map (fun i => sort i Game.pieces) (seq 0 10))) as Hseq.
  { unfold sequence, Game.generatePieceSequence. cbn [Game.pieceSequence Game.set_pieceSequence].
    by rewrite foldl_push. }
  assert (∀ i, (i < 10)%nat → take 7 (drop (7 * i) sequence) = sort i Game.pieces)
    as Hchunk.
  { intros i Hi. rewrite Hseq. apply chunk_concat.
    - apply Forall_fmap, Forall_forall. intros j _. simpl.
      by rewrite (Permutation_length (Hsort j)).
    - by rewrite list_lookup_fmap, lookup_seq_lt. }
  split_and!.
  - unfold sequence, Game.generatePieceSequence. cbn [Game.pieceSequence Game.set_pieceSequence].
    rewrite generatePieceSequence_length; [done|].
    intros i. by rewrite (Permutation_length (Hsort i)).
  - done.
  - intros i Hi. by rewrite Hchunk.
  - intros k Hk. rewrite Hseq. cbn [seq map concat].
    rewrite !list.filter_app, !length_app, list.filter_nil.
    assert (∀ i, length (filter (fun t => t = k) (sort i Game.pieces)) = 1%nat) as Hone.
    { intros i. rewrite (Hsort i). revert k Hk.
      apply (proj1 (list.Forall_forall
        (fun k => length (filter (fun t => t = k) Game.pieces) = 1%nat) Game.pieces)).
      apply (bool_decide_unpack _). vm_compute. exact I. }
    rewrite !Hone. reflexivity.
Qed.

(** X7 at the shuffle that leaves the kinds in their order. *)
Lemma identity_sequence_is_ten_bags :
  let sequence :=
    Game.pieceSequence
      (Game.generatePieceSequence Scenario.identitySort (Game.new "r1")) in
  length sequence = 70%nat
  ∧ (∀ i, (i < 10)%nat →
       take 7 (drop (7 * i) sequence) = Scenario.identitySort i Game.pieces)
  ∧ (∀ i, (i < 10)%nat → take 7 (drop (7 * i) sequence) ≡ₚ Game.pieces)
  ∧ (∀ k, k ∈ Game.pieces →
       length (filter (fun t => t = k) sequence) = 10%nat).
Proof.
  apply (pieceSequence_is_ten_bags Scenario.identitySort (Game.new "r1")).
  intros i. reflexivity.
Defined.

(** ** The spectrum *)

Lemma cellAt_nat b row col :
  cellAt b (Z.of_nat row) (Z.of_nat col) = b !! row ≫= fun line => line !! col.
Proof. unfold cellAt. by rewrite !Nat2Z.id. Qed.

Lemma columnHeight_spec b col : boardOk b → (col < 10)%nat →
  ∀ n start, (start + n = 20)%nat →
    (∀ row, (row < start)%nat → cellAt b (Z.of_nat row) (Z.of_nat col) = Some Zero) →
    ∃ h, Game.columnHeight b col (seq start n) = Some h ∧ heightOf b col h.
Proof.
  intros Hb Hcol. induction n as [|n IH]; intros start Hsum Habove.
  - exists 0%nat. split; [done|]. split_and!; [lia | | lia].
    intros row Hrow. apply Habove. lia.
  - cbn [seq Game.columnHeight].
    destruct (boardOk_row b (Z.of_nat start) Hb) as (line & Hline & Hlen); [lia|].
    rewrite Nat2Z.id in Hline. rewrite Hline. cbn [mbind option_bind].
    destruct (lookup_lt_is_Some_2 line col) as [c Hc]; [lia|]. rewrite Hc.
    assert (cellAt b (Z.of_nat start) (Z.of_nat col) = Some c) as Hcell
      by (rewrite cellAt_nat, Hline; done).
    destruct c as [|t].
    + apply IH; [lia|]. intros row Hrow.
      destruct (decide (row = start)) as [->|]; [done | apply Habove; lia].
    + exists (20 - start)%nat. split; [done|]. split_and!; [lia | |].
      * intros row Hrow. apply Habove. lia.
      * intros _. exists t. by replace (20 - (20 - start))%nat with start by lia.
Qed.

(** [calculateSpectrum] on a board of 20 rows of 10 cells returns ten
    heights, each the height of its column. *)
Lemma calculateSpectrum_spec b :
  boardOk b →
  ∃ spectrum, Game.calculateSpectrum b = Some spectrum
    ∧ length spectrum = 10%nat
    ∧ ∀ col height, spectrum !! col = Some height → heightOf b col height.
Proof.
  intros Hb. unfold Game.calculateSpectrum.
  destruct (mapM (fun col => Game.columnHeight b col (seq 0 20)) (seq 0 10))
    as [spectrum|] eqn:Hrun.
  - exists spectrum. split; [done|].
    pose proof (length_mapM _ _ _ Hrun) as Hlen. rewrite length_seq in Hlen.
    split; [done|]. intros col height Hh.
    apply mapM_Some in Hrun.
    assert (col < 10)%nat as Hcol by (apply lookup_lt_Some in Hh; lia).
    pose proof (Forall2_lookup_lr _ _ _ col col height Hrun
                  (lookup_seq_lt 0 10 col Hcol) Hh) as Hcolumn.
    cbv beta in Hcolumn.
    destruct (columnHeight_spec b col Hb Hcol 20 0) as (h & Hrun' & Hh');
      [done | intros; lia |].
    congruence.
  - apply mapM_None in Hrun. apply list.Exists_exists in Hrun as (col & Hin & Hnone).
    apply elem_of_seq in Hin.
    destruct (columnHeight_spec b col Hb) with (n := 20%nat) (start := 0%nat)
      as (h & Hrun' & _); [lia | done | intros; lia |].
    cbv beta in Hnone. congruence.
Qed.

(** X8. On a board of 20 rows of 10 cells [calculateSpectrum] returns ten
    heights; the height [h] of a column is at most 20, the cells of the
    column above its top [h] rows hold [0], and when [h] is not [0] the
    topmost of these [h] cells holds a block. *)
Theorem calculateSpectrum_heights b :
  boardOk b →
  ∃ spectrum, Game.calculateSpectrum b = Some spectrum
    ∧ length spectrum = 10%nat
    ∧ ∀ col height, spectrum !! col = Some height → heightOf b col height.
Proof. apply calculateSpectrum_spec. Qed.

Lemma fullRowsBoard_ok : boardOk Scenario.fullRowsBoard.
Proof. split; [reflexivity|]. by repeat constructor. Qed.

(** X8 at a board whose two bottom rows are full. *)
Lemma calculateSpectrum_of_two_full_rows :
  ∃ spectrum, Game.calculateSpectrum Scenario.fullRowsBoard = Some spectrum
    ∧ length spectrum = 10%nat
    ∧ ∀ col height, spectrum !! col = Some height →
        heightOf Scenario.fullRowsBoard col height.
Proof.
  apply (calculateSpectrum_heights Scenario.fullRowsBoard), fullRowsBoard_ok.
Defined.

(** X9. After [n] penalty lines, [n] at most 20, on a board of 20 rows of 10
    cells, [calculateSpectrum] returns ten heights that are all at least
    [n]. *)
Theorem penalty_rows_raise_spectrum b n :
  boardOk b → (n ≤ 20)%nat →
  ∃ spectrum,
    Game.calculateSpectrum (Game.addPenaltyLines b n) = Some spectrum
    ∧ length spectrum = 10%nat
    ∧ Forall (fun height => (n ≤ height ≤ 20)%nat) spectrum.
Proof.
  intros Hb Hn.
  destruct (calculateSpectrum_spec _ (addPenaltyLines_ok b n Hb))
    as (spectrum & Hrun & Hlen & Hheights).
  exists spectrum. split_and!; [done | done |].
  apply Forall_lookup. intros col height Hcol.
  destruct (Hheights col height Hcol) as (Hle & Habove & _). split; [|done].
  destruct (decide (n ≤ height)%nat) as [|Hlt]; [done|]. exfalso.
  assert (col < 10)%nat as Hc by (apply lookup_lt_Some in Hcol; lia).
  specialize (Habove (20 - n)%nat ltac:(lia)).
  rewrite cellAt_nat in Habove.
  rewrite (addPenaltyLines_bottom b n (proj1 Hb) Hn) in Habove.
  rewrite lookup_app_r in Habove by (rewrite length_drop, (proj1 Hb); lia).
  rewrite length_drop, (proj1 Hb) in Habove.
  rewrite lookup_replicate_2 in Habove by lia. cbn [mbind option_bind] in Habove.
  rewrite lookup_replicate_2 in Habove by lia. discriminate.
Qed.

(** X9 at two penalty lines on the empty board. *)
Lemma two_penalty_rows_raise_spectrum :
  ∃ spectrum,
    Game.calculateSpectrum (Game.addPenaltyLines Game.createEmptyBoard 2)
    = Some spectrum
    ∧ length spectrum = 10%nat
    ∧ Forall (fun height => (2 ≤ height ≤ 20)%nat) spectrum.
Proof.
  apply (penalty_rows_raise_spectrum Game.createEmptyBoard 2).
  - apply createEmptyBoard_ok.
  - lia.
Defined.

(** ** Steps of a game keep the seats *)

Lemma sameSeat_refl p : sameSeat p p.
Proof. by split_and!. Qed.

Lemma sameSeat_trans p1 p2 p3 : sameSeat p1 p2 → sameSeat p2 p3 → sameSeat p1 p3.
Proof.
  intros (? & ? & ? & ? & ? & ?) (? & ? & ? & ? & ? & ?).
  split_and!; try congruence. auto.
Qed.

Lemma keepsSeats_refl ids st : keepsSeats ids st st.
Proof.
  intros pid. split; [done|]. destruct (st !! pid) as [p|]; [|done].
  exists p. split; [done | apply sameSeat_refl].
Qed.

Lemma keepsSeats_trans ids st1 st2 st3 :
  keepsSeats ids st1 st2 → keepsSeats ids st2 st3 → keepsSeats ids st1 st3.
Proof.
  intros H12 H23 pid. destruct (H12 pid) as [Hout12 Hin12].
  destruct (H23 pid) as [Hout23 Hin23]. split.
  - intros Hpid. by rewrite Hout23, Hout12.
  - destruct (st1 !! pid) as [p1|].
    + destruct Hin12 as (p2 & Hp2 & Hs12). rewrite Hp2 in Hin23.
      destruct Hin23 as (p3 & Hp3 & Hs23). exists p3.
      split; [done | by apply (sameSeat_trans p1 p2 p3)].
    + by rewrite Hin12 in Hin23.
Qed.

Lemma keepsSeats_insert ids st pid p p' :
  st !! pid = Some p → pid ∈ ids → sameSeat p p' →
  keepsSeats ids st (<[pid := p']> st).
Proof.
  intros Hp Hin Hseat q. destruct (decide (pid = q)) as [<-|Hne].
  - rewrite lookup_insert_eq, Hp. split; [done | by exists p'].
  - rewrite lookup_insert_ne by done. apply keepsSeats_refl.
Qed.

Lemma gameStep_refl s : gameStep s s.
Proof. split_and!; [done | done | apply keepsSeats_refl]. Qed.

Lemma gameStep_trans s1 s2 s3 : gameStep s1 s2 → gameStep s2 s3 → gameStep s1 s3.
Proof.
  intros (Hp12 & Hr12 & Hk12) (Hp23 & Hr23 & Hk23). split_and!; [congruence..|].
  rewrite Hp12 in Hk23. by apply (keepsSeats_trans _ _ s2.2).
Qed.

(** A [forEach] over players of the roster whose body is a step of the game. *)
Lemma forEach_gameStep (f : Game.t * Store → string → option (Game.t * Store))
    (l : list string) :
  (∀ s a s', a ∈ Game.players s.1 → f s a = Some s' → gameStep s s') →
  ∀ s s', (∀ a, a ∈ l → a ∈ Game.players s.1) →
    forEach f l s = Some s' → gameStep s s'.
Proof.
  intros Hf. induction l as [|a l IH]; intros s s' Hl Hrun; simpl in Hrun.
  - injection Hrun as <-. apply gameStep_refl.
  - destruct (f s a) as [s1|] eqn:Hstep; cbn [mbind option_bind] in Hrun;
      [|discriminate].
    assert (gameStep s s1) as Hs1
      by (apply (Hf s a); [apply Hl, elem_of_cons; by left | done]).
    apply (gameStep_trans s s1 s'); [done|]. apply IH; [|done].
    intros b Hb. destruct Hs1 as [-> _]. apply Hl, elem_of_cons. by right.
Qed.

Lemma lockPiece_seat player locked :
  Game.lockPiece player = Some locked → sameSeat player locked.
Proof.
  unfold Game.lockPiece. intros H.
  destruct (Player.currentPiece player) as [c|]; [|discriminate].
  cbn [mbind option_bind] in H.
  destruct (Game.lockCells _ _ _) as [b'|]; [|discriminate].
  cbn [mbind option_bind] in H.
  destruct (Player.board player); injection H as <-; by split_and!.
Qed.

Lemma clearLines_seat player cleared k :
  Game.clearLines player = Some (cleared, k) → sameSeat player cleared.
Proof.
  unfold Game.clearLines. intros H.
  destruct (Player.board player) as [b|]; [|discriminate].
  cbn [mbind option_bind] in H.
  destruct (Game.clearLinesLoop _ _ _ _) as [[b' n]|]; [|discriminate].
  cbn [mbind option_bind] in H.
  destruct (decide (0 < n)%nat); injection H as <- <-; by split_and!.
Qed.

Lemma spawnNewPiece_seat g player g' spawned :
  Game.spawnNewPiece g player = Some (g', spawned) →
  sameSeat player spawned
  ∧ Game.players g' = Game.players g ∧ Game.roomName g' = Game.roomName g.
Proof.
  unfold Game.spawnNewPiece. intros H.
  destruct (Player.nextPiece player) as [n|]; [|discriminate].
  cbn [mbind option_bind] in H. injection H as <- <-. by split_and!.
Qed.

Lemma sameSeat_dead p p' : sameSeat p p' → sameSeat p (Player.set_isAlive false p').
Proof. intros (? & ? & ? & ? & ? & ?). by split_and!. Qed.

Lemma checkGameEnd_roomName g st :
  Game.roomName (Game.checkGameEnd g st) = Game.roomName g.
Proof. unfold Game.checkGameEnd. by destruct (decide _). Qed.

Lemma dropPiece_step g st pid s' :
  pid ∈ Game.players g → Game.dropPiece g st pid = Some s' → gameStep (g, st) s'.
Proof.
  unfold Game.dropPiece. intros Hin Hrun.
  destruct (st !! pid) as [player|] eqn:Hp; [|discriminate].
  cbn [mbind option_bind] in Hrun.
  destruct (Player.currentPiece player) as [c|];
    [|injection Hrun as <-; apply gameStep_refl].
  destruct (Game.isValidPosition _ _ _ _) as [[|]|]; [| |discriminate];
    cbn [mbind option_bind] in Hrun.
  { injection Hrun as <-. split_and!; [done | done |].
    by apply (keepsSeats_insert _ _ _ player). }
  destruct (Game.lockPiece player) as [locked|] eqn:Hlock; [|discriminate].
  cbn [mbind option_bind] in Hrun.
  destruct (Game.clearLines locked) as [[cleared k]|] eqn:Hclear; [|discriminate].
  cbn [mbind option_bind] in Hrun.
  destruct (Game.spawnNewPiece g cleared) as [[g1 spawned]|] eqn:Hspawn; [|discriminate].
  cbn [mbind option_bind] in Hrun.
  destruct (spawnNewPiece_seat _ _ _ _ Hspawn) as (Hseat & Hplayers & Hname).
  assert (sameSeat player spawned) as Hspawned.
  { apply (sameSeat_trans _ locked); [by apply lockPiece_seat|].
    apply (sameSeat_trans _ cleared); [by eapply clearLines_seat | done]. }
  destruct (Game.canSpawnPiece spawned) as [[|]|]; [| |discriminate];
    cbn [mbind option_bind negb] in Hrun; injection Hrun as <-.
  - split_and!; [done | done |]. by apply (keepsSeats_insert _ _ _ player).
  - split_and!; simpl.
    + by rewrite checkGameEnd_players.
    + by rewrite checkGameEnd_roomName.
    + apply (keepsSeats_insert _ _ _ player); [done | done | by apply sameSeat_dead].
Qed.

Lemma tick_step g st s' : Game.tick g st = Some s' → gameStep (g, st) s'.
Proof.
  unfold Game.tick. apply forEach_gameStep; [|done].
  intros [g1 st1] pid s1 Hin. unfold Game.dropIfAlive.
  destruct (st1 !! pid) as [player|]; [|discriminate]. cbn [mbind option_bind].
  destruct (Player.isAlive player); [by apply dropPiece_step|].
  intros [= <-]. apply gameStep_refl.
Qed.

Lemma movePiece_step ids st pid dir st' ok :
  pid ∈ ids → Game.movePiece st pid dir = Some (st', ok) → keepsSeats ids st st'.
Proof.
  unfold Game.movePiece. intros Hin Hrun.
  destruct (st !! pid) as [player|] eqn:Hp; [|discriminate].
  cbn [mbind option_bind] in Hrun.
  destruct (Player.currentPiece player) as [c|];
    [|injection Hrun as <- <-; apply keepsSeats_refl].
  destruct (negb (Player.isAlive player));
    [injection Hrun as <- <-; apply keepsSeats_refl|].
  destruct dir; try (injection Hrun as <- <-; apply keepsSeats_refl).
  all: destruct (Game.isValidPosition _ _ _ _) as [[|]|]; [| |discriminate];
    cbn [mbind option_bind] in Hrun; injection Hrun as <- <-;
    [|apply keepsSeats_refl].
  all: by apply (keepsSeats_insert _ _ _ player).
Qed.

Lemma rotatePiece_step ids st pid st' ok :
  pid ∈ ids → Game.rotatePiece st pid = Some (st', ok) → keepsSeats ids st st'.
Proof.
  unfold Game.rotatePiece. intros Hin Hrun.
  destruct (st !! pid) as [player|] eqn:Hp; [|discriminate].
  cbn [mbind option_bind] in Hrun.
  destruct (Player.currentPiece player) as [c|];
    [|injection Hrun as <- <-; apply keepsSeats_refl].
  destruct (negb (Player.isAlive player));
    [injection Hrun as <- <-; apply keepsSeats_refl|].
  destruct (Game.isValidPosition _ _ _ _) as [[|]|]; [| |discriminate];
    cbn [mbind option_bind] in Hrun; injection Hrun as <- <-;
    [|apply keepsSeats_refl].
  by apply (keepsSeats_insert _ _ _ player).
Qed.

Lemma hardDrop_step g st pid g' st' result :
  pid ∈ Game.players g → Game.hardDrop g st pid = Some (g', st', result) →
  gameStep (g, st) (g', st').
Proof.
  unfold Game.hardDrop. intros Hin Hrun.
  destruct (st !! pid) as [player|] eqn:Hp; [|discriminate].
  cbn [mbind option_bind] in Hrun.
  destruct (Player.currentPiece player) as [c|];
    [|injection Hrun as <- <- <-; apply gameStep_refl].
  destruct (negb (Player.isAlive player));
    [injection Hrun as <- <- <-; apply gameStep_refl|].
  destruct (Game.hardDropLoop _ _ _) as [dropped|]; [|discriminate].
  cbn [mbind option_bind] in Hrun.
  destruct (Game.lockPiece _) as [locked|] eqn:Hlock; [|discriminate].
  cbn [mbind option_bind] in Hrun.
  destruct (Game.clearLines locked) as [[cleared k]|] eqn:Hclear; [|discriminate].
  cbn [mbind option_bind] in Hrun.
  destruct (Game.spawnNewPiece g cleared) as [[g1 spawned]|] eqn:Hspawn; [|discriminate].
  cbn [mbind option_bind] in Hrun. injection Hrun as <- <- <-.
  destruct (spawnNewPiece_seat _ _ _ _ Hspawn) as (Hseat & Hplayers & Hname).
  split_and!; [done | done |]. apply (keepsSeats_insert _ _ _ player); [done | done |].
  apply (sameSeat_trans _ (Player.set_currentPiece (Some dropped) player));
    [by split_and!|].
  apply (sameSeat_trans _ locked); [by apply lockPiece_seat|].
  apply (sameSeat_trans _ cleared); [by eapply clearLines_seat | done].
Qed.

Lemma penalize_step clearingPlayer n g st pid s' :
  pid ∈ Game.players g →
  Game.penalize clearingPlayer n (g, st) pid = Some s' → gameStep (g, st) s'.
Proof.
  unfold Game.penalize. intros Hin Hrun.
  destruct (st !! pid) as [player|] eqn:Hp; [|discriminate].
  cbn [mbind option_bind] in Hrun.
  destruct (negb _ && _); [|injection Hrun as <-; apply gameStep_refl].
  destruct (Player.board player) as [b|]; [|discriminate].
  cbn [mbind option_bind] in Hrun.
  destruct (Game.canSpawnPiece _) as [[|]|]; [| |discriminate];
    cbn [mbind option_bind negb] in Hrun; injection Hrun as <-.
  - split_and!; [done | done |].
    apply (keepsSeats_insert _ _ _ player); [done | done | by split_and!].
  - split_and!; simpl.
    + by rewrite checkGameEnd_players.
    + by rewrite checkGameEnd_roomName.
    + apply (keepsSeats_insert _ _ _ player); [done | done | by split_and!].
Qed.

Lemma addPenaltyLinesToOthers_step g st clearingPlayer n s' :
  Game.addPenaltyLinesToOthers g st clearingPlayer n = Some s' →
  gameStep (g, st) s'.
Proof.
  unfold Game.addPenaltyLinesToOthers. apply forEach_gameStep; [|done].
  intros [g1 st1] pid s1 Hin. by apply penalize_step.
Qed.

Lemma dropAndPenalize_step g st pid s' :
  pid ∈ Game.players g →
  GameManager.dropAndPenalize g st pid = Some s' → gameStep (g, st) s'.
Proof.
  unfold GameManager.dropAndPenalize. intros Hin Hrun.
  destruct (Game.hardDrop g st pid) as [[[g1 st1] result]|] eqn:Hdrop; [|discriminate].
  cbn [mbind option_bind] in Hrun.
  pose proof (hardDrop_step _ _ _ _ _ _ Hin Hdrop) as Hstep.
  destruct result as [k|]; [|injection Hrun as <-; apply gameStep_refl].
  destruct (decide (0 < k)%nat); [|by injection Hrun as <-].
  apply (gameStep_trans _ (g1, st1)); [done|].
  by apply (addPenaltyLinesToOthers_step _ _ _ _ _ Hrun).
Qed.

Lemma distributePieces_step g ids : ∀ st st',
  forEach (Game.dealTo g) ids st = Some st' → keepsSeats ids st st'.
Proof.
  induction ids as [|a ids IH]; intros st st' Hrun; simpl in Hrun.
  - injection Hrun as <-. apply keepsSeats_refl.
  - destruct (Game.dealTo g st a) as [st1|] eqn:Hdeal;
      cbn [mbind option_bind] in Hrun; [|discriminate].
    unfold Game.dealTo in Hdeal.
    destruct (st !! a) as [pa|] eqn:Ha; cbn [mbind option_bind] in Hdeal;
      [|discriminate].
    injection Hdeal as <-.
    apply (keepsSeats_trans _ _ (<[a := Game.deal g pa]> st)).
    + apply (keepsSeats_insert _ _ _ pa); [done | apply elem_of_cons; by left|].
      by split_and!.
    + intros pid. destruct (IH _ _ Hrun pid) as [Hout Hin]. split; [|done].
      intros Hpid. apply Hout. intros ?. apply Hpid, elem_of_cons. by right.
Qed.

Lemma start_step sort g st s' :
  Game.start sort g st = Some s' → gameStep (g, st) s'.
Proof.
  unfold Game.start, Game.distributePieces. intros Hrun.
  destruct (forEach _ _ _) as [st'|] eqn:Hdeal; cbn [mbind option_bind] in Hrun;
    [|discriminate].
  injection Hrun as <-. split_and!; [done | done |].
  by apply (distributePieces_step _ _ _ _ Hdeal).
Qed.

(** ** Moves and rotations *)



(** ** The start of a game *)

Lemma deal_deal g p : Game.deal g (Game.deal g p) = Game.deal g p.
Proof. reflexivity. Qed.

Lemma distributePieces_deals g ids : ∀ st st',
  forEach (Game.dealTo g) ids st = Some st' →
  ∀ pid, pid ∈ ids →
    ∃ p, st !! pid = Some p ∧ st' !! pid = Some (Game.deal g p).
Proof.
  induction ids as [|a ids IH]; intros st st' Hrun pid Hin.
  - by apply elem_of_nil in Hin.
  - simpl in Hrun.
    destruct (Game.dealTo g st a) as [st1|] eqn:Hdeal;
      cbn [mbind option_bind] in Hrun; [|discriminate].
    unfold Game.dealTo in Hdeal.
    destruct (st !! a) as [pa|] eqn:Ha; cbn [mbind option_bind] in Hdeal;
      [|discriminate].
    injection Hdeal as <-.
    destruct (decide (pid ∈ ids)) as [Hids|Hnot].
    + destruct (IH _ _ Hrun pid Hids) as (p1 & Hp1 & Hp').
      destruct (decide (a = pid)) as [->|Hne].
      * rewrite lookup_insert_eq in Hp1. injection Hp1 as <-.
        exists pa. by rewrite Hp', deal_deal.
      * rewrite lookup_insert_ne in Hp1 by done. by exists p1.
    + apply elem_of_cons in Hin as [->|Hin]; [|done]. exists pa. split; [done|].
      destruct (distributePieces_step _ _ _ _ Hrun a) as [Hout _].
      by rewrite (Hout Hnot), lookup_insert_eq.
Qed.

(** X11. [start] sets the game playing and keeps its roster and its piece
    index (a restart goes on from the index of the game before); every
    player of the roster gets the same current piece and the same next piece
    (the kinds at the index and after it in the new sequence), the empty
    board, score 0 and line count 0, and keeps its alive flag (a dead player
    is not revived) and its host flag; the other players are left as they
    are. *)
Theorem start_deals_the_same_pieces sort g st g' st' :
  Game.start sort g st = Some (g', st') →
  Game.status g' = playing
  ∧ Game.players g' = Game.players g
  ∧ Game.currentPieceIndex g' = Game.currentPieceIndex g
  ∧ (∀ pid, pid ∈ Game.players g →
       ∃ p p', st !! pid = Some p ∧ st' !! pid = Some p'
         ∧ Player.currentPiece p'
           = Some (Piece.new (Game.pieceAt g' (Game.currentPieceIndex g)))
         ∧ Player.nextPiece p'
           = Some (Piece.new (Game.pieceAt g' (Game.currentPieceIndex g + 1)))
         ∧ Player.board p' = Some Game.createEmptyBoard
         ∧ Player.score p' = 0%nat ∧ Player.linesCleared p' = 0%nat
         ∧ Player.isAlive p' = Player.isAlive p
         ∧ Player.isHost p' = Player.isHost p)
  ∧ (∀ pid, pid ∉ Game.players g → st' !! pid = st !! pid).
Proof.
  unfold Game.start, Game.distributePieces. intros Hrun.
  destruct (forEach _ _ _) as [st1|] eqn:Hdeal; cbn [mbind option_bind] in Hrun;
    [|discriminate].
  injection Hrun as <- <-. split_and!; try done.
  - intros pid Hin.
    destruct (distributePieces_deals _ _ _ _ Hdeal pid Hin) as (p & Hp & Hp').
    exists p, (Game.deal (Game.generatePieceSequence sort (Game.set_status playing g)) p).
    by split_and!.
  - intros pid Hnot. by destruct (distributePieces_step _ _ _ _ Hdeal pid) as [-> _].
Qed.

(** X11 at the start of the two-player room. *)
Lemma start_of_two_player_room :
  Game.status Scenario.dealtRoom.1 = playing
  ∧ Game.players Scenario.dealtRoom.1 = Game.players Scenario.room
  ∧ Game.currentPieceIndex Scenario.dealtRoom.1
    = Game.currentPieceIndex Scenario.room
  ∧ (∀ pid, pid ∈ Game.players Scenario.room →
       ∃ p p', Scenario.roster !! pid = Some p
         ∧ Scenario.dealtRoom.2 !! pid = Some p'
         ∧ Player.currentPiece p'
           = Some (Piece.new (Game.pieceAt Scenario.dealtRoom.1
                                (Game.currentPieceIndex Scenario.room)))
         ∧ Player.nextPiece p'
           = Some (Piece.new (Game.pieceAt Scenario.dealtRoom.1
                                (Game.currentPieceIndex Scenario.room + 1)))
         ∧ Player.board p' = Some Game.createEmptyBoard
         ∧ Player.score p' = 0%nat ∧ Player.linesCleared p' = 0%nat
         ∧ Player.isAlive p' = Player.isAlive p
         ∧ Player.isHost p' = Player.isHost p)
  ∧ (∀ pid, pid ∉ Game.players Scenario.room →
       Scenario.dealtRoom.2 !! pid = Scenario.roster !! pid).
Proof.
  apply (start_deals_the_same_pieces Scenario.identitySort Scenario.room
           Scenario.roster Scenario.dealtRoom.1 Scenario.dealtRoom.2).
  vm_compute. reflexivity.
Defined.

(** ** What penalty lines leave alone *)

Lemma sparing_refl c st : sparing c st st.
Proof.
  split; [done|]. intros q. destruct (st !! q) as [p|]; [|done].
  exists p. split_and!; [done | done | by destruct p].
Qed.

Lemma sparing_trans c st1 st2 st3 :
  sparing c st1 st2 → sparing c st2 st3 → sparing c st1 st3.
Proof.
  intros [Hc12 H12] [Hc23 H23]. split; [congruence|]. intros q.
  specialize (H12 q). specialize (H23 q).
  destruct (st1 !! q) as [p1|]; [|by rewrite H12 in H23].
  destruct H12 as (p2 & Hp2 & Hdead12 & Hsame12). rewrite Hp2 in H23.
  destruct H23 as (p3 & Hp3 & Hdead23 & Hsame23). exists p3. split_and!; [done | |].
  - intros Hdead. pose proof (Hdead12 Hdead) as ->. by apply Hdead23.
  - rewrite <- Hsame12 at 3. rewrite <- Hsame23. by destruct p1, p2, p3.
Qed.

Lemma penalize_sparing c n g st pid s' :
  Game.penalize c n (g, st) pid = Some s' → sparing c st s'.2.
Proof.
  unfold Game.penalize. intros Hrun.
  destruct (st !! pid) as [player|] eqn:Hp; [|discriminate].
  cbn [mbind option_bind] in Hrun.
  destruct (bool_decide (pid = c)) eqn:Hpid; cbn [negb andb] in Hrun;
    [injection Hrun as <-; apply sparing_refl|].
  apply bool_decide_eq_false in Hpid.
  destruct (Player.isAlive player) eqn:Halive;
    [|injection Hrun as <-; apply sparing_refl].
  destruct (Player.board player) as [b|]; [|discriminate].
  cbn [mbind option_bind] in Hrun.
  assert (∀ p', Player.set_isAlive (Player.isAlive player)
                  (Player.set_board (Player.board player) p') = player →
            sparing c st (<[pid := p']> st)) as Hins.
  { intros p' Hsame. split; [by rewrite lookup_insert_ne|]. intros q.
    destruct (decide (pid = q)) as [<-|Hne].
    - rewrite Hp, lookup_insert_eq. exists p'. split_and!; [done | congruence | done].
    - rewrite lookup_insert_ne by done. destruct (st !! q) as [p|]; [|done].
      exists p. split_and!; [done | done | by destruct p]. }
  destruct (Game.canSpawnPiece _) as [[|]|]; [| |discriminate];
    cbn [mbind option_bind negb] in Hrun; injection Hrun as <-; apply Hins;
    by destruct player.
Qed.

Lemma forEach_sparing c n ids : ∀ s s',
  forEach (Game.penalize c n) ids s = Some s' → sparing c s.2 s'.2.
Proof.
  induction ids as [|a ids IH]; intros [g st] s' Hrun.
  - simpl in Hrun. injection Hrun as <-. apply sparing_refl.
  - rewrite forEach_cons in Hrun.
    destruct (Game.penalize c n (g, st) a) as [s1|] eqn:Hstep;
      cbn [mbind option_bind] in Hrun; [|discriminate].
    apply (sparing_trans c st s1.2); [by apply (penalize_sparing c n g st a)|].
    by apply IH.
Qed.

(** X12. [addPenaltyLinesToOthers] changes nothing in the player who cleared
    the lines and nothing in a dead player; in every player it leaves the
    score, the line count, the pieces and the host flag as they were; no
    player comes or goes, and the roster stays. *)
Theorem penalties_spare_sender_and_dead g st clearingPlayer penaltyLines g' st' :
  Game.addPenaltyLinesToOthers g st clearingPlayer penaltyLines = Some (g', st') →
  st' !! clearingPlayer = st !! clearingPlayer
  ∧ (∀ q p, st !! q = Some p → Player.isAlive p = false → st' !! q = Some p)
  ∧ (∀ q p, st !! q = Some p →
       ∃ p', st' !! q = Some p'
         ∧ Player.score p' = Player.score p
         ∧ Player.linesCleared p' = Player.linesCleared p
         ∧ Player.currentPiece p' = Player.currentPiece p
         ∧ Player.nextPiece p' = Player.nextPiece p
         ∧ Player.isHost p' = Player.isHost p)
  ∧ (∀ q, st !! q = None → st' !! q = None)
  ∧ Game.players g' = Game.players g.
Proof.
  intros Hrun. pose proof (addPenaltyLinesToOthers_step _ _ _ _ _ Hrun) as (Hplayers & _).
  unfold Game.addPenaltyLinesToOthers in Hrun.
  destruct (forEach_sparing _ _ _ _ _ Hrun) as [Hsender Hall]. simpl in *.
  split_and!; [done | | | | done].
  - intros q p Hp Hdead. specialize (Hall q). rewrite Hp in Hall.
    destruct Hall as (p' & Hp' & Hsame & _). by rewrite Hp', (Hsame Hdead).
  - intros q p Hp. specialize (Hall q). rewrite Hp in Hall.
    destruct Hall as (p' & Hp' & _ & Hsame). exists p'. split; [done|].
    rewrite <- Hsame. by destruct p'.
  - intros q Hq. specialize (Hall q). by rewrite Hq in Hall.
Qed.

(** X12 at one penalty line from [A] in the game just started. *)
Lemma first_penalty_spares_sender_and_dead :
  Scenario.penalized.2 !! "A" = Scenario.dealtRoom.2 !! "A"
  ∧ (∀ q p, Scenario.dealtRoom.2 !! q = Some p → Player.isAlive p = false →
       Scenario.penalized.2 !! q = Some p)
  ∧ (∀ q p, Scenario.dealtRoom.2 !! q = Some p →
       ∃ p', Scenario.penalized.2 !! q = Some p'
         ∧ Player.score p' = Player.score p
         ∧ Player.linesCleared p' = Player.linesCleared p
         ∧ Player.currentPiece p' = Player.currentPiece p
         ∧ Player.nextPiece p' = Player.nextPiece p
         ∧ Player.isHost p' = Player.isHost p)
  ∧ (∀ q, Scenario.dealtRoom.2 !! q = None → Scenario.penalized.2 !! q = None)
  ∧ Game.players Scenario.penalized.1 = Game.players Scenario.dealtRoom.1.
Proof.
  apply (penalties_spare_sender_and_dead Scenario.dealtRoom.1
           Scenario.dealtRoom.2 "A" 1 Scenario.penalized.1 Scenario.penalized.2).
  vm_compute. reflexivity.
Defined.

(** ** The registry stays well formed *)

Lemma registryOk_empty : registryOk GameManager.empty.
Proof.
  constructor; simpl; intros *; try (rewrite lookup_empty; done).
  by intros ?%elem_of_nil.
Qed.

Lemma keepsSeats_back ids st st' pid p' :
  keepsSeats ids st st' → st' !! pid = Some p' →
  ∃ p, st !! pid = Some p ∧ sameSeat p p'.
Proof.
  intros Hk Hp'. destruct (Hk pid) as [_ Hin].
  destruct (st !! pid) as [p|]; [|congruence].
  destruct Hin as (p0 & Hp0 & Hseat). exists p. split; [done | congruence].
Qed.

Lemma allAt_agree Q ids (st st' : Store) :
  (∀ pid, pid ∈ ids → st' !! pid = st !! pid) → allAt Q ids st → allAt Q ids st'.
Proof. intros Hagree Hall pid Hin. rewrite (Hagree pid Hin). by apply Hall. Qed.

Lemma roomOk_agree g (st st' : Store) :
  (∀ pid, pid ∈ Game.players g → st' !! pid = st !! pid) →
  roomOk (g, st) → roomOk (g, st').
Proof.
  intros Hagree (Hnd & Hseated & Hplaying). split_and!; simpl in *.
  - done.
  - by apply (allAt_agree _ _ st).
  - intros Hplay. by apply (allAt_agree _ _ st), Hplaying.
Qed.

(** The registry after a step of the game of one room. *)
Lemma registryOk_step m rn g g' st' games' :
  registryOk m → GameManager.games m !! rn = Some g →
  gameStep (g, GameManager.players m) (g', st') → roomOk (g', st') →
  games' !! rn = Some g' →
  (∀ r, r ≠ rn → games' !! r = GameManager.games m !! r) →
  registryOk (GameManager.mk games' st' (GameManager.socketToRoom m)
                (GameManager.dbPlayers m)).
Proof.
  intros Hm Hg (Hplayers & Hname & Hkeep) Hroom Hg' Hother. simpl in *.
  assert (∀ r g2, games' !! r = Some g2 →
            ∃ g1, GameManager.games m !! r = Some g1
              ∧ Game.players g2 = Game.players g1
              ∧ Game.roomName g2 = Game.roomName g1
              ∧ (r = rn → g1 = g ∧ g2 = g') ∧ (r ≠ rn → g2 = g1)) as Hgames.
  { intros r g2 Hg2. destruct (decide (r = rn)) as [->|Hne].
    - exists g. rewrite Hg' in Hg2. injection Hg2 as <-. by split_and!.
    - exists g2. rewrite Hother in Hg2 by done. by split_and!. }
  constructor; simpl.
  - intros s p' Hp'. destruct (keepsSeats_back _ _ _ _ _ Hkeep Hp')
      as (p & Hp & (Hid & _ & Hrn & _ & Hsp & _)).
    destruct (reg_player m Hm s p Hp) as (? & ? & Hzero).
    split_and!; [congruence | congruence | by rewrite Hsp, Hzero].
  - intros s r Hs. destruct (reg_socket m Hm s r Hs) as ([p Hp] & g1 & Hg1 & Hin).
    split.
    + destruct (Hkeep s) as [_ Hk]. rewrite Hp in Hk.
      destruct Hk as (p' & -> & _). by eexists.
    + destruct (decide (r = rn)) as [->|Hne].
      * exists g'. split; [done|]. rewrite Hplayers. congruence.
      * exists g1. by rewrite Hother.
  - intros r g2 Hg2. destruct (Hgames r g2 Hg2) as (g1 & Hg1 & Hp21 & Hn21 & Heq & Hne).
    destruct (reg_game m Hm r g1 Hg1) as (Hrn & Hok & Hmem).
    split_and!; [congruence | | intros s Hs; apply Hmem; congruence].
    destruct (decide (r = rn)) as [->|Hr].
    + destruct (Heq eq_refl) as [-> ->]. done.
    + rewrite (Hne Hr). apply (roomOk_agree _ (GameManager.players m)); [|done].
      intros s Hs. destruct (Hkeep s) as [Hout _]. apply Hout. intros Hs'.
      destruct (reg_game m Hm rn g Hg) as (_ & _ & Hmem').
      specialize (Hmem' s Hs'). rewrite (Hmem s Hs) in Hmem'. congruence.
  - intros s p' Hp'. destruct (keepsSeats_back _ _ _ _ _ Hkeep Hp')
      as (p & Hp & (_ & Hnm & Hrn & _)).
    destruct (reg_row m Hm s p Hp) as (row & ? & ? & ? & ?).
    exists row. split_and!; congruence.
  - intros row Hrow. destruct (reg_row_player m Hm row Hrow) as (p & Hp & Hn & Hr).
    destruct (Hkeep (GameManager.socket_id row)) as [_ Hk]. rewrite Hp in Hk.
    destruct Hk as (p' & -> & (_ & Hn' & Hr' & _)). exists p'.
    split_and!; congruence.
  - intros r g2 s1 p1' Hg2 Hs1 Hp1' Hh1.
    destruct (Hgames r g2 Hg2) as (g1 & Hg1 & Hp21 & _).
    destruct (keepsSeats_back _ _ _ _ _ Hkeep Hp1') as (p1 & Hp1 & (_ & _ & _ & Hhost1 & _)).
    rewrite Hp21. apply (reg_host m Hm r g1 s1 p1); congruence.
  - intros s1 s2 p1' p2' Hp1' Hp2' Hroom' Hname'.
    destruct (keepsSeats_back _ _ _ _ _ Hkeep Hp1') as (p1 & Hp1 & (_ & Hn1 & Hr1 & _)).
    destruct (keepsSeats_back _ _ _ _ _ Hkeep Hp2') as (p2 & Hp2 & (_ & Hn2 & Hr2 & _)).
    apply (reg_name m Hm s1 s2 p1 p2); congruence.
Qed.

Lemma playingGame_Some m socket roomName game :
  GameManager.playingGame m socket = Some (roomName, game) →
  GameManager.socketToRoom m !! socket = Some roomName
  ∧ GameManager.games m !! roomName = Some game
  ∧ Game.status game = playing.
Proof.
  unfold GameManager.playingGame. intros H.
  destruct (GameManager.socketToRoom m !! socket) as [rn|] eqn:Hrn; [|discriminate].
  cbn [mbind option_bind] in H.
  destruct (GameManager.games m !! rn) as [g|] eqn:Hg; [|discriminate].
  cbn [mbind option_bind] in H.
  destruct (Game.status g) eqn:Hstatus; try discriminate.
  destruct (GameManager.players m !! socket); [|discriminate].
  cbn [mbind option_bind] in H. by injection H as <- <-.
Qed.

(** The room of a socket whose command reaches a game. *)
Lemma playingGame_room m socket roomName game :
  registryOk m → GameManager.playingGame m socket = Some (roomName, game) →
  GameManager.games m !! roomName = Some game
  ∧ Game.status game = playing
  ∧ socket ∈ Game.players game
  ∧ roomOk (game, GameManager.players m).
Proof.
  intros Hm H. destruct (playingGame_Some _ _ _ _ H) as (Hroom & Hgame & Hstatus).
  destruct (reg_socket m Hm _ _ Hroom) as (_ & g & Hg & Hin).
  assert (g = game) as -> by congruence.
  destruct (reg_game m Hm _ _ Hgame) as (_ & Hok & _). done.
Qed.

Lemma movePiece_registry m socket dir :
  registryOk m →
  ∃ m', GameManager.movePiece m socket dir = Some m' ∧ registryOk m'.
Proof.
  intros Hm. unfold GameManager.movePiece.
  destruct (GameManager.playingGame m socket) as [[rn game]|] eqn:Hplay; [|by eauto].
  destruct (playingGame_room _ _ _ _ Hm Hplay) as (Hgame & Hstatus & Hin & Hroom).
  destruct (exec_roomOk (MovePiece socket dir) game _ Hroom Hin) as (s' & Hexec & Hroom').
  simpl in Hexec. rewrite Hstatus in Hexec.
  destruct (Game.movePiece _ _ _) as [[st' ok]|] eqn:Hmove; [|discriminate].
  cbn [mbind option_bind] in Hexec |- *. injection Hexec as <-.
  eexists. split; [reflexivity|].
  apply (registryOk_step m rn game game st'); try done.
  split_and!; [done | done |]. by apply (movePiece_step _ _ _ _ _ _ Hin Hmove).
Qed.

Lemma rotatePiece_registry m socket :
  registryOk m →
  ∃ m', GameManager.rotatePiece m socket = Some m' ∧ registryOk m'.
Proof.
  intros Hm. unfold GameManager.rotatePiece.
  destruct (GameManager.playingGame m socket) as [[rn game]|] eqn:Hplay; [|by eauto].
  destruct (playingGame_room _ _ _ _ Hm Hplay) as (Hgame & Hstatus & Hin & Hroom).
  destruct (exec_roomOk (RotatePiece socket) game _ Hroom Hin) as (s' & Hexec & Hroom').
  simpl in Hexec. rewrite Hstatus in Hexec.
  destruct (Game.rotatePiece _ _) as [[st' ok]|] eqn:Hmove; [|discriminate].
  cbn [mbind option_bind] in Hexec |- *. injection Hexec as <-.
  eexists. split; [reflexivity|].
  apply (registryOk_step m rn game game st'); try done.
  split_and!; [done | done |]. by apply (rotatePiece_step _ _ _ _ _ Hin Hmove).
Qed.

Lemma hardDrop_registry m socket :
  registryOk m →
  ∃ m', GameManager.hardDrop m socket = Some m' ∧ registryOk m'.
Proof.
  intros Hm. unfold GameManager.hardDrop.
  destruct (GameManager.playingGame m socket) as [[rn game]|] eqn:Hplay; [|by eauto].
  destruct (playingGame_room _ _ _ _ Hm Hplay) as (Hgame & Hstatus & Hin & Hroom).
  destruct (exec_roomOk (HardDrop socket) game _ Hroom Hin) as ([g' st'] & Hexec & Hroom').
  simpl in Hexec. rewrite Hstatus in Hexec. rewrite Hexec.
  cbn [mbind option_bind]. eexists. split; [reflexivity|].
  apply (registryOk_step m rn game g' st'); try done.
  - by apply (dropAndPenalize_step game _ socket).
  - apply lookup_insert_eq.
  - intros r Hr. by rewrite lookup_insert_ne.
Qed.

Lemma interval_registry m roomName :
  registryOk m →
  ∃ m', fire m roomName = Some m' ∧ registryOk m'.
Proof.
  intros Hm. unfold fire.
  destruct (GameManager.games m !! roomName) as [game|] eqn:Hgame; [|by eauto].
  destruct (reg_game m Hm _ _ Hgame) as (_ & Hroom & _).
  destruct (tick_roomOk game _ Hroom) as ([g' st'] & Hexec & Hroom').
  rewrite Hexec. cbn [mbind option_bind]. eexists. split; [reflexivity|].
  apply (registryOk_step m roomName game g' st'); try done.
  - by apply tick_step.
  - apply lookup_insert_eq.
  - intros r Hr. by rewrite lookup_insert_ne.
Qed.

Lemma startGame_registry sort m socket roomName :
  registryOk m →
  ∃ m' r, GameManager.startGame sort m socket roomName = Some (m', r)
    ∧ registryOk m'.
Proof.
  intros Hm. unfold GameManager.startGame.
  destruct (GameManager.games m !! roomName) as [game|] eqn:Hgame; [|by eauto].
  destruct (GameManager.players m !! socket) as [player|]; [|by eauto].
  destruct (negb (Player.isHost player)); [by eauto|].
  destruct (decide _); [by eauto|].
  destruct (reg_game m Hm _ _ Hgame) as (_ & Hroom & _).
  destruct (exec_roomOk (Start sort) game _ Hroom I) as ([g' st'] & Hexec & Hroom').
  simpl in Hexec. rewrite Hexec. cbn [mbind option_bind].
  eexists _, _. split; [reflexivity|].
  apply (registryOk_step m roomName game g' st'); try done.
  - by apply (start_step sort).
  - apply lookup_insert_eq.
  - intros r Hr. by rewrite lookup_insert_ne.
Qed.

(** Registering the game of a room that has none. *)
Lemma registryOk_register m rn games' :
  registryOk m → GameManager.games m !! rn = None →
  games' !! rn = Some (Game.new rn) →
  (∀ r, r ≠ rn → games' !! r = GameManager.games m !! r) →
  registryOk (GameManager.mk games' (GameManager.players m)
                (GameManager.socketToRoom m) (GameManager.dbPlayers m)).
Proof.
  intros Hm Hnone Hnew Hother.
  assert (∀ r g, games' !! r = Some g →
            (r = rn ∧ g = Game.new rn) ∨ (r ≠ rn ∧ GameManager.games m !! r = Some g))
    as Hgames.
  { intros r g Hg. destruct (decide (r = rn)) as [->|Hne].
    - left. split; [done | congruence].
    - right. split; [done|]. by rewrite <- Hother. }
  constructor; cbn [GameManager.games GameManager.players GameManager.socketToRoom
                    GameManager.dbPlayers].
  - apply (reg_player m Hm).
  - intros s r Hs. destruct (reg_socket m Hm s r Hs) as (Hp & g & Hg & Hin).
    split; [done|]. exists g. split; [|done].
    rewrite Hother; [done|]. intros ->. congruence.
  - intros r g Hg. destruct (Hgames r g Hg) as [[-> ->] | [Hne Hg1]].
    + split_and!; [done | | by intros s ?%elem_of_nil].
      split_and!; simpl; [apply NoDup_nil_2 | by intros s ?%elem_of_nil | done].
    + by apply (reg_game m Hm).
  - apply (reg_row m Hm).
  - apply (reg_row_player m Hm).
  - intros r g s1 p1 Hg. destruct (Hgames r g Hg) as [[-> ->] | [Hne Hg1]].
    + by intros ?%elem_of_nil.
    + by apply (reg_host m Hm r g).
  - apply (reg_name m Hm).
Qed.

Lemma existsb_false {A} (f : A → bool) (l : list A) :
  existsb f l = false → ∀ x, x ∈ l → f x = false.
Proof.
  intros H x Hx. destruct (f x) eqn:E; [|done].
  assert (existsb f l = true) as Ht
    by (apply existsb_exists; exists x; split; [by apply list_elem_of_In | done]).
  congruence.
Qed.

(** A new socket takes a seat in the game of a room. *)
Lemma registryOk_seat m rn game socket playerName games' :
  registryOk m → GameManager.games m !! rn = Some game →
  Game.status game ≠ playing →
  existsb (fun p => bool_decide (GameManager.player_name p = playerName))
    (GameManager.getPlayersInRoom m rn) = false →
  existsb (fun r => bool_decide (GameManager.socket_id r = socket))
    (GameManager.dbPlayers m) = false →
  games' !! rn = Some (Game.addPlayer socket game) →
  (∀ r, r ≠ rn → games' !! r = GameManager.games m !! r) →
  let isHost := bool_decide (length (Game.players game) = 0%nat) in
  registryOk
    (GameManager.mk games'
       (<[socket := Player.new socket playerName rn isHost]> (GameManager.players m))
       (<[socket := rn]> (GameManager.socketToRoom m))
       (GameManager.dbPlayers m
        ++ [GameManager.mkRow socket playerName rn isHost])).
Proof.
  intros Hm Hgame Hstatus Hname Hrow Hnew Hother isHost.
  assert (GameManager.players m !! socket = None) as Hnop.
  { destruct (GameManager.players m !! socket) as [p|] eqn:Hp; [|done].
    destruct (reg_row m Hm _ _ Hp) as (row & Hin & Hid & _).
    pose proof (existsb_false _ _ Hrow row Hin) as Hf. simpl in Hf.
    by rewrite bool_decide_eq_true_2 in Hf. }
  assert (GameManager.socketToRoom m !! socket = None) as Hnos.
  { destruct (GameManager.socketToRoom m !! socket) as [r|] eqn:Hs; [|done].
    destruct (reg_socket m Hm _ _ Hs) as ([p Hp] & _). congruence. }
  assert (∀ r g, GameManager.games m !! r = Some g → socket ∉ Game.players g)
    as Hfree.
  { intros r g Hg Hin. destruct (reg_game m Hm r g Hg) as (_ & _ & Hmem).
    specialize (Hmem _ Hin). congruence. }
  destruct (reg_game m Hm rn game Hgame) as (Hrn & Hroom & Hmem).
  assert (∀ r g, games' !! r = Some g →
            (r = rn ∧ g = Game.addPlayer socket game)
            ∨ (r ≠ rn ∧ GameManager.games m !! r = Some g)) as Hgames.
  { intros r g Hg. destruct (decide (r = rn)) as [->|Hne].
    - left. split; [done | congruence].
    - right. split; [done|]. by rewrite <- Hother. }
  constructor; cbn [GameManager.games GameManager.players GameManager.socketToRoom
                    GameManager.dbPlayers].
  - intros s p. destruct (decide (socket = s)) as [<-|Hne].
    + rewrite !lookup_insert_eq. intros [= <-]. done.
    + rewrite !lookup_insert_ne by done. apply (reg_player m Hm).
  - intros s r. destruct (decide (socket = s)) as [<-|Hne].
    + rewrite !lookup_insert_eq. intros [= <-]. split; [by eexists|].
      exists (Game.addPlayer socket game). split; [exact Hnew|].
      cbn. apply elem_of_app. right. by apply list_elem_of_singleton.
    + rewrite !lookup_insert_ne by done. intros Hs.
      destruct (reg_socket m Hm s r Hs) as (Hp & g & Hg & Hin). split; [done|].
      destruct (decide (r = rn)) as [->|Hr].
      * exists (Game.addPlayer socket game). split; [exact Hnew|].
        cbn. apply elem_of_app. left. congruence.
      * exists g. by rewrite Hother.
  - intros r g Hg. destruct (Hgames r g Hg) as [[-> ->] | [Hne Hg1]].
    + split_and!; [done | |].
      * apply join_roomOk; [done | done | done | apply fresh_new].
      * cbn. intros s [Hs | ->%list_elem_of_singleton]%elem_of_app.
        -- rewrite lookup_insert_ne; [by apply Hmem|]. intros <-.
           by apply (Hfree rn game).
        -- apply lookup_insert_eq.
    + destruct (reg_game m Hm r g Hg1) as (? & Hok & Hmem'). split_and!; [done | |].
      * apply (roomOk_agree _ (GameManager.players m)); [|done].
        intros s Hs. rewrite lookup_insert_ne; [done|]. intros <-.
        by apply (Hfree r g).
      * intros s Hs. rewrite lookup_insert_ne; [by apply Hmem'|]. intros <-.
        by apply (Hfree r g).
  - intros s p. destruct (decide (socket = s)) as [<-|Hne].
    + rewrite lookup_insert_eq. intros [= <-].
      exists (GameManager.mkRow socket playerName rn isHost). split; [|done].
      apply elem_of_app. right. by apply list_elem_of_singleton.
    + rewrite lookup_insert_ne by done. intros Hp.
      destruct (reg_row m Hm s p Hp) as (row & Hin & Hrest). exists row.
      split; [|done]. apply elem_of_app. by left.
  - intros row [Hin | ->%list_elem_of_singleton]%elem_of_app.
    + rewrite lookup_insert_ne; [by apply (reg_row_player m Hm)|].
      intros Heq. pose proof (existsb_false _ _ Hrow row Hin) as Hf. simpl in Hf.
      by rewrite bool_decide_eq_true_2 in Hf.
    + cbn. rewrite lookup_insert_eq. by eexists.
  - intros r g s p Hg. destruct (Hgames r g Hg) as [[-> ->] | [Hne Hg1]].
    + cbn. intros Hs Hp Hh. destruct (decide (socket = s)) as [<-|Hns].
      * rewrite lookup_insert_eq in Hp. injection Hp as <-.
        cbn in Hh. unfold isHost in Hh. apply bool_decide_eq_true in Hh.
        by destruct (Game.players game).
      * rewrite lookup_insert_ne in Hp by done.
        apply elem_of_app in Hs as [Hs | Hs%list_elem_of_singleton]; [|congruence].
        pose proof (reg_host m Hm rn game s p Hgame Hs Hp Hh) as Hhead.
        by destruct (Game.players game).
    + intros Hs. rewrite lookup_insert_ne; [by apply (reg_host m Hm r g)|].
      intros <-. by apply (Hfree r g).
  - assert (∀ s p, GameManager.players m !! s = Some p →
              Player.roomName p = rn → Player.name p = playerName → False) as Hfresh.
    { intros s p Hp Hr Hn. destruct (reg_row m Hm s p Hp) as (row & Hin & _ & Hrn' & Hrr).
      assert (row ∈ GameManager.getPlayersInRoom m rn) as Hin'.
      { unfold GameManager.getPlayersInRoom. apply list_elem_of_filter. split; [congruence | done]. }
      pose proof (existsb_false _ _ Hname row Hin') as Hf. simpl in Hf.
      rewrite bool_decide_eq_true_2 in Hf by congruence. done. }
    intros s1 s2 p1 p2.
    destruct (decide (socket = s1)) as [<-|Hn1]; destruct (decide (socket = s2)) as [<-|Hn2];
      rewrite ?lookup_insert_eq, ?lookup_insert_ne by done; try done.
    + intros [= <-] Hp2 Hr Hn. cbn in Hr, Hn. exfalso. by apply (Hfresh s2 p2).
    + intros Hp1 [= <-] Hr Hn. cbn in Hr, Hn. exfalso. by apply (Hfresh s1 p1).
    + apply (reg_name m Hm).
Qed.

Lemma joinGame_registry m socket roomName playerName :
  registryOk m →
  registryOk (GameManager.joinGame m socket roomName playerName).1.
Proof.
  intros Hm. unfold GameManager.joinGame.
  destruct (existsb _ (GameManager.getPlayersInRoom m roomName)) eqn:Hname; [done|].
  set (game := default (Game.new roomName) (GameManager.games m !! roomName)).
  assert (registryOk
            (GameManager.mk (<[roomName := game]> (GameManager.games m))
               (GameManager.players m) (GameManager.socketToRoom m)
               (GameManager.dbPlayers m))) as Hm1.
  { unfold game. destruct (GameManager.games m !! roomName) as [g|] eqn:Hg; simpl.
    - destruct (reg_game m Hm _ _ Hg) as (_ & Hroom & _).
      apply (registryOk_step m roomName g g); try done.
      + apply gameStep_refl.
      + apply lookup_insert_eq.
      + intros r Hr. by rewrite lookup_insert_ne.
    - apply (registryOk_register m roomName); try done.
      + apply lookup_insert_eq.
      + intros r Hr. by rewrite lookup_insert_ne. }
  destruct (Game.status game) eqn:Hstatus; [| done |].
  all: destruct (existsb _ (GameManager.dbPlayers m)) eqn:Hrow; [done|].
  all: cbn [fst].
  all: apply (registryOk_seat
                (GameManager.mk (<[roomName := game]> (GameManager.games m))
                   (GameManager.players m) (GameManager.socketToRoom m)
                   (GameManager.dbPlayers m))
                roomName game socket playerName
                (<[roomName := Game.addPlayer socket game]> (GameManager.games m))
                Hm1);
    [apply lookup_insert_eq | congruence | exact Hname | exact Hrow
     | apply lookup_insert_eq
     | intros r Hr; cbn; by rewrite !lookup_insert_ne].
Qed.

Lemma removeFirst_other pid q l :
  q ∈ l → q ≠ pid → q ∈ Game.removeFirst pid l.
Proof.
  induction l as [|a l IH]; simpl; [done|].
  rewrite elem_of_cons. intros [-> | Hin] Hne.
  - rewrite decide_False by done. apply elem_of_cons. by left.
  - destruct (decide (a = pid)); [done|]. apply elem_of_cons. right. by apply IH.
Qed.

(** The registry once a socket has left its room. *)
Lemma registryOk_leave m s rn p game kept (st' : Store) games' :
  registryOk m →
  GameManager.socketToRoom m !! s = Some rn →
  GameManager.players m !! s = Some p →
  GameManager.games m !! rn = Some game →
  (st' = GameManager.players m
   ∨ (Player.isHost p = true
      ∧ ∃ h, head (Game.removeFirst s (Game.players game)) = Some h
          ∧ st' = alter (Player.set_isHost true) h (GameManager.players m))) →
  match kept with
  | None => Game.removeFirst s (Game.players game) = []
  | Some game' =>
      Game.players game' = Game.removeFirst s (Game.players game)
      ∧ Game.roomName game' = Game.roomName game
      ∧ roomOk (game', delete s st')
  end →
  games' !! rn = kept →
  (∀ r, r ≠ rn → games' !! r = GameManager.games m !! r) →
  registryOk
    (GameManager.mk games' (delete s st') (delete s (GameManager.socketToRoom m))
       (filter (fun r => GameManager.socket_id r ≠ s) (GameManager.dbPlayers m))).
Proof.
  intros Hm Hs Hp Hgame Hst Hkept Hrn Hother.
  destruct (reg_game m Hm rn game Hgame) as (Hname & (Hnd & _ & _) & Hmem).
  simpl in Hnd.
  destruct (reg_socket m Hm s rn Hs) as (_ & g0 & Hg0 & Hsin).
  assert (g0 = game) as -> by congruence.
  pose proof (removeFirst_gone s _ Hnd) as Hgone.
  (* what a lookup in the new store says about the old one *)
  assert (∀ q p', delete s st' !! q = Some p' →
            q ≠ s
            ∧ ∃ p0, GameManager.players m !! q = Some p0
                ∧ Player.id p' = Player.id p0 ∧ Player.name p' = Player.name p0
                ∧ Player.roomName p' = Player.roomName p0
                ∧ Player.spectrum p' = Player.spectrum p0
                ∧ (Player.isHost p' = true →
                   Player.isHost p0 = true
                   ∨ (Player.isHost p = true
                      ∧ head (Game.removeFirst s (Game.players game)) = Some q)))
    as Hback.
  { intros q p' Hq. destruct (decide (q = s)) as [->|Hne];
      [by rewrite lookup_delete_eq in Hq|].
    rewrite lookup_delete_ne in Hq by done. split; [done|].
    destruct Hst as [-> | (Hhost & h & Hh & ->)].
    - exists p'. split_and!; try done. by left.
    - destruct (decide (h = q)) as [->|Hhq].
      + rewrite lookup_alter_eq in Hq.
        destruct (GameManager.players m !! q) as [p0|]; [|discriminate].
        injection Hq as <-. exists p0. split_and!; try done. intros _. by right.
      + rewrite lookup_alter_ne in Hq by done. exists p'. split_and!; try done. by left. }
  assert (∀ q p0, q ≠ s → GameManager.players m !! q = Some p0 →
            ∃ p', delete s st' !! q = Some p'
              ∧ Player.name p' = Player.name p0
              ∧ Player.roomName p' = Player.roomName p0) as Hforth.
  { intros q p0 Hne Hp0. rewrite lookup_delete_ne by done.
    destruct Hst as [-> | (_ & h & _ & ->)]; [by exists p0|].
    destruct (decide (h = q)) as [->|Hhq].
    - rewrite lookup_alter_eq, Hp0. by eexists.
    - rewrite lookup_alter_ne by done. by exists p0. }
  assert (∀ r g, games' !! r = Some g →
            (r = rn ∧ kept = Some g) ∨ (r ≠ rn ∧ GameManager.games m !! r = Some g))
    as Hgames.
  { intros r g Hg. destruct (decide (r = rn)) as [->|Hne].
    - left. split; [done | congruence].
    - right. split; [done|]. by rewrite <- Hother. }
  assert (∀ r g q, r ≠ rn → GameManager.games m !! r = Some g → q ∈ Game.players g →
            q ≠ s ∧ q ∉ Game.players game) as Hapart.
  { intros r g q Hne Hg Hq. destruct (reg_game m Hm r g Hg) as (_ & _ & Hmem').
    specialize (Hmem' q Hq). split.
    - intros ->. congruence.
    - intros Hq'. specialize (Hmem q Hq'). congruence. }
  assert (∀ r g q, r ≠ rn → GameManager.games m !! r = Some g → q ∈ Game.players g →
            delete s st' !! q = GameManager.players m !! q) as Hsame.
  { intros r g q Hne Hg Hq. destruct (Hapart r g q Hne Hg Hq) as [Hqs Hqg].
    rewrite lookup_delete_ne by done.
    destruct Hst as [-> | (_ & h & Hh & ->)]; [done|].
    rewrite lookup_alter_ne; [done|]. intros ->.
    apply Hqg, (removeFirst_subset s).
    destruct (Game.removeFirst s (Game.players game)); [done|].
    injection Hh as ->. apply elem_of_cons. by left. }
  constructor; cbn [GameManager.games GameManager.players GameManager.socketToRoom
                    GameManager.dbPlayers].
  - intros q p' Hq. destruct (Hback q p' Hq) as (Hne & p0 & Hp0 & Hid & _ & Hr & Hsp & _).
    destruct (reg_player m Hm q p0 Hp0) as (? & ? & Hzero).
    rewrite lookup_delete_ne by done. split_and!; [congruence | congruence |].
    by rewrite Hsp, Hzero.
  - intros q r Hq. destruct (decide (q = s)) as [->|Hne];
      [by rewrite lookup_delete_eq in Hq|].
    rewrite lookup_delete_ne in Hq by done.
    destruct (reg_socket m Hm q r Hq) as (Hsome & g & Hg & Hin).
    split; [destruct Hsome as [p0 Hp0];
            destruct (Hforth q p0 Hne Hp0) as (p' & -> & _); by eexists|].
    destruct (decide (r = rn)) as [->|Hr].
    + assert (g = game) as -> by congruence.
      pose proof (removeFirst_other s q _ Hin Hne) as Hin1.
      destruct kept as [game'|].
      * exists game'. destruct Hkept as (-> & _). done.
      * rewrite Hkept in Hin1. by apply elem_of_nil in Hin1.
    + exists g. by rewrite Hother.
  - intros r g Hg. destruct (Hgames r g Hg) as [[-> ->] | [Hne Hg1]].
    + destruct Hkept as (Hroster & Hn & Hok). split_and!; [congruence | done |].
      intros q Hq. rewrite Hroster in Hq.
      rewrite lookup_delete_ne; [by apply Hmem, (removeFirst_subset s)|].
      intros <-. done.
    + destruct (reg_game m Hm r g Hg1) as (? & Hok & Hmem'). split_and!; [done | |].
      * apply (roomOk_agree _ (GameManager.players m)); [|done].
        intros q Hq. by apply (Hsame r g).
      * intros q Hq. destruct (Hapart r g q Hne Hg1 Hq) as [Hqs _].
        rewrite lookup_delete_ne by done. by apply Hmem'.
  - intros q p' Hq. destruct (Hback q p' Hq) as (Hne & p0 & Hp0 & _ & Hn & Hr & _).
    destruct (reg_row m Hm q p0 Hp0) as (row & Hin & Hid & Hrn' & Hrr).
    exists row. split_and!; [|done|congruence|congruence].
    apply list_elem_of_filter. split; [congruence | done].
  - intros row [Hne Hin]%list_elem_of_filter.
    destruct (reg_row_player m Hm row Hin) as (p0 & Hp0 & Hn0 & Hr0).
    destruct (Hforth _ p0 Hne Hp0) as (p' & Hp' & Hn' & Hr').
    exists p'. split_and!; congruence.
  - intros r g s1 p1 Hg Hs1 Hp1 Hh1.
    destruct (Hgames r g Hg) as [[-> ->] | [Hne Hg1]].
    + destruct Hkept as (Hroster & _). rewrite Hroster in Hs1 |- *.
      destruct (Hback s1 p1 Hp1) as (Hn1 & q1 & Hq1 & _ & _ & _ & _ & Hc1).
      destruct (Hc1 Hh1) as [Hold1 | (Hhp & Hhead)]; [|done].
      pose proof (reg_host m Hm rn game s1 q1 Hgame
                    (removeFirst_subset s _ _ Hs1) Hq1 Hold1) as Hhead.
      destruct (Game.players game) as [|a rest]; [done|].
      injection Hhead as ->. simpl. by rewrite decide_False.
    + rewrite (Hsame r g s1 Hne Hg1 Hs1) in Hp1.
      by apply (reg_host m Hm r g s1 p1).
  - intros s1 s2 p1 p2 Hp1 Hp2 Hr Hn.
    destruct (Hback s1 p1 Hp1) as (_ & q1 & Hq1 & _ & Hna1 & Hro1 & _).
    destruct (Hback s2 p2 Hp2) as (_ & q2 & Hq2 & _ & Hna2 & Hro2 & _).
    apply (reg_name m Hm s1 s2 q1 q2); congruence.
Qed.

(** [departure], case by case. *)
Lemma departure_cases game st id wasHost :
  ∃ kept st',
    GameManager.departure game st id wasHost = (kept, st')
    ∧ (st' = st
       ∨ (wasHost = true
          ∧ ∃ h, head (Game.removeFirst id (Game.players game)) = Some h
              ∧ st' = alter (Player.set_isHost true) h st))
    ∧ match kept with
      | None => Game.removeFirst id (Game.players game) = []
      | Some game' =>
          Game.players game' = Game.removeFirst id (Game.players game)
          ∧ Game.roomName game' = Game.roomName game
      end.
Proof.
  unfold GameManager.departure.
  cbn [Game.status Game.players Game.removePlayer Game.set_players].
  destruct (decide _) as [Hzero|Hsome].
  { eexists _, _. split_and!; [done | by left |].
    by destruct (Game.removeFirst id (Game.players game)). }
  destruct (Game.status game);
    [by eexists _, _; split_and!; [|left|] | | by eexists _, _; split_and!; [|left|]].
  destruct (decide _); [by eexists _, _; split_and!; [|left|]|].
  destruct wasHost; [|by eexists _, _; split_and!; [|left|]].
  eexists _, _. split_and!; [done | | done].
  unfold GameManager.promoteFirst. cbn [Game.players Game.set_players Game.removePlayer].
  destruct (Game.removeFirst id (Game.players game)) as [|h rest] eqn:E; [by left|].
  right. split; [done|]. by exists h.
Qed.

Lemma handleDisconnect_registry m socket :
  registryOk m → registryOk (GameManager.handleDisconnect m socket).
Proof.
  intros Hm. unfold GameManager.handleDisconnect.
  destruct (GameManager.socketToRoom m !! socket) as [rn|] eqn:Hs; [|done].
  destruct (GameManager.players m !! socket) as [p|] eqn:Hp; [|done].
  destruct (bool_decide _); [done|].
  destruct (reg_socket m Hm _ _ Hs) as (_ & game & Hgame & Hin).
  destruct (reg_player m Hm _ _ Hp) as (Hid & _).
  destruct (reg_game m Hm _ _ Hgame) as (_ & Hroom & _).
  rewrite Hgame, Hid.
  destruct (exec_roomOk (Leave socket) game _ Hroom Hin) as (s' & Hexec & Hroom').
  simpl in Hexec. rewrite Hp in Hexec.
  destruct (departure_cases game (GameManager.players m) socket (Player.isHost p))
    as (kept & st' & Hdep & Hst & Hkept).
  rewrite Hdep in Hexec |- *. injection Hexec as <-.
  assert (st' = GameManager.players m
          ∨ (Player.isHost p = true
             ∧ ∃ h, head (Game.removeFirst socket (Game.players game)) = Some h
                 ∧ st' = alter (Player.set_isHost true) h (GameManager.players m)))
    as Hst' by done.
  destruct kept as [game'|].
  - apply (registryOk_leave m socket rn p game (Some game') st'); try done.
    + destruct Hkept as [? ?]. split_and!; done.
    + apply lookup_insert_eq.
    + intros r Hr. by rewrite lookup_insert_ne.
  - apply (registryOk_leave m socket rn p game None st'); try done.
    + apply lookup_delete_eq.
    + intros r Hr. by rewrite lookup_delete_ne.
Qed.

(** From a well-formed registry every request is served, and leaves the
    registry well formed. *)
Lemma handle_registry r m :
  registryOk m → ∃ m', handle r m = Some m' ∧ registryOk m'.
Proof.
  intros Hm. destruct r as [s rn n|sort s rn|s d|s|s|s|rn]; simpl.
  - eexists. split; [reflexivity|]. by apply joinGame_registry.
  - destruct (startGame_registry sort m s rn Hm) as (m' & r & -> & Hm').
    by exists m'.
  - by apply movePiece_registry.
  - by apply rotatePiece_registry.
  - by apply hardDrop_registry.
  - eexists. split; [reflexivity|]. by apply handleDisconnect_registry.
  - by apply interval_registry.
Qed.

Lemma serves_registryOk m : serves GameManager.empty m → registryOk m.
Proof.
  induction 1 as [|r m1 m2 _ IH Hstep]; [apply registryOk_empty|].
  destruct (handle_registry r m1 IH) as (m' & Hm' & Hok). congruence.
Qed.

Lemma serves_joined : serves GameManager.empty Scenario.joined.
Proof.
  apply (serves_step _ (JoinGame "B" "r1" "bob")
           (GameManager.joinGame GameManager.empty "A" "r1" "alice").1).
  - apply (serves_step _ (JoinGame "A" "r1" "alice") GameManager.empty);
      [apply serves_nil | reflexivity].
  - reflexivity.
Qed.

Lemma serves_played : serves GameManager.empty Scenario.played.
Proof.
  apply (serves_step _ (HardDropOf "A") Scenario.startedRoom).
  - apply (serves_step _ (StartGame Scenario.identitySort "A" "r1") Scenario.joined);
      [apply serves_joined | vm_compute; reflexivity].
  - vm_compute. reflexivity.
Qed.



(** X14. Whatever requests have been served since the server started, a
    player of a room that is flagged host is the first of the roster of the
    room's game; so a room has at most one host. *)
Theorem host_is_first_of_roster m r g :
  serves GameManager.empty m → GameManager.games m !! r = Some g →
  (∀ s p, s ∈ Game.players g → GameManager.players m !! s = Some p →
     Player.isHost p = true → head (Game.players g) = Some s)
  ∧ (∀ s1 s2 p1 p2, s1 ∈ Game.players g → s2 ∈ Game.players g →
       GameManager.players m !! s1 = Some p1 →
       GameManager.players m !! s2 = Some p2 →
       Player.isHost p1 = true → Player.isHost p2 = true → s1 = s2).
Proof.
  intros Hm%serves_registryOk Hg.
  assert (∀ s p, s ∈ Game.players g → GameManager.players m !! s = Some p →
            Player.isHost p = true → head (Game.players g) = Some s) as Hfirst
    by (intros s p; apply (reg_host m Hm r g s p Hg)).
  split; [done|]. intros s1 s2 p1 p2 Hs1 Hs2 Hp1 Hp2 Hh1 Hh2.
  pose proof (Hfirst s1 p1 Hs1 Hp1 Hh1). pose proof (Hfirst s2 p2 Hs2 Hp2 Hh2).
  congruence.
Qed.

(** X14 at the waiting room [r1]. *)
Lemma host_of_joined_room_is_first :
  (∀ s p, s ∈ Game.players Scenario.room →
     GameManager.players Scenario.joined !! s = Some p →
     Player.isHost p = true → head (Game.players Scenario.room) = Some s)
  ∧ (∀ s1 s2 p1 p2,
       s1 ∈ Game.players Scenario.room → s2 ∈ Game.players Scenario.room →
       GameManager.players Scenario.joined !! s1 = Some p1 →
       GameManager.players Scenario.joined !! s2 = Some p2 →
       Player.isHost p1 = true → Player.isHost p2 = true → s1 = s2).
Proof.
  apply (host_is_first_of_roster Scenario.joined "r1" Scenario.room).
  - apply serves_joined.
  - vm_compute. reflexivity.
Defined.

(** X15. Whatever requests have been served since the server started, two
    different players of a room have different names. *)
Theorem names_distinct_within_room m r g s1 s2 p1 p2 :
  serves GameManager.empty m → GameManager.games m !! r = Some g →
  s1 ∈ Game.players g → s2 ∈ Game.players g →
  GameManager.players m !! s1 = Some p1 → GameManager.players m !! s2 = Some p2 →
  s1 ≠ s2 → Player.name p1 ≠ Player.name p2.
Proof.
  intros Hm%serves_registryOk Hg Hs1 Hs2 Hp1 Hp2 Hne Hn. apply Hne.
  destruct (reg_game m Hm r g Hg) as (_ & _ & Hmem).
  destruct (reg_player m Hm s1 p1 Hp1) as (_ & Hr1 & _).
  destruct (reg_player m Hm s2 p2 Hp2) as (_ & Hr2 & _).
  pose proof (Hmem s1 Hs1). pose proof (Hmem s2 Hs2).
  apply (reg_name m Hm s1 s2 p1 p2); congruence.
Qed.

(** X15 at [A] and [B] in the game just started. *)
Lemma alice_and_bob_have_different_names :
  Player.name Scenario.alice ≠ Player.name Scenario.bob.
Proof.
  apply (names_distinct_within_room Scenario.startedRoom "r1" Scenario.dealtRoom.1
           "A" "B" Scenario.alice Scenario.bob).
  - apply (serves_step _ (StartGame Scenario.identitySort "A" "r1") Scenario.joined);
      [apply serves_joined | vm_compute; reflexivity].
  - vm_compute. reflexivity.
  - apply (bool_decide_unpack _). vm_compute. exact I.
  - apply (bool_decide_unpack _). vm_compute. exact I.
  - vm_compute. reflexivity.
  - vm_compute. reflexivity.
  - discriminate.
Defined.

(** X16. Whatever requests have been served since the server started, the
    next request, whichever it is, is served to its end: no handler raises,
    and the loops of [clearLines] and [hardDrop] stop. *)
Theorem every_request_is_served m r :
  serves GameManager.empty m →
  ∃ m', handle r m = Some m' ∧ serves GameManager.empty m'.
Proof.
  intros Hm. destruct (handle_registry r m (serves_registryOk m Hm)) as (m' & Hm' & _).
  exists m'. split; [done|]. by apply (serves_step _ r m).
Qed.

(** X16 at [B]'s hard drop after [A]'s. *)
Lemma hard_drop_of_B_is_served :
  ∃ m', handle (HardDropOf "B") Scenario.played = Some m'
    ∧ serves GameManager.empty m'.
Proof.
  apply (every_request_is_served Scenario.played (HardDropOf "B")).
  apply serves_played.
Defined.

Lemma getPlayersInfo_spec (st : Store) r ids :
  (∀ s, s ∈ ids → ∃ p, st !! s = Some p ∧ Player.id p = s
                   ∧ Player.roomName p = r
                   ∧ Player.spectrum p = replicate 10 0%nat) →
  ∃ infos, mapM (fun pid => Player.toJSON <$> st !! pid) ids = Some infos
    ∧ Player.Info.id <$> infos = ids
    ∧ Forall (fun i => Player.Info.roomName i = r
                ∧ Player.Info.spectrum i = replicate 10 0%nat) infos.
Proof.
  induction ids as [|s ids IH]; intros Hall.
  - exists []. by split_and!.
  - destruct (Hall s) as (p & Hp & Hid & Hr & Hsp); [apply elem_of_cons; by left|].
    destruct IH as (infos & Hrun & Hids & Hinfos).
    { intros q Hq. apply Hall, elem_of_cons. by right. }
    exists (Player.toJSON p :: infos). cbn. rewrite Hp. cbn. rewrite Hrun. cbn.
    split_and!; [done | by rewrite Hid, Hids |]. by constructor.
Qed.

(** X17. Whatever requests have been served since the server started,
    [getPlayersInfo] of a registered game returns one object for each socket
    of the roster, in the order of the roster, with the room of the game, and
    with a [spectrum] of ten zeros: no request updates the [spectrum] field
    of a player, whatever is on its board. *)
Theorem players_info_spectrum_stays_zero m r g :
  serves GameManager.empty m → GameManager.games m !! r = Some g →
  ∃ infos, Game.getPlayersInfo g (GameManager.players m) = Some infos
    ∧ Player.Info.id <$> infos = Game.players g
    ∧ Forall (fun i => Player.Info.roomName i = r
                ∧ Player.Info.spectrum i = replicate 10 0%nat) infos.
Proof.
  intros Hm%serves_registryOk Hg. apply getPlayersInfo_spec. intros s Hs.
  destruct (reg_game m Hm r g Hg) as (_ & _ & Hmem).
  destruct (reg_socket m Hm s r (Hmem s Hs)) as ([p Hp] & _).
  destruct (reg_player m Hm s p Hp) as (Hid & Hroom & Hsp).
  exists p. specialize (Hmem s Hs). split_and!; [done | done | congruence | done].
Qed.

(** X17 at the game of [r1] after [A]'s hard drop. *)
Lemma played_info_spectrum_is_zero :
  ∃ infos,
    Game.getPlayersInfo Scenario.playedGame (GameManager.players Scenario.played)
    = Some infos
    ∧ Player.Info.id <$> infos = Game.players Scenario.playedGame
    ∧ Forall (fun i => Player.Info.roomName i = "r1"%string
                ∧ Player.Info.spectrum i = replicate 10 0%nat) infos.
Proof.
  apply (players_info_spectrum_stays_zero Scenario.played "r1" Scenario.playedGame).
  - apply serves_played.
  - vm_compute. reflexivity.
Defined.

(** ** Joining and leaving *)





(** X19. Whatever requests have been served since the server started, when
    a socket that has a room disconnects: if the name of the room is the
    empty string nothing changes at all (the player stays); otherwise the
    socket has no player and no room any more, no row of the database, no
    roster lists it, and every other socket keeps its room and its
    player. *)
Theorem disconnect_forgets_the_socket m socket roomName :
  serves GameManager.empty m →
  GameManager.socketToRoom m !! socket = Some roomName →
  let m' := GameManager.handleDisconnect m socket in
  (roomName = EmptyString → m' = m)
  ∧ (roomName ≠ EmptyString →
     GameManager.players m' !! socket = None
     ∧ GameManager.socketToRoom m' !! socket = None
     ∧ (∀ row, row ∈ GameManager.dbPlayers m' → GameManager.socket_id row ≠ socket)
     ∧ (∀ r g, GameManager.games m' !! r = Some g → socket ∉ Game.players g)
     ∧ (∀ s, s ≠ socket →
          GameManager.socketToRoom m' !! s = GameManager.socketToRoom m !! s
          ∧ (is_Some (GameManager.players m' !! s)
             ↔ is_Some (GameManager.players m !! s)))).
Proof.
  intros Hm%serves_registryOk Hs m'.
  pose proof (handleDisconnect_registry m socket Hm) as Hm'. fold m' in Hm'.
  destruct (reg_socket m Hm _ _ Hs) as ([p Hp] & game & Hgame & Hin).
  assert (m' = if bool_decide (roomName = EmptyString) then m
               else
                 let kst := GameManager.departure game (GameManager.players m)
                              (Player.id p) (Player.isHost p) in
                 GameManager.mk
                   (match kst.1 with
                    | None => delete roomName (GameManager.games m)
                    | Some game' => <[roomName := game']> (GameManager.games m)
                    end)
                   (delete socket kst.2)
                   (delete socket (GameManager.socketToRoom m))
                   (filter (fun r => GameManager.socket_id r ≠ socket)
                      (GameManager.dbPlayers m))) as Hm'eq.
  { unfold m', GameManager.handleDisconnect. rewrite Hs, Hp, Hgame.
    destruct (bool_decide _); [done|].
    by destruct (GameManager.departure _ _ _ _) as [[g'|] st']. }
  split.
  - intros ->. by rewrite Hm'eq.
  - intros Hne. rewrite bool_decide_eq_false_2 in Hm'eq by done.
    assert (GameManager.socketToRoom m' !! socket = None) as Hnone
      by (rewrite Hm'eq; cbn; apply lookup_delete_eq).
    split_and!.
    + rewrite Hm'eq. cbn. apply lookup_delete_eq.
    + done.
    + intros row. rewrite Hm'eq. cbn. by intros [? _]%list_elem_of_filter.
    + intros r g Hg Hsin. destruct (reg_game m' Hm' r g Hg) as (_ & _ & Hmem).
      specialize (Hmem _ Hsin). congruence.
    + intros s Hsne. rewrite Hm'eq. cbn [GameManager.socketToRoom GameManager.players].
      rewrite !lookup_delete_ne by done. split; [done|].
      destruct (departure_cases game (GameManager.players m) (Player.id p)
                  (Player.isHost p)) as (kept & st' & -> & [-> | (_ & h & _ & ->)] & _);
        cbn [snd]; [done|].
      by rewrite lookup_alter_is_Some.
Qed.

(** X19 at the host [A] leaving the waiting room [r1]. *)
Lemma host_disconnects_from_waiting_room :
  let m' := GameManager.handleDisconnect Scenario.joined "A" in
  ("r1"%string = EmptyString → m' = Scenario.joined)
  ∧ ("r1"%string ≠ EmptyString →
     GameManager.players m' !! "A" = None
     ∧ GameManager.socketToRoom m' !! "A" = None
     ∧ (∀ row, row ∈ GameManager.dbPlayers m' →
          GameManager.socket_id row ≠ "A"%string)
     ∧ (∀ r g, GameManager.games m' !! r = Some g → "A"%string ∉ Game.players g)
     ∧ (∀ s, s ≠ "A"%string →
          GameManager.socketToRoom m' !! s
          = GameManager.socketToRoom Scenario.joined !! s
          ∧ (is_Some (GameManager.players m' !! s)
             ↔ is_Some (GameManager.players Scenario.joined !! s)))).
Proof.
  apply (disconnect_forgets_the_socket Scenario.joined "A" "r1").
  - apply serves_joined.
  - vm_compute. reflexivity.
Defined.





(** ** Pieces in play *)

Lemma knownShapes_tetrominoes s :
  s ∈ knownShapes →
  blocks s = 4%nat ∧ (square 2 s ∨ square 3 s ∨ square 4 s).
Proof.
  revert s.
  apply (proj1 (list.Forall_forall
           (fun s => blocks s = 4%nat ∧ (square 2 s ∨ square 3 s ∨ square 4 s))
           knownShapes)).
  unfold square, blocks. apply (bool_decide_unpack _). vm_compute. exact I.
Qed.

(** X24. From the start of a game on, whatever happens to the room, while
    the game is playing every player of the room has a current piece and a
    next piece, each of exactly four blocks in a square shape of side 2, 3
    or 4 (so the rotation of X6 applies to it). *)
Theorem pieces_in_play_are_tetrominoes sort g0 st0 s0 s :
  NoDup (Game.players g0) → Game.start sort g0 st0 = Some s0 → runs s0 s →
  Game.status s.1 = playing →
  ∀ pid, pid ∈ Game.players s.1 →
    ∃ player current next,
      s.2 !! pid = Some player
      ∧ Player.currentPiece player = Some current
      ∧ Player.nextPiece player = Some next
      ∧ blocks (Piece.shape current) = 4%nat
      ∧ blocks (Piece.shape next) = 4%nat
      ∧ (∃ n, (2 ≤ n ≤ 4)%nat ∧ square n (Piece.shape current))
      ∧ (∃ n, (2 ≤ n ≤ 4)%nat ∧ square n (Piece.shape next)).
Proof.
  intros Hnd Hstart Hruns Hplay pid Hin.
  pose proof (runs_roomOk s0 s (start_roomOk _ _ _ _ Hnd Hstart) Hruns)
    as (_ & _ & Hplaying).
  destruct (Hplaying Hplay pid Hin) as (player & Hp & [_ (c & Hc & Hcok) (n & Hn & Hnok) _]).
  destruct (knownShapes_tetrominoes _ Hcok) as [Hc4 Hcsq].
  destruct (knownShapes_tetrominoes _ Hnok) as [Hn4 Hnsq].
  exists player, c, n. split_and!; try done.
  - destruct Hcsq as [?|[?|?]]; [exists 2%nat | exists 3%nat | exists 4%nat];
      (split; [lia | done]).
  - destruct Hnsq as [?|[?|?]]; [exists 2%nat | exists 3%nat | exists 4%nat];
      (split; [lia | done]).
Qed.

(** X24 at [A] in the two-player room, after [A]'s first hard drop. *)
Lemma pieces_after_hard_drop_are_tetrominoes :
  ∃ player current next,
    Scenario.afterDrop.2 !! "A" = Some player
    ∧ Player.currentPiece player = Some current
    ∧ Player.nextPiece player = Some next
    ∧ blocks (Piece.shape current) = 4%nat
    ∧ blocks (Piece.shape next) = 4%nat
    ∧ (∃ n, (2 ≤ n ≤ 4)%nat ∧ square n (Piece.shape current))
    ∧ (∃ n, (2 ≤ n ≤ 4)%nat ∧ square n (Piece.shape next)).
Proof.
  refine (pieces_in_play_are_tetrominoes Scenario.identitySort Scenario.room
            Scenario.roster Scenario.dealtRoom Scenario.afterDrop
            _ _ _ _ "A" _).
  - apply (bool_decide_unpack _). vm_compute. exact I.
  - vm_compute. reflexivity.
  - apply (runs_step _ (HardDrop "A") Scenario.dealtRoom); [apply runs_nil | |].
    + change ("A" ∈ Game.players Scenario.dealtRoom.1).
      apply (bool_decide_unpack _). vm_compute. exact I.
    + vm_compute. reflexivity.
  - vm_compute. reflexivity.
  - apply (bool_decide_unpack _). vm_compute. exact I.
Defined.

(** ** Soft drops and gravity *)

(** X25. For a living player with a falling piece: when the piece can go
    down one row, the soft drop ([movePiece] with [down]) is accepted and
    leaves the players exactly as the gravity step does, the piece one row
    lower; when it cannot, the soft drop is refused and changes nothing (it
    never locks the piece), whereas the gravity step, when it returns, has
    spawned the next piece at the spawn position and moved the room's piece
    index on by one. *)
Theorem soft_drop_is_gravity_without_lock g st pid p piece :
  st !! pid = Some p → Player.isAlive p = true →
  Player.currentPiece p = Some piece →
  match Game.isValidPosition (Game.boardOf p) piece (Piece.x piece)
          (Piece.y piece + 1) with
  | Some true =>
      ∃ st', Game.movePiece st pid down = Some (st', true)
        ∧ Game.dropPiece g st pid = Some (g, st')
        ∧ st' = <[pid := Player.set_currentPiece
                            (Some (Piece.set_y (Piece.y piece + 1) piece)) p]> st
  | Some false =>
      Game.movePiece st pid down = Some (st, false)
      ∧ ∀ g' st', Game.dropPiece g st pid = Some (g', st') →
          ∃ p', st' !! pid = Some p'
            ∧ Game.currentPieceIndex g' = S (Game.currentPieceIndex g)
            ∧ (Player.nextPiece p ≫= fun next =>
                 Some (Piece.set_y 0 (Piece.set_x 3 next)))
              = Player.currentPiece p'
  | None =>
      Game.movePiece st pid down = None ∧ Game.dropPiece g st pid = None
  end.
Proof.
  intros Hp Halive Hc.
  unfold Game.movePiece, Game.dropPiece. rewrite Hp. cbn [mbind option_bind].
  rewrite Hc, Halive. cbn [negb].
  destruct (Game.isValidPosition _ _ _ _) as [[|]|] eqn:Hvalid;
    cbn [mbind option_bind].
  - eexists. split_and!; reflexivity.
  - split; [done|]. intros g' st' Hrun.
    destruct (Game.lockPiece p) as [locked|] eqn:Hlock; [|discriminate].
    cbn [mbind option_bind] in Hrun.
    destruct (Game.clearLines locked) as [[cleared k]|] eqn:Hclear; [|discriminate].
    cbn [mbind option_bind] in Hrun.
    destruct (Game.spawnNewPiece g cleared) as [[g1 spawned]|] eqn:Hspawn; [|discriminate].
    cbn [mbind option_bind] in Hrun.
    pose proof (proj2 (lockPiece_keeps_alive _ _ Hlock)) as Hnext.
    assert (Player.nextPiece cleared = Player.nextPiece locked) as Hnext'.
    { unfold Game.clearLines in Hclear.
      destruct (Player.board locked); [|discriminate].
      cbn [mbind option_bind] in Hclear.
      destruct (Game.clearLinesLoop _ _ _ _) as [[b' n]|]; [|discriminate].
      cbn [mbind option_bind] in Hclear.
      destruct (decide (0 < n)%nat); by injection Hclear as <- <-. }
    unfold Game.spawnNewPiece in Hspawn. rewrite Hnext', Hnext in Hspawn.
    destruct (Player.nextPiece p) as [nx|]; [|discriminate].
    cbn [mbind option_bind] in Hspawn. injection Hspawn as <- <-.
    destruct (Game.canSpawnPiece _) as [[|]|]; [| |discriminate];
      cbn [mbind option_bind negb] in Hrun; injection Hrun as <- <-;
      rewrite lookup_insert_eq; eexists; split_and!; try reflexivity.
    unfold Game.checkGameEnd. by destruct (decide _).
  - done.
Qed.

(** X25 at [A]'s first piece in the game just started. *)
Lemma first_soft_drop_is_gravity :
  match Game.isValidPosition (Game.boardOf Scenario.alice) (Piece.new KI)
          (Piece.x (Piece.new KI)) (Piece.y (Piece.new KI) + 1) with
  | Some true =>
      ∃ st', Game.movePiece Scenario.dealtRoom.2 "A" down = Some (st', true)
        ∧ Game.dropPiece Scenario.dealtRoom.1 Scenario.dealtRoom.2 "A"
          = Some (Scenario.dealtRoom.1, st')
        ∧ st' = <["A" := Player.set_currentPiece
                            (Some (Piece.set_y (Piece.y (Piece.new KI) + 1)
                                     (Piece.new KI))) Scenario.alice]>
                  Scenario.dealtRoom.2
  | Some false =>
      Game.movePiece Scenario.dealtRoom.2 "A" down
      = Some (Scenario.dealtRoom.2, false)
      ∧ ∀ g' st',
          Game.dropPiece Scenario.dealtRoom.1 Scenario.dealtRoom.2 "A"
          = Some (g', st') →
          ∃ p', st' !! "A" = Some p'
            ∧ Game.currentPieceIndex g'
              = S (Game.currentPieceIndex Scenario.dealtRoom.1)
            ∧ (Player.nextPiece Scenario.alice ≫= fun next =>
                 Some (Piece.set_y 0 (Piece.set_x 3 next)))
              = Player.currentPiece p'
  | None =>
      Game.movePiece Scenario.dealtRoom.2 "A" down = None
      ∧ Game.dropPiece Scenario.dealtRoom.1 Scenario.dealtRoom.2 "A" = None
  end.
Proof.
  apply (soft_drop_is_gravity_without_lock Scenario.dealtRoom.1
           Scenario.dealtRoom.2 "A" Scenario.alice (Piece.new KI)).
  - vm_compute. reflexivity.
  - vm_compute. reflexivity.
  - vm_compute. reflexivity.
Defined.

(** ** The evaluated cases in general, at the two-player room *)

(** X21 at one gravity step of [A] in the game just started: [B] is
    untouched. *)
Lemma gravity_step_of_A_leaves_B :
  Scenario.fallen.2 !! "B" = Scenario.dealtRoom.2 !! "B".
Proof.
  apply (dropPiece_writes_one_player Scenario.dealtRoom.1 Scenario.dealtRoom.2
           "A" Scenario.fallen.1 Scenario.fallen.2 "B").
  - vm_compute. reflexivity.
  - discriminate.
Defined.

(** X22 at [A]'s first hard drop in the game just started. *)
Lemma first_hardDrop_keeps_alive_and_status :
  Game.status Scenario.dropped.1.1 = Game.status Scenario.dealtRoom.1
  ∧ Player.isAlive <$> Scenario.dropped.1.2 !! "A"
    = Player.isAlive <$> Scenario.dealtRoom.2 !! "A".
Proof.
  apply (hardDrop_keeps_alive_and_status Scenario.dealtRoom.1
           Scenario.dealtRoom.2 "A" Scenario.dropped.1.1 Scenario.dropped.1.2
           Scenario.dropped.2).
  vm_compute. reflexivity.
Defined.

(** X23 at the host [A] leaving the waiting room [r1]: [B] is as before. *)
Lemma host_leaves_and_B_is_as_before :
  GameManager.players (GameManager.handleDisconnect Scenario.joined "A") !! "B"
  = GameManager.players Scenario.joined !! "B".
Proof.
  apply (handleDisconnect_promotes_only_while_playing Scenario.joined "A" "r1"
           Scenario.room "B").
  - vm_compute. reflexivity.
  - vm_compute. reflexivity.
  - discriminate.
  - discriminate.
Defined.
